(** * starlark-go-bazel: a shallow embedding of the Bazel dialect layer

  The development follows the Go packages of the repository:
  [types] (labels, depsets, providers, rule classes and rule instances),
  [builtins] and [eval] (the [provider] builtins, packages, target
  registration and the load function of the evaluator), [loader] (module
  loading with memoization and cycle detection), [native] ([glob] and
  [subpackages]) and [providers] (output groups).

  Go strings are byte sequences and are modelled by [string]; Go maps are
  [gmap]s; a Go function returning [(T, error)] returns a [result].
  The embedded Starlark interpreter (go.starlark.net) is an external
  collaborator: the parts of its interface that the code consumes are
  taken as parameters of the sections that need them. *)

From Stdlib Require Import ZArith String Ascii List Lia Bool.
From stdpp Require Import base gmap strings list sorting.

Open Scope string_scope.
Open Scope list_scope.

(** ** Results of fallible Go functions *)

Inductive result (E A : Type) : Type :=
| Ok (a : A)
| Err (e : E).
Arguments Ok {E A} a.
Arguments Err {E A} e.

Definition is_ok {E A} (r : result E A) : bool :=
  match r with Ok _ => true | Err _ => false end.

#[global] Instance result_ret {E} : MRet (result E) := fun A a => Ok a.
#[global] Instance result_bind {E} : MBind (result E) := fun A B k r =>
  match r with Ok a => k a | Err e => Err e end.

(** A loop over a slice that returns at the first error. *)
Fixpoint foldM {E A B : Type} (f : B -> A -> result E B) (l : list A) (b : B)
  : result E B :=
  match l with
  | [] => Ok b
  | a :: l' => b' ← f b a; foldM f l' b'
  end.

(** ** The comparison operators of [syntax.Token] *)

Module Syntax.

Inductive Token : Type :=
| EQL | NEQ | LT | LE | GT | GE
| OtherToken (name : string).

End Syntax.

(** ** The functions of Go's [strings] package that the code uses *)

Module GoStrings.

(** [strings.HasPrefix(s, p)] *)
Fixpoint HasPrefix (s p : string) {struct p} : bool :=
  match p with
  | EmptyString => true
  | String c p' =>
      match s with
      | EmptyString => false
      | String d s' => Ascii.eqb c d && HasPrefix s' p'
      end
  end.

(** [s[n:]] *)
Fixpoint from (n : nat) (s : string) : string :=
  match n, s with
  | O, _ => s
  | S n', String _ s' => from n' s'
  | S _, EmptyString => EmptyString
  end.

(** [s[:n]] *)
Fixpoint upto (n : nat) (s : string) : string :=
  match n, s with
  | O, _ => EmptyString
  | S n', String c s' => String c (upto n' s')
  | S _, EmptyString => EmptyString
  end.

(** [s[i:j]] *)
Definition slice (i j : nat) (s : string) : string := from i (upto j s).

(** [strings.Index(s, sep)]: the first position at which [sep] occurs *)
Fixpoint Index (s sep : string) : option nat :=
  if HasPrefix s sep then Some O
  else match s with
       | EmptyString => None
       | String _ s' => option_map S (Index s' sep)
       end.

(** [strings.LastIndex(s, sep)]: the last position at which [sep] occurs *)
Fixpoint LastIndex (s sep : string) : option nat :=
  match s with
  | EmptyString => if HasPrefix s sep then Some O else None
  | String _ s' =>
      match LastIndex s' sep with
      | Some i => Some (S i)
      | None => if HasPrefix s sep then Some O else None
      end
  end.

(** [strings.Contains(s, sub)] *)
Definition Contains (s sub : string) : bool :=
  match Index s sub with Some _ => true | None => false end.

(** [strings.HasSuffix(s, suf)] *)
Definition HasSuffix (s suf : string) : bool :=
  (String.length suf <=? String.length s)%nat
  && String.eqb (from (String.length s - String.length suf) s) suf.

(** [strings.TrimPrefix(s, p)] *)
Definition TrimPrefix (s p : string) : string :=
  if HasPrefix s p then from (String.length p) s else s.

(** [strings.TrimSuffix(s, suf)] *)
Definition TrimSuffix (s suf : string) : string :=
  if HasSuffix s suf then upto (String.length s - String.length suf) s else s.

(** [strings.Join(l, sep)] *)
Fixpoint Join (l : list string) (sep : string) : string :=
  match l with
  | [] => ""
  | [x] => x
  | x :: l' => x +:+ sep +:+ Join l' sep
  end.

(** The double-quote character and the backslash. *)
Definition dq : string := String (ascii_of_nat 34) EmptyString.
Definition bs : string := String (ascii_of_nat 92) EmptyString.

(** The digits of [lowerhex] in [strconv]. *)
Definition lowerhex (n : N) : ascii :=
  match String.get (N.to_nat n) "0123456789abcdef" with
  | Some c => c
  | None => ascii_of_nat 48
  end.

(** [%q] of [fmt] on a string, that is [strconv.Quote]. The quote and the
    backslash get a backslash in front; the printable ASCII characters are
    copied; the control characters are written [\a], [\b], [\f], [\n],
    [\r], [\t], [\v], or [\x] and two hexadecimal digits. A byte above
    0x7f is copied, which is what Go does with the bytes of a printable
    character; Go escapes the other characters and the bytes that are no
    UTF-8, so that [quote] is [%q] on the strings of ASCII bytes and on the
    strings whose other characters are printable. *)
Definition escape_byte (c : ascii) : string :=
  let n := N_of_ascii c in
  if (n =? 34)%N then bs +:+ dq
  else if (n =? 92)%N then bs +:+ bs
  else if (32 <=? n)%N && (n <=? 126)%N then String c EmptyString
  else if (n =? 7)%N then bs +:+ "a"
  else if (n =? 8)%N then bs +:+ "b"
  else if (n =? 12)%N then bs +:+ "f"
  else if (n =? 10)%N then bs +:+ "n"
  else if (n =? 13)%N then bs +:+ "r"
  else if (n =? 9)%N then bs +:+ "t"
  else if (n =? 11)%N then bs +:+ "v"
  else if (n <? 32)%N || (n =? 127)%N
       then bs +:+ "x"
            +:+ String (lowerhex (N.shiftr n 4))
                  (String (lowerhex (N.land n 15)) EmptyString)
  else String c EmptyString.

Fixpoint escape (s : string) : string :=
  match s with
  | EmptyString => EmptyString
  | String c s' => escape_byte c +:+ escape s'
  end.

Definition quote (s : string) : string := dq +:+ escape s +:+ dq.

(** [%v] of a [[]string] *)
Definition fmt_strings (l : list string) : string := "[" +:+ Join l " " +:+ "]".

(** [strings.Compare(a, b)]: the lexical order of the bytes *)
Definition Compare (a b : string) : comparison := String.compare a b.

End GoStrings.

(** ** [types.Label] *)

Module Label.
Import GoStrings.

Record Label : Type := mkLabel {
  repo : string;   (* repository name, empty for the main repository *)
  pkg : string;    (* package path *)
  name : string;   (* target name *)
  frozen : bool
}.

Inductive error : Type :=
| ErrMissingSlashes (s : string)   (* invalid label %q: missing // *)
| ErrMustStart (s : string).       (* invalid label %q: must start with // or @ *)

Definition Error (e : error) : string :=
  match e with
  | ErrMissingSlashes s => "invalid label " +:+ quote s +:+ ": missing //"
  | ErrMustStart s => "invalid label " +:+ quote s +:+ ": must start with // or @"
  end.

(** [ParseLabel]: the repository prefix is split off first; the rest must
    start with [//]; the package and the name are split at the last
    colon, or the name is the last path component. *)
Definition ParseLabel (s : string) : result error Label :=
  '(r, s) ←
    (if HasPrefix s "@" then
       match Index s "//" with
       | None => Err (ErrMissingSlashes s)
       | Some idx => Ok (slice 1 idx s, from idx s)
       end
     else Ok ("", s));
  if negb (HasPrefix s "//") then Err (ErrMustStart s)
  else
    let s := from 2 s in
    match LastIndex s ":" with
    | Some idx => Ok (mkLabel r (upto idx s) (from (idx + 1) s) false)
    | None =>
        Ok (mkLabel r s
              (match LastIndex s "/" with
               | Some idx => from (idx + 1) s
               | None => s
               end) false)
    end.

(** [Label.String] *)
Definition String_ (l : Label) : string :=
  (if String.eqb (repo l) "" then "" else "@" +:+ repo l)
  +:+ "//" +:+ pkg l +:+ ":" +:+ name l.

(** [ParseLabelRelative] *)
Definition ParseLabelRelative (s currentRepo currentPkg : string)
  : result error Label :=
  if HasPrefix s "@" then ParseLabel s
  else if HasPrefix s "//" then
    l ← ParseLabel s;
    Ok (if String.eqb (repo l) ""
        then mkLabel currentRepo (pkg l) (name l) (frozen l)
        else l)
  else if HasPrefix s ":" then Ok (mkLabel currentRepo currentPkg (from 1 s) false)
  else Ok (mkLabel currentRepo currentPkg s false).

(** The path segments of a package path. *)
Fixpoint segments_aux (acc : string) (s : string) : list string :=
  match s with
  | EmptyString => [acc]
  | String c s' =>
      if Ascii.eqb c "/"%char then acc :: segments_aux "" s'
      else segments_aux (acc +:+ String c EmptyString) s'
  end.
Definition segments (s : string) : list string := segments_aux "" s.

Definition has_dotdot_segment (s : string) : bool :=
  existsb (String.eqb "..") (segments s).

(** [NewLabel] *)
Definition NewLabel (repo pkg name : string) : Label :=
  mkLabel repo pkg name false.

(** [Label.CompareSameType]: the labels are compared through their
    string forms. *)
Definition CompareSameType (op : Syntax.Token) (l other : Label)
  : result string bool :=
  let cmp := Compare (String_ l) (String_ other) in
  match op with
  | Syntax.EQL => Ok (match cmp with Eq => true | _ => false end)
  | Syntax.NEQ => Ok (match cmp with Eq => false | _ => true end)
  | Syntax.LT => Ok (match cmp with Lt => true | _ => false end)
  | Syntax.LE => Ok (match cmp with Gt => false | _ => true end)
  | Syntax.GT => Ok (match cmp with Gt => true | _ => false end)
  | Syntax.GE => Ok (match cmp with Lt => false | _ => true end)
  | Syntax.OtherToken s => Err ("unsupported comparison: " +:+ s)
  end.

End Label.


(** ** The interface of host values, [starlark.Value]

    The methods [String], [Type] and [Hash] of a value, [starlark.Equal]
    (its error is ignored by the callers below, so [Equal] is [false] when
    the comparison fails) and the two dynamic type tests that the depset
    code performs. [Hash] is [None] when the value is unhashable. *)

Class HostValue (V : Type) : Type := {
  String_ : V -> string;
  Type_ : V -> string;
  Hash : V -> option Z;
  Equal : V -> V -> bool;
  isList : V -> bool;
  isDict : V -> bool
}.

(** A fragment of the host's values: [None], booleans, integers, strings,
    lists, tuples, dicts (their items in insertion order) and functions
    (by name). *)

#[warnings="-register-all"]
Inductive Value : Type :=
| VNone
| VBool (b : bool)
| VInt (z : Z)
| VString (s : string)
| VList (l : list Value)
| VTuple (l : list Value)
| VDict (items : list (Value * Value))
| VFunction (name : string).

(** [starlark.Equal] on this fragment: structural, and dicts are compared
    as mappings. *)
Fixpoint Value_eqb (x y : Value) {struct x} : bool :=
  let fix list_eqb (l1 l2 : list Value) {struct l1} : bool :=
    match l1, l2 with
    | [], [] => true
    | a :: l1', b :: l2' => Value_eqb a b && list_eqb l1' l2'
    | _, _ => false
    end in
  match x, y with
  | VNone, VNone => true
  | VBool a, VBool b => Bool.eqb a b
  | VInt a, VInt b => (a =? b)%Z
  | VString a, VString b => String.eqb a b
  | VList l1, VList l2 => list_eqb l1 l2
  | VTuple l1, VTuple l2 => list_eqb l1 l2
  | VDict i1, VDict i2 =>
      (length i1 =? length i2)%nat
      && (fix items_eqb (l : list (Value * Value)) : bool :=
            match l with
            | [] => true
            | (k, v) :: l' =>
                (fix lookup (l2 : list (Value * Value)) : bool :=
                   match l2 with
                   | [] => false
                   | (k2, v2) :: l2' => if Value_eqb k k2 then Value_eqb v v2 else lookup l2'
                   end) i2
                && items_eqb l'
            end) i1
  | VFunction a, VFunction b => String.eqb a b
  | _, _ => false
  end.

Definition Value_Type (v : Value) : string :=
  match v with
  | VNone => "NoneType"
  | VBool _ => "bool"
  | VInt _ => "int"
  | VString _ => "string"
  | VList _ => "list"
  | VTuple _ => "tuple"
  | VDict _ => "dict"
  | VFunction _ => "function"
  end.

(** The host's hash and string form of a value are parameters. *)
Definition Value_host (hash : Value -> option Z) (repr : Value -> string)
  : HostValue Value :=
  {| String_ := repr;
     Type_ := Value_Type;
     Hash := hash;
     Equal := Value_eqb;
     isList v := match v with VList _ => true | _ => false end;
     isDict v := match v with VDict _ => true | _ => false end |}.

(** Integers as host values: hashable, of type [int], equal when they are
    the same number. *)
Definition Int_host (repr : Z -> string) : HostValue Z :=
  {| String_ := repr;
     Type_ := fun _ => "int";
     Hash := fun z => Some (z mod 2 ^ 32)%Z;
     Equal := Z.eqb;
     isList := fun _ => false;
     isDict := fun _ => false |}.

(** ** [types.Depset] *)

Module Depset.

(** Go's [range] over a string yields its runes: the UTF-8 decoding of
    the bytes, with U+FFFD for every byte that starts no valid encoding. *)

Definition byte_of (c : ascii) : Z := Z.of_N (N_of_ascii c).

Definition between (lo hi b : Z) : bool := (lo <=? b)%Z && (b <=? hi)%Z.

Definition RuneError : Z := 65533.

Definition decode_rune (l : list Z) : Z * nat :=
  match l with
  | [] => (RuneError, 1)
  | b0 :: l1 =>
      if (b0 <? 128)%Z then (b0, 1)
      else if between 194 223 b0 then
        match l1 with
        | b1 :: _ =>
            if between 128 191 b1
            then (Z.lor (Z.shiftl (Z.land b0 31) 6) (Z.land b1 63), 2)
            else (RuneError, 1)
        | _ => (RuneError, 1)
        end
      else if between 224 239 b0 then
        match l1 with
        | b1 :: b2 :: _ =>
            let lo := if (b0 =? 224)%Z then 160%Z else 128%Z in
            let hi := if (b0 =? 237)%Z then 159%Z else 191%Z in
            if between lo hi b1 && between 128 191 b2
            then (Z.lor (Z.shiftl (Z.land b0 15) 12)
                    (Z.lor (Z.shiftl (Z.land b1 63) 6) (Z.land b2 63)), 3)
            else (RuneError, 1)
        | _ => (RuneError, 1)
        end
      else if between 240 244 b0 then
        match l1 with
        | b1 :: b2 :: b3 :: _ =>
            let lo := if (b0 =? 240)%Z then 144%Z else 128%Z in
            let hi := if (b0 =? 244)%Z then 143%Z else 191%Z in
            if between lo hi b1 && between 128 191 b2 && between 128 191 b3
            then (Z.lor (Z.shiftl (Z.land b0 7) 18)
                    (Z.lor (Z.shiftl (Z.land b1 63) 12)
                       (Z.lor (Z.shiftl (Z.land b2 63) 6) (Z.land b3 63))), 4)
            else (RuneError, 1)
        | _ => (RuneError, 1)
        end
      else (RuneError, 1)
  end.

Fixpoint runes_aux (fuel : nat) (l : list Z) : list Z :=
  match fuel, l with
  | O, _ => []
  | _, [] => []
  | S fuel', _ :: _ =>
      let '(r, n) := decode_rune l in r :: runes_aux fuel' (drop n l)
  end.

Definition runes (s : string) : list Z :=
  let l := map byte_of (list_ascii_of_string s) in runes_aux (length l) l.

(** [hashString]: [h = h*31 + uint32(c)] over the runes, in [uint32]. *)
Definition hashString (s : string) : Z :=
  fold_left (fun h c => ((h * 31 + c) mod 2 ^ 32)%Z) (runes s) 0%Z.

Inductive Order : Type :=
| OrderDefault
| OrderPostorder
| OrderPreorder
| OrderTopological.

#[global] Instance Order_eq_dec : EqDecision Order.
Proof. solve_decision. Defined.

Definition Order_String (o : Order) : string :=
  match o with
  | OrderDefault => "default"
  | OrderPostorder => "postorder"
  | OrderPreorder => "preorder"
  | OrderTopological => "topological"
  end.

Inductive error : Type :=
| ErrInvalidOrder (s : string)
| ErrForbiddenItem (ty : string)
| ErrItemType (item set : string)
| ErrOrderIncompatible (o other : Order).

Definition Error (e : error) : string :=
  match e with
  | ErrInvalidOrder s => "Invalid order: " +:+ s
  | ErrForbiddenItem ty => "depsets cannot contain items of type '" +:+ ty +:+ "'"
  | ErrItemType item set =>
      "cannot add an item of type '" +:+ item +:+ "' to a depset of '" +:+ set +:+ "'"
  | ErrOrderIncompatible o other =>
      "Order '" +:+ Order_String o +:+ "' is incompatible with order '"
      +:+ Order_String other +:+ "'"
  end.

Definition ParseOrder (s : string) : result error Order :=
  if String.eqb s "default" then Ok OrderDefault
  else if String.eqb s "postorder" then Ok OrderPostorder
  else if String.eqb s "preorder" then Ok OrderPreorder
  else if String.eqb s "topological" then Ok OrderTopological
  else Err (ErrInvalidOrder s).

(** [Order.IsCompatible] *)
Definition IsCompatible (o other : Order) : bool :=
  bool_decide (o = other) || bool_decide (o = OrderDefault)
  || bool_decide (other = OrderDefault).

Section WithValues.
Context {V : Type} `{HostValue V}.

#[warnings="-register-all"]
Inductive Depset : Type :=
| mkDepset (order : Order) (direct : list V) (transitive : list Depset)
    (elemType : string).

Definition order (d : Depset) : Order :=
  match d with mkDepset o _ _ _ => o end.
Definition direct (d : Depset) : list V :=
  match d with mkDepset _ l _ _ => l end.
Definition transitive (d : Depset) : list Depset :=
  match d with mkDepset _ _ ts _ => ts end.
Definition elemType (d : Depset) : string :=
  match d with mkDepset _ _ _ ty => ty end.

(** [Depset.isEmpty] *)
Fixpoint isEmpty (d : Depset) : bool :=
  match d with
  | mkDepset _ direct transitive _ =>
      match direct with
      | _ :: _ => false
      | [] => forallb isEmpty transitive
      end
  end.

(** [Depset.checkAndSetType]: the element type of the depset under
    construction is threaded through. *)
Definition checkAndSetType (ty : string) (elem : V) : result error string :=
  if isList elem then Err (ErrForbiddenItem "list")
  else if isDict elem then Err (ErrForbiddenItem "dict")
  else
    let elemTy := Type_ elem in
    if String.eqb ty "" then Ok elemTy
    else if negb (String.eqb ty elemTy) then Err (ErrItemType elemTy ty)
    else Ok ty.

(** The body of the loop of [NewDepset] over the transitive sets. *)
Definition checkTransitive (o : Order) (ty : string) (t : Depset)
  : result error string :=
  if negb (isEmpty t) then
    if negb (IsCompatible o (order t)) then Err (ErrOrderIncompatible o (order t))
    else if String.eqb ty "" then Ok (elemType t)
    else if negb (String.eqb (elemType t) "") && negb (String.eqb ty (elemType t))
         then Err (ErrItemType (elemType t) ty)
    else Ok ty
  else Ok ty.

(** [NewDepset] *)
Definition NewDepset (o : Order) (direct : list V) (transitive : list Depset)
  : result error Depset :=
  ty ← foldM checkAndSetType direct "";
  ty ← foldM (checkTransitive o) transitive ty;
  Ok (mkDepset o direct transitive ty).

(** The traversal state of [ToList] is the [seen] map, from a hash to the
    values kept under it, and the [result] slice. *)

Definition bucket (seen : gmap Z (list V)) (h : Z) : list V := default [] (seen !! h).

(** The hash that indexes [seen]: the value's own, or that of its string
    form when the value is unhashable. *)
Definition seenKey (elem : V) : Z :=
  match Hash elem with
  | Some h => h
  | None => hashString (String_ elem)
  end.

(** [Depset.alreadySeen] *)
Definition alreadySeen (seen : gmap Z (list V)) (elem : V) : bool * gmap Z (list V) :=
  let h := seenKey elem in
  if existsb (fun v => Equal v elem) (bucket seen h) then (true, seen)
  else (false, <[h := bucket seen h ++ [elem]]> seen).

(** [Depset.addDirect] *)
Definition addDirect (d : Depset) (st : gmap Z (list V) * list V) : gmap Z (list V) * list V :=
  fold_left
    (fun st elem =>
       let '(seen, result) := st in
       let '(dup, seen') := alreadySeen seen elem in
       if dup then (seen', result) else (seen', result ++ [elem]))
    (direct d) st.

(** [Depset.walk], with the loop of [addTransitive] over the children *)
Fixpoint walk (o : Order) (d : Depset) (st : gmap Z (list V) * list V) {struct d}
  : gmap Z (list V) * list V :=
  match d with
  | mkDepset _ _ ts _ =>
      let addTransitive st := fold_left (fun st t => walk o t st) ts st in
      if bool_decide (o = OrderPreorder)
      then addTransitive (addDirect d st)
      else addDirect d (addTransitive st)
  end.

(** [Depset.addTransitive] *)
Definition addTransitive (o : Order) (d : Depset) (st : gmap Z (list V) * list V)
  : gmap Z (list V) * list V :=
  fold_left (fun st t => walk o t st) (transitive d) st.

(** [Depset.ToList] *)
Definition ToList (d : Depset) : list V :=
  let '(_, result) := walk (order d) d (∅, []) in
  if bool_decide (order d = OrderTopological) then rev result else result.

(** [DepsetUnion] *)
Definition DepsetUnion (a b : Depset) : result error Depset :=
  let o := if bool_decide (order a = OrderDefault) then order b else order a in
  NewDepset o [] [a; b].

(** [Depset.Truth] *)
Definition Truth (d : Depset) : bool := negb (isEmpty d).

(** [DepsetOf] *)
Definition DepsetOf (items : list V) : result error Depset :=
  NewDepset OrderDefault items [].


(** *** The flattening that [ToList] computes, as a function of the visit
        sequence

    The visit sequence before deduplication, and the deduplication of the
    code, in which the first appearance wins: an element is dropped when
    an element kept earlier has the same key in [seen] (its own hash, or
    that of its string form for an unhashable element) and is equal to
    it. *)

Fixpoint visit (o : Order) (d : Depset) : list V :=
  match d with
  | mkDepset _ ds ts _ =>
      match o with
      | OrderPreorder => ds ++ flat_map (visit o) ts
      | OrderPostorder | OrderDefault | OrderTopological =>
          flat_map (visit o) ts ++ ds
      end
  end.

Definition duplicate_of (kept : list V) (x : V) : bool :=
  existsb (fun v => (seenKey v =? seenKey x)%Z && Equal v x) kept.

Fixpoint keep_first (kept : list V) (l : list V) : list V :=
  match l with
  | [] => []
  | x :: l' =>
      if duplicate_of kept x then keep_first kept l'
      else x :: keep_first (kept ++ [x]) l'
  end.

Definition flatten (d : Depset) : list V :=
  match order d with
  | OrderTopological => rev (keep_first [] (visit OrderPostorder d))
  | o => keep_first [] (visit o d)
  end.

(** Deduplication by equality alone, "with duplicates removed" as the
    documentation of [ToList] has it: an element is dropped when any
    earlier element of the sequence is equal to it. *)
Fixpoint first_occurrences (before : list V) (l : list V) : list V :=
  match l with
  | [] => []
  | x :: l' =>
      if existsb (fun v => Equal v x) before
      then first_occurrences (before ++ [x]) l'
      else x :: first_occurrences (before ++ [x]) l'
  end.


(** *** Auxiliary notions of the proofs *)

(** The [seen] map holds, under every hash, the kept elements with that
    hash, in the order in which they were kept. *)
Definition seen_repr (seen : gmap Z (list V)) (kept : list V) : Prop :=
  forall h, bucket seen h = filter (fun v => seenKey v = h) kept.

(** A non-empty child whose order is incompatible with [o]. *)
Definition clashes (o : Order) (t : Depset) : Prop :=
  isEmpty t = false /\ IsCompatible o (order t) = false.

(** A value that is neither a list nor a dict. *)
Definition plain (x : V) : Prop := isList x = false /\ isDict x = false.

(** A depset that [NewDepset] returned, from children that it returned:
    the depsets that the programs build. *)
Fixpoint constructed (d : Depset) : Prop :=
  match d with
  | mkDepset o ds ts ty =>
      NewDepset o ds ts = Ok (mkDepset o ds ts ty)
      /\ (fix all (l : list Depset) : Prop :=
            match l with
            | [] => True
            | t :: l' => constructed t /\ all l'
            end) ts
  end.

(** Induction over a depset and, through [Forall], over its children. *)
Section NestedInduction.
Variable P : Depset -> Prop.
Hypothesis Hmk : forall o ds ts ty, Forall P ts -> P (mkDepset o ds ts ty).

Fixpoint Depset_nested_ind (d : Depset) : P d :=
  match d with
  | mkDepset o ds ts ty =>
      Hmk o ds ts ty
        ((fix children (l : list (Depset)) : Forall P l :=
            match l with
            | [] => List.Forall_nil P
            | t :: l' => List.Forall_cons P t l' (Depset_nested_ind t) (children l')
            end) ts)
  end.
End NestedInduction.

End WithValues.
Arguments Depset V : clear implicits.

End Depset.


(** ** [types.Provider] and [types.ProviderInstance] *)

Module Provider.
Import GoStrings.

Record Provider : Type := mkProvider {
  name : string;
  fields : list string;
  doc : string;
  init : option Value;      (* the [init] callable, or nil *)
  frozen : bool
}.

Record ProviderInstance : Type := mkProviderInstance {
  provider : Provider;
  values : gmap string Value;
  instance_frozen : bool
}.

(** [NewProvider] *)
Definition NewProvider (name : string) (fields : list string) (doc : string)
    (init : option Value) : Provider :=
  mkProvider name fields doc init false.

(** [NewProviderInstance] *)
Definition NewProviderInstance (p : Provider) (values : gmap string Value)
  : ProviderInstance :=
  mkProviderInstance p values false.

(** [Provider.Freeze] *)
Definition Freeze (p : Provider) : Provider :=
  mkProvider (name p) (fields p) (doc p) (init p) true.

Inductive error : Type :=
| ErrHost (msg : string)                  (* the error of the [init] call *)
| ErrInitNotDict (pname ty : string)      (* %s: init must return a dict, got %s *)
| ErrInitKey (pname ty : string)          (* %s: init returned dict with non-string key: %s *)
| ErrUnexpectedField (pname key : string) (* %s: unexpected field %q *)
| ErrPositional (pname : string).         (* %s: unexpected positional arguments *)

Definition Error (e : error) : string :=
  match e with
  | ErrHost msg => msg
  | ErrInitNotDict pname ty => pname +:+ ": init must return a dict, got " +:+ ty
  | ErrInitKey pname ty =>
      pname +:+ ": init returned dict with non-string key: " +:+ ty
  | ErrUnexpectedField pname key => pname +:+ ": unexpected field " +:+ quote key
  | ErrPositional pname => pname +:+ ": unexpected positional arguments"
  end.

(** [slices.Contains] *)
Definition Contains (l : list string) (x : string) : bool :=
  existsb (String.eqb x) l.

(** The field check shared by the construction paths:
    [len(fields) > 0 && !slices.Contains(fields, key)]. *)
Definition unexpected (fields : list string) (key : string) : bool :=
  (0 <? length fields)%nat && negb (Contains fields key).

(** The body of the loops over the keyword arguments. *)
Definition insert_checked (F : list string) (pname : string)
    (values : gmap string Value) (kv : string * Value)
  : result error (gmap string Value) :=
  if unexpected F kv.1 then Err (ErrUnexpectedField pname kv.1)
  else Ok (<[kv.1 := kv.2]> values).

(** The values that the loop builds when no key is rejected. *)
Definition insert_all (kwargs : list (string * Value)) (m : gmap string Value)
  : gmap string Value :=
  fold_left (fun values kv => <[kv.1 := kv.2]> values) kwargs m.

Section WithHost.
(** [starlark.Call] of the host: a callable value applied to positional and
    keyword arguments. *)
Variable Call : Value -> list Value -> list (string * Value) -> result string Value.

(** [Provider.CallInternal] *)
Definition CallInternal (p : Provider) (args : list Value)
    (kwargs : list (string * Value)) : result error ProviderInstance :=
  match init p with
  | Some f =>
      match Call f args kwargs with
      | Err msg => Err (ErrHost msg)
      | Ok (VDict items) =>
          values ← foldM
            (fun (values : gmap string Value) (item : Value * Value) =>
               match item.1 with
               | VString keyStr =>
                   if unexpected (fields p) keyStr
                   then Err (ErrUnexpectedField (name p) keyStr)
                   else Ok (<[keyStr := item.2]> values)
               | k => Err (ErrInitKey (name p) (Value_Type k))
               end)
            items ∅;
          Ok (mkProviderInstance p values false)
      | Ok result => Err (ErrInitNotDict (name p) (Value_Type result))
      end
  | None =>
      if (0 <? length args)%nat then Err (ErrPositional (name p))
      else
        values ← foldM
          (fun (values : gmap string Value) (kv : string * Value) =>
             if unexpected (fields p) kv.1
             then Err (ErrUnexpectedField (name p) kv.1)
             else Ok (<[kv.1 := kv.2]> values))
          kwargs ∅;
        Ok (mkProviderInstance p values false)
  end.

End WithHost.

End Provider.

(** ** Package [builtins]: the [provider] builtin and the raw constructor *)

Module Builtins.
Import GoStrings.

Record rawProviderConstructor : Type := mkRaw {
  provider : Provider.Provider
}.

(** The host values that a [provider] builtin returns. *)
#[warnings="-register-all"]
Inductive Object : Type :=
| ObjProvider (p : Provider.Provider)
| ObjRawConstructor (r : rawProviderConstructor)
| ObjTuple (l : list Object).

Inductive error : Type :=
| ErrDoc (ty : string)          (* provider: doc must be a string, got %s *)
| ErrFieldsList (ty : string)   (* provider: fields list must contain strings, got %s *)
| ErrFieldsTuple (ty : string)  (* provider: fields tuple must contain strings, got %s *)
| ErrFieldsDictKey (ty : string)
| ErrFieldsDictValue (ty : string)
| ErrFields (ty : string)       (* provider: fields must be a list or dict, got %s *)
| ErrInit (ty : string).        (* provider: init must be callable, got %s *)

(** The strings of a sequence, or the type of the first other element. *)
Definition strings_of (l : list Value) : result string (list string) :=
  foldM (fun acc x =>
           match x with
           | VString s => Ok (acc ++ [s])
           | _ => Err (Value_Type x)
           end) l [].

(** [Provider], the builtin of package [builtins], after the binding of its
    arguments: an argument that is not supplied is [None]. *)
Definition Provider (doc fields init : Value) : result error Object :=
  docStr ← match doc with
           | VNone => Ok ""
           | VString s => Ok s
           | _ => Err (ErrDoc (Value_Type doc))
           end;
  fieldList ← match fields with
              | VNone => Ok []
              | VList l =>
                  match strings_of l with
                  | Ok names => Ok names
                  | Err ty => Err (ErrFieldsList ty)
                  end
              | VTuple l =>
                  match strings_of l with
                  | Ok names => Ok names
                  | Err ty => Err (ErrFieldsTuple ty)
                  end
              | VDict items =>
                  foldM (fun acc (item : Value * Value) =>
                           match item.1 with
                           | VString key =>
                               match item.2 with
                               | VString _ => Ok (acc ++ [key])
                               | v => Err (ErrFieldsDictValue (Value_Type v))
                               end
                           | k => Err (ErrFieldsDictKey (Value_Type k))
                           end) items []
              | _ => Err (ErrFields (Value_Type fields))
              end;
  initFn ← match init with
           | VNone => Ok None
           | VFunction _ => Ok (Some init)
           | _ => Err (ErrInit (Value_Type init))
           end;
  let provider := Provider.NewProvider "" fieldList docStr initFn in
  match initFn with
  | Some _ => Ok (ObjTuple [ObjProvider provider; ObjRawConstructor (mkRaw provider)])
  | None => Ok (ObjProvider provider)
  end.

(** [rawProviderConstructor.CallInternal] *)
Definition CallInternal (r : rawProviderConstructor) (args : list Value)
    (kwargs : list (string * Value))
  : result Provider.error Provider.ProviderInstance :=
  if (0 <? length args)%nat
  then Err (Provider.ErrPositional (Provider.name (provider r)))
  else
    let fields := Provider.fields (provider r) in
    values ← foldM
      (fun (values : gmap string Value) (kv : string * Value) =>
         if Provider.unexpected fields kv.1
         then Err (Provider.ErrUnexpectedField (Provider.name (provider r)) kv.1)
         else Ok (<[kv.1 := kv.2]> values))
      kwargs ∅;
    Ok (Provider.NewProviderInstance (provider r) values).

End Builtins.


(** ** [types.RuleClass] and [types.RuleInstance] *)

Module RuleClass.
Import GoStrings.

(** [AttrType] is a string type in the source. *)
Definition AttrType : Type := string.

Record AttrDescriptor : Type := mkAttr {
  Name : string;
  Typ : AttrType;           (* the field [Type] *)
  Default : option Value;   (* nil when there is no default *)
  Mandatory : bool
}.

Record RuleClass : Type := mkRuleClass {
  name : string;
  exported : bool;
  attrs : gmap string AttrDescriptor;
  executable : bool;
  test : bool;
  frozen : bool
}.

Record RuleInstance : Type := mkRuleInstance {
  ruleClass : RuleClass;
  instance_name : string;
  attrValues : gmap string Value
}.

Definition add_if_absent (d : AttrDescriptor) (m : gmap string AttrDescriptor)
  : gmap string AttrDescriptor :=
  match m !! Name d with
  | Some _ => m
  | None => <[Name d := d]> m
  end.

(** [addTestAttributes] *)
Definition addTestAttributes (m : gmap string AttrDescriptor)
  : gmap string AttrDescriptor :=
  add_if_absent (mkAttr "args" "string_list" (Some (VList [])) false)
    (add_if_absent (mkAttr "local" "bool" (Some (VBool false)) false)
       (add_if_absent (mkAttr "shard_count" "int" (Some (VInt (-1))) false)
          (add_if_absent (mkAttr "flaky" "bool" (Some (VBool false)) false)
             (add_if_absent (mkAttr "timeout" "string" (Some VNone) false)
                (add_if_absent
                   (mkAttr "size" "string" (Some (VString "medium")) false) m))))).

(** [addExecutableAttributes] *)
Definition addExecutableAttributes (m : gmap string AttrDescriptor)
  : gmap string AttrDescriptor :=
  add_if_absent (mkAttr "output_licenses" "string_list" (Some (VList [])) false)
    (add_if_absent (mkAttr "args" "string_list" (Some (VList [])) false) m).

(** [addImplicitAttributes] *)
Definition addImplicitAttributes (executable test : bool)
    (m : gmap string AttrDescriptor) : gmap string AttrDescriptor :=
  let m :=
    add_if_absent (mkAttr "features" "string_list" (Some (VList [])) false)
      (add_if_absent (mkAttr "deprecation" "string" (Some VNone) false)
         (add_if_absent (mkAttr "testonly" "bool" (Some (VBool false)) false)
            (add_if_absent (mkAttr "tags" "string_list" (Some (VList [])) false)
               (add_if_absent (mkAttr "visibility" "label_list" (Some VNone) false)
                  (add_if_absent (mkAttr "name" "string" None true) m))))) in
  let m := if test then addTestAttributes m else m in
  if executable && negb test then addExecutableAttributes m else m.

(** [NewRuleClass], with the options [WithExecutable] and [WithTest] *)
Definition NewRuleClass (name : string) (attrs : gmap string AttrDescriptor)
    (executable test : bool) : RuleClass :=
  mkRuleClass name false (addImplicitAttributes executable test attrs)
    executable test false.

(** [RuleClass.SetName] *)
Definition SetName (rc : RuleClass) (name : string) : RuleClass :=
  mkRuleClass name true (attrs rc) (executable rc) (test rc) (frozen rc).

(** [RuleClass.Freeze] *)
Definition Freeze (rc : RuleClass) : RuleClass :=
  mkRuleClass (name rc) (exported rc) (attrs rc) (executable rc) (test rc) true.

(** [RuleClass.IsExported] *)
Definition IsExported (rc : RuleClass) : bool := exported rc.

(** The panic of the type assertion [item[0].(starlark.String)] in
    [RuleBuiltin], on a key of [attrs] that is no string. *)
Inductive builtin_panic : Type :=
| PanicNotString (got : string).

(** [RuleBuiltin], the [rule] of the predeclared environment, after
    [starlark.UnpackArgs] has stored the arguments: [attrs] is [None] when
    the argument is absent (the dict is nil) and holds the items of the
    dict otherwise. Every attribute of the dict gets a descriptor of type
    [string]. The arguments other than [test], [attrs] and [executable] go
    to fields of the rule class that this development does not carry. The
    rule class is created with the empty name: "name will be set when
    exported". *)
Definition RuleBuiltin (test : bool) (attrs : option (list (Value * Value)))
    (executable : bool) : result builtin_panic RuleClass :=
  match
    match attrs with
    | None => Ok ∅
    | Some items =>
        foldM
          (fun (attrMap : gmap string AttrDescriptor) (item : Value * Value) =>
             match item.1 with
             | VString name => Ok (<[name := mkAttr name "string" None false]> attrMap)
             | k => Err (PanicNotString (Value_Type k))
             end)
          items ∅
    end
  with
  | Ok attrMap => Ok (NewRuleClass "" attrMap executable test)
  | Err e => Err e
  end.

Inductive error : Type :=
| ErrPositional (rname : string)          (* %s: unexpected positional arguments *)
| ErrNotExported                          (* rule has not been exported by a bzl file *)
| ErrUnexpectedAttr (rname key : string)  (* %s: unexpected attribute %q *)
| ErrAttrValue (rname key msg : string)   (* %s: attribute %q: %v *)
| ErrMissingMandatory (rname attr : string)
| ErrMissingName (rname : string)
| ErrNameType (rname ty : string).

Definition Error (e : error) : string :=
  match e with
  | ErrPositional rname => rname +:+ ": unexpected positional arguments"
  | ErrNotExported => "rule has not been exported by a bzl file"
  | ErrUnexpectedAttr rname key => rname +:+ ": unexpected attribute " +:+ quote key
  | ErrAttrValue rname key msg =>
      rname +:+ ": attribute " +:+ quote key +:+ ": " +:+ msg
  | ErrMissingMandatory rname attr =>
      rname +:+ ": missing mandatory attribute " +:+ quote attr
  | ErrMissingName rname => rname +:+ ": missing mandatory attribute 'name'"
  | ErrNameType rname ty =>
      rname +:+ ": attribute 'name' must be a string, got " +:+ ty
  end.

(** [validateAttrValue]: the message of the error, if any. Label objects
    are outside the fragment of values. *)
Definition validateAttrValue (attr : AttrDescriptor) (value : Value)
  : option string :=
  match value with
  | VNone =>
      if Mandatory attr then Some "mandatory attribute cannot be None" else None
  | _ =>
      let ty := Typ attr in
      if String.eqb ty "string" then
        match value with
        | VString _ => None
        | _ => Some ("expected string, got " +:+ Value_Type value)
        end
      else if String.eqb ty "int" then
        match value with
        | VInt _ => None
        | _ => Some ("expected int, got " +:+ Value_Type value)
        end
      else if String.eqb ty "bool" then
        match value with
        | VBool _ => None
        | _ => Some ("expected bool, got " +:+ Value_Type value)
        end
      else if String.eqb ty "label" then
        match value with
        | VString _ => None
        | _ => Some ("expected label (string or Label), got " +:+ Value_Type value)
        end
      else if String.eqb ty "label_list" || String.eqb ty "string_list"
              || String.eqb ty "output_list" then
        match value with
        | VList _ | VTuple _ => None
        | _ => Some ("expected list, got " +:+ Value_Type value)
        end
      else if String.eqb ty "string_dict" then
        match value with
        | VDict _ => None
        | _ => Some ("expected dict, got " +:+ Value_Type value)
        end
      else if String.eqb ty "output" then
        match value with
        | VString _ => None
        | _ => Some ("expected string (output name), got " +:+ Value_Type value)
        end
      else None
  end.

(** [RuleClass.CallInternal]. The loop over the attributes of the class
    follows the order of [map_to_list]; Go leaves the order of a map
    unspecified, and only the choice of the reported missing attribute
    depends on it. *)
Definition CallInternal (rc : RuleClass) (args : list Value)
    (kwargs : list (string * Value)) : result error RuleInstance :=
  if (0 <? length args)%nat then Err (ErrPositional (name rc))
  else if negb (exported rc) then Err ErrNotExported
  else
    match
      foldM
        (fun (st : gmap string Value * gset string) (kv : string * Value) =>
           match attrs rc !! kv.1 with
           | None => Err (ErrUnexpectedAttr (name rc) kv.1)
           | Some attr =>
               match validateAttrValue attr kv.2 with
               | Some msg => Err (ErrAttrValue (name rc) kv.1 msg)
               | None => Ok (<[kv.1 := kv.2]> st.1, {[kv.1]} ∪ st.2)
               end
           end)
        kwargs ((∅ : gmap string Value), (∅ : gset string))
    with
    | Err e => Err e
    | Ok (provided, providedAttrs) =>
        match
          foldM
            (fun (attrValues : gmap string Value) (na : string * AttrDescriptor) =>
               if bool_decide (na.1 ∈ providedAttrs) then Ok attrValues
               else if Mandatory na.2 then Err (ErrMissingMandatory (name rc) na.1)
               else match Default na.2 with
                    | Some d => Ok (<[na.1 := d]> attrValues)
                    | None => Ok attrValues
                    end)
            (map_to_list (attrs rc)) provided
        with
        | Err e => Err e
        | Ok attrValues =>
            match attrValues !! "name" with
            | None => Err (ErrMissingName (name rc))
            | Some (VString nameStr) => Ok (mkRuleInstance rc nameStr attrValues)
            | Some v => Err (ErrNameType (name rc) (Value_Type v))
            end
        end
    end.

(** The bodies of the two loops of [CallInternal]: over the keyword
    arguments, and over the attributes of the class. *)
Definition accept_kwarg (rc : RuleClass) (st : gmap string Value * gset string)
    (kv : string * Value) : result error (gmap string Value * gset string) :=
  match attrs rc !! kv.1 with
  | None => Err (ErrUnexpectedAttr (name rc) kv.1)
  | Some attr =>
      match validateAttrValue attr kv.2 with
      | Some msg => Err (ErrAttrValue (name rc) kv.1 msg)
      | None => Ok (<[kv.1 := kv.2]> st.1, {[kv.1]} ∪ st.2)
      end
  end.

Definition apply_default (rc : RuleClass) (providedAttrs : gset string)
    (attrValues : gmap string Value) (na : string * AttrDescriptor)
  : result error (gmap string Value) :=
  if bool_decide (na.1 ∈ providedAttrs) then Ok attrValues
  else if Mandatory na.2 then Err (ErrMissingMandatory (name rc) na.1)
  else match Default na.2 with
       | Some d => Ok (<[na.1 := d]> attrValues)
       | None => Ok attrValues
       end.

(** A keyword argument that the first loop accepts: it names an attribute
    of the class and its value passes [validateAttrValue]. *)
Definition accepted (rc : RuleClass) (kv : string * Value) : Prop :=
  exists attr, attrs rc !! kv.1 = Some attr /\ validateAttrValue attr kv.2 = None.

(** A rule class as a [.bzl] file defines it: one declared attribute, and
    the name under which it is exported. *)
Definition example_rule : RuleClass :=
  SetName
    (NewRuleClass ""
       {["srcs" := mkAttr "srcs" "label_list" (Some (VList [])) false]}
       false false)
    "my_rule".

(** The attributes that every rule class has, and those of the test and
    of the executable rules. *)
Definition common_attributes : list string :=
  ["name"; "visibility"; "tags"; "testonly"; "deprecation"; "features"].
Definition test_attributes : list string :=
  ["size"; "timeout"; "flaky"; "shard_count"; "local"; "args"].
Definition executable_attributes : list string := ["args"; "output_licenses"].

End RuleClass.

(** ** [types.RuleInstance]: the methods on a target *)

Module RuleInstance.
Import GoStrings RuleClass.

(** [RuleInstance.GetAttrValue] *)
Definition GetAttrValue (ri : RuleInstance) (name : string) : option Value :=
  attrValues ri !! name.

Inductive error : Type :=
| ErrMissingMandatory (attr : string)   (* missing mandatory attribute %q *)
| ErrAttribute (attr msg : string).     (* attribute %q: %v *)

Definition Error (e : error) : string :=
  match e with
  | ErrMissingMandatory attr => "missing mandatory attribute " +:+ quote attr
  | ErrAttribute attr msg => "attribute " +:+ quote attr +:+ ": " +:+ msg
  end.

(** The body of the loop of [Validate] over the attributes of the class. *)
Definition validate_attr (ri : RuleInstance) (na : string * AttrDescriptor)
  : option error :=
  let v := attrValues ri !! na.1 in
  if Mandatory na.2
     && match v with None | Some VNone => true | Some _ => false end
  then Some (ErrMissingMandatory na.1)
  else
    match v with
    | None | Some VNone => None
    | Some x =>
        match validateAttrValue na.2 x with
        | Some msg => Some (ErrAttribute na.1 msg)
        | None => None
        end
    end.

(** [RuleInstance.Validate]: the first error, if any. The loop follows
    the order of [map_to_list], which decides only which error is
    reported. *)
Definition Validate (ri : RuleInstance) : option error :=
  match
    foldM (fun (_ : unit) na =>
             match validate_attr ri na with
             | Some e => Err e
             | None => Ok tt
             end)
      (map_to_list (attrs (ruleClass ri))) tt
  with
  | Err e => Some e
  | Ok _ => None
  end.

End RuleInstance.

(** ** Package [eval]: packages, target registration, the [provider] builtin *)

Module Eval.
Import GoStrings.

Record Package : Type := mkPackage {
  Name : string;
  Root : string;
  BuildFile : string;
  Targets : gmap string RuleClass.RuleInstance
}.

Inductive error : Type :=
| ErrDuplicateInPackage (name pkg : string)  (* duplicate target name %q in package %q *)
| ErrDuplicate (name : string)               (* duplicate target name %q *)
| ErrNoRegistry.                             (* no target registry in thread *)

Definition Error (e : error) : string :=
  match e with
  | ErrDuplicateInPackage name pkg =>
      "duplicate target name " +:+ quote name +:+ " in package " +:+ quote pkg
  | ErrDuplicate name => "duplicate target name " +:+ quote name
  | ErrNoRegistry => "no target registry in thread"
  end.

(** [Package.AddTarget]: the error, if any, and the package afterwards. *)
Definition AddTarget (p : Package) (name : string)
    (target : RuleClass.RuleInstance) : option error * Package :=
  match Targets p !! name with
  | Some _ => (Some (ErrDuplicateInPackage name (Name p)), p)
  | None =>
      (None, mkPackage (Name p) (Root p) (BuildFile p) (<[name := target]> (Targets p)))
  end.

(** [Package.GetTarget]: the target, or nil *)
Definition GetTarget (p : Package) (name : string)
  : option RuleClass.RuleInstance :=
  Targets p !! name.

(** The thread locals that hold the target registries. *)
Record Thread : Type := mkThread {
  package : option Package;                                  (* ThreadKeyPackage *)
  targets : option (gmap string RuleClass.RuleInstance)      (* ThreadKeyTargets *)
}.

(** [RegisterTarget] *)
Definition RegisterTarget (th : Thread) (target : RuleClass.RuleInstance)
  : option error * Thread :=
  let name := RuleClass.instance_name target in
  match package th with
  | Some pkg =>
      let '(e, pkg') := AddTarget pkg name target in
      (e, mkThread (Some pkg') (targets th))
  | None =>
      match targets th with
      | Some ts =>
          match ts !! name with
          | Some _ => (Some (ErrDuplicate name), th)
          | None => (None, mkThread None (Some (<[name := target]> ts)))
          end
      | None => (Some ErrNoRegistry, th)
      end
  end.

(** The registry that [RegisterTarget] uses. *)
Definition registry (th : Thread) : gmap string RuleClass.RuleInstance :=
  match package th with
  | Some pkg => Targets pkg
  | None => default ∅ (targets th)
  end.

(** The calls of [RegisterTarget] of an evaluation, in order; a failing
    call leaves the thread as it was. *)
Definition register_all (th : Thread) (l : list RuleClass.RuleInstance) : Thread :=
  fold_left (fun th t => (RegisterTarget th t).2) l th.

(** The names of the registered targets. *)
Definition target_names (m : gmap string RuleClass.RuleInstance) : list string :=
  map (fun kt : string * RuleClass.RuleInstance => RuleClass.instance_name kt.2)
    (map_to_list m).

(** Every target is registered under its own name. *)
Definition keyed_by_name (m : gmap string RuleClass.RuleInstance) : Prop :=
  forall k t, m !! k = Some t -> RuleClass.instance_name t = k.

Inductive unpack_error : Type :=
| ErrUnpack (param got : string)     (* the error of [starlark.UnpackArgs] *)
| ErrFieldsStrings (ty : string).    (* provider: fields must be strings, got %s *)

(** [providerBuiltin], the [provider] of the predeclared environment of
    [makeBzlPredeclared]. An argument is [None] when it is not supplied;
    [UnpackArgs] rejects a supplied value of another type than the
    variable it is unpacked into, here for the arguments taken in the
    order [doc], [fields], [init]; the loop over the fields runs after
    it. *)
Definition providerBuiltin (doc fields init : option Value)
  : result unpack_error Builtins.Object :=
  docStr ← match doc with
           | None => Ok ""
           | Some (VString s) => Ok s
           | Some v => Err (ErrUnpack "doc" (Value_Type v))
           end;
  fieldsList ← match fields with
               | None => Ok None
               | Some (VList l) => Ok (Some l)
               | Some v => Err (ErrUnpack "fields" (Value_Type v))
               end;
  initFn ← match init with
           | None => Ok None
           | Some (VFunction f) => Ok (Some (VFunction f))
           | Some v => Err (ErrUnpack "init" (Value_Type v))
           end;
  fieldNames ← match fieldsList with
               | None => Ok []
               | Some l =>
                   match Builtins.strings_of l with
                   | Ok names => Ok names
                   | Err ty => Err (ErrFieldsStrings ty)
                   end
               end;
  Ok (Builtins.ObjProvider (Provider.NewProvider "" fieldNames docStr initFn)).

(** [CachedModule] *)
Record CachedModule : Type := mkCached {
  Globals : option (gmap string Value);
  Err_ : option string                      (* the field [Err] *)
}.

Section WithHost.
(** [Evaluator.fileLoader] (nil when none is configured) and the host's
    [ExecFile] on the new thread, with the module as file name: the loads
    of the module go through the same function and may add to the
    cache. *)
Variable fileLoader : option (string -> result string string).
Variable ExecFile :
  string -> string -> gmap string CachedModule ->
  (option (gmap string Value) * option string) * gmap string CachedModule.

(** The function that [Evaluator.makeLoadFunc] returns: the globals and
    the error that it returns, and the cache afterwards. *)
Definition makeLoadFunc (cache : gmap string CachedModule) (module : string)
  : (option (gmap string Value) * option string) * gmap string CachedModule :=
  match cache !! module with
  | Some cached => ((Globals cached, Err_ cached), cache)
  | None =>
      match fileLoader with
      | None =>
          ((None, Some ("no loader configured for module " +:+ quote module)), cache)
      | Some load =>
          match load module with
          | Err err => ((None, Some err), <[module := mkCached None (Some err)]> cache)
          | Ok source =>
              let '((globals, err), c) := ExecFile module source cache in
              ((globals, err), <[module := mkCached globals err]> c)
          end
      end
  end.

End WithHost.

(** *** The evaluation of a [.bzl] file *)

(** The Go functions that the predeclared environments wrap into
    builtins. *)
Inductive GoFunc : Type :=
| types_LabelBuiltin
| eval_providerBuiltin
| starlarkstruct_Make
| types_DepsetBuiltin
| types_RuleBuiltin
| eval_PackageBuiltin
| eval_LicensesBuiltin
| eval_ExportsFilesBuiltin
| eval_GlobBuiltin.

(** The values of a [starlark.StringDict], as far as the evaluator tells
    them apart. *)
Inductive DictValue : Type :=
| NewBuiltin (name : string) (fn : GoFunc)   (* starlark.NewBuiltin(name, fn) *)
| AttrModule                                  (* newAttrModule() *)
| ORuleClass (rc : RuleClass.RuleClass)       (* a *types.RuleClass *)
| OProvider (p : Provider.Provider)           (* a *types.Provider *)
| OValue (v : Value).

(** [makeBzlPredeclared] *)
Definition makeBzlPredeclared : gmap string DictValue :=
  list_to_map
    [("Label", NewBuiltin "Label" types_LabelBuiltin);
     ("provider", NewBuiltin "provider" eval_providerBuiltin);
     ("struct", NewBuiltin "struct" starlarkstruct_Make);
     ("depset", NewBuiltin "depset" types_DepsetBuiltin);
     ("rule", NewBuiltin "rule" types_RuleBuiltin);
     ("attr", AttrModule);
     ("True", OValue (VBool true));
     ("False", OValue (VBool false));
     ("None", OValue VNone)].

(** [makeBuildPredeclared] *)
Definition makeBuildPredeclared : gmap string DictValue :=
  list_to_map
    [("Label", NewBuiltin "Label" types_LabelBuiltin);
     ("struct", NewBuiltin "struct" starlarkstruct_Make);
     ("depset", NewBuiltin "depset" types_DepsetBuiltin);
     ("package", NewBuiltin "package" eval_PackageBuiltin);
     ("licenses", NewBuiltin "licenses" eval_LicensesBuiltin);
     ("exports_files", NewBuiltin "exports_files" eval_ExportsFilesBuiltin);
     ("glob", NewBuiltin "glob" eval_GlobBuiltin);
     ("True", OValue (VBool true));
     ("False", OValue (VBool false));
     ("None", OValue VNone)].

(** [BzlResult] *)
Record BzlResult : Type := mkBzlResult {
  BzlResult_Globals : gmap string DictValue     (* the field [Globals] *)
}.

Section WithInterpreter.
(** The interfaces [loader.BzlLoader] and [loader.Loader]. *)
Context {loader_BzlLoader loader_Loader : Type}.

(** [Options] and [Evaluator]; the print handler is left out, printing
    is not modelled. *)
Record Options : Type := mkOptions {
  BzlLoader : option loader_BzlLoader;
  FileLoader : option loader_Loader;
  PredeclaredBzl : gmap string DictValue;
  PredeclaredBuild : gmap string DictValue
}.

Record Evaluator : Type := mkEvaluator {
  bzlLoader : option loader_BzlLoader;
  fileLoader : option loader_Loader;
  predeclaredBzl : gmap string DictValue;
  predeclaredBuild : gmap string DictValue;
  cache : gmap string CachedModule
}.

(** [New]: the entries of the options replace those of the predeclared
    environments. *)
Definition New (opts : Options) : Evaluator :=
  mkEvaluator (BzlLoader opts) (FileLoader opts)
    (PredeclaredBzl opts ∪ makeBzlPredeclared)
    (PredeclaredBuild opts ∪ makeBuildPredeclared)
    ∅.

(** The [Load] function of a thread: [loader.MakeLoadFunc] of a loader,
    or [Evaluator.makeLoadFunc]. *)
Inductive LoadFunc : Type :=
| LoadOfLoader (l : loader_BzlLoader)
| LoadOfEvaluator.

(** The thread that [EvalBzl] creates: its name, its [Load] function, and
    the locals set by [SetBzlLoader] and [SetCurrentPackage]. *)
Record BzlThread : Type := mkBzlThread {
  thread_Name : string;
  thread_Load : LoadFunc;
  thread_BzlLoader : option loader_BzlLoader;
  thread_CurrentPackage : string
}.

(** [filepath.Dir], and [starlark.ExecFile] of the interpreter: the
    globals of the module (partial in case of error) and the error. *)
Variable Dir : string -> string.
Variable ExecFile :
  BzlThread -> string -> string -> gmap string DictValue ->
  gmap string DictValue * option string.

Definition newThread (e : Evaluator) (path : string) : BzlThread :=
  let dir := Dir path in
  let pkg := TrimPrefix dir "/" in
  let pkg := if String.eqb pkg "." then "" else pkg in
  mkBzlThread path
    (match bzlLoader e with
     | Some l => LoadOfLoader l
     | None => LoadOfEvaluator
     end)
    (bzlLoader e) pkg.

(** [Evaluator.EvalBzl]: the module goes to the interpreter, and the
    globals come back as the interpreter leaves them. *)
Definition EvalBzl (e : Evaluator) (path source : string)
  : result string BzlResult :=
  let '(globals, err) := ExecFile (newThread e path) path source (predeclaredBzl e) in
  match err with
  | Some msg => Err ("evaluating " +:+ path +:+ ": " +:+ msg)
  | None => Ok (mkBzlResult globals)
  end.

End WithInterpreter.

Arguments Options : clear implicits.
Arguments Evaluator : clear implicits.
Arguments BzlThread : clear implicits.

End Eval.


(** ** Package [loader]: [BzlFileLoader] *)

Module Loader.
Import GoStrings.

(** [starlark.StringDict] *)
Abbreviation Globals := (gmap string Value).

Inductive resolve_error : Type :=
| ErrMissingSlashes (module : string)   (* invalid label %q: missing // *)
| ErrMissingColon (s : string)          (* invalid label: missing colon in %q *)
| ErrExtension (file : string)          (* file must have .bzl or .scl extension, got %q *)
| ErrUnknownRepo (repo : string).       (* unknown repository %q *)

Inductive error : Type :=
| ErrLoad (module : string) (e : resolve_error)   (* load(%q): %w *)
| CycleError (Module : string) (Stack : list string)
| ErrReading (path msg : string)                  (* reading %s: %w *)
| ErrExecuting (label msg : string).              (* executing %s: %w *)

Definition resolve_Error (e : resolve_error) : string :=
  match e with
  | ErrMissingSlashes module => "invalid label " +:+ quote module +:+ ": missing //"
  | ErrMissingColon s => "invalid label: missing colon in " +:+ quote s
  | ErrExtension file =>
      "file must have .bzl or .scl extension, got " +:+ quote file
  | ErrUnknownRepo repo => "unknown repository " +:+ quote repo
  end.

(** [error.Error]; for a [CycleError] it is [CycleError.Error]. *)
Definition Error (e : error) : string :=
  match e with
  | ErrLoad module e => "load(" +:+ quote module +:+ "): " +:+ resolve_Error e
  | CycleError _ Stack => "Starlark load cycle: " +:+ fmt_strings Stack
  | ErrReading path msg => "reading " +:+ path +:+ ": " +:+ msg
  | ErrExecuting label msg => "executing " +:+ label +:+ ": " +:+ msg
  end.

(** A cached module, or a module being loaded: [ready] is closed when the
    load completes. *)
Record loadEntry : Type := mkEntry {
  globals : option Globals;
  err : option error;
  ready : bool
}.

Record BzlFileLoader : Type := mkLoader {
  repoRoot : string;
  repoMapping : gmap string string;
  cache : gmap string loadEntry
}.

Definition with_cache (l : BzlFileLoader) (c : gmap string loadEntry)
  : BzlFileLoader :=
  mkLoader (repoRoot l) (repoMapping l) c.

(** The thread locals of the loader. *)
Record Thread : Type := mkThread {
  currentPkg : string;          (* ThreadKeyCurrentPkg *)
  currentRepo : string;         (* ThreadKeyCurrentRepo *)
  loadStack : list string       (* ThreadKeyLoadStack *)
}.

(** What a call of [Load] does: it returns, or it waits for an entry
    that is not ready. *)
Inductive outcome : Type :=
| Returns (r : result error Globals)
| Waits (label : string).

(** [splitPkgTarget] *)
Definition splitPkgTarget (s : string) : result resolve_error (string * string) :=
  match LastIndex s ":" with
  | None => Err (ErrMissingColon s)
  | Some idx => Ok (upto idx s, from (idx + 1) s)
  end.

Section WithHost.
(** [FileSystem.Join] and [FileSystem.ReadFile] *)
Variable Join : list string -> string.
Variable ReadFile : string -> result string string.
(** The host's [ExecFileOptions] on the child thread, with its file name
    and source: the loads of the module go through the loader and may add
    to its cache. *)
Variable ExecFile :
  Thread -> string -> string -> gmap string loadEntry ->
  result string Globals * gmap string loadEntry.

(** [BzlFileLoader.resolveModule] *)
Definition resolveModule (l : BzlFileLoader) (th : Thread) (module : string)
  : result resolve_error (string * string) :=
  '(repo, pkg, file) ←
    (if HasPrefix module "@" then
       match Index module "//" with
       | None => Err (ErrMissingSlashes module)
       | Some idx =>
           '(pkg, file) ← splitPkgTarget (from (idx + 2) module);
           Ok (slice 1 idx module, pkg, file)
       end
     else if HasPrefix module "//" then
       '(pkg, file) ← splitPkgTarget (from 2 module);
       Ok (currentRepo th, pkg, file)
     else if HasPrefix module ":" then
       Ok (currentRepo th, currentPkg th, from 1 module)
     else Ok (currentRepo th, currentPkg th, module));
  if negb (HasSuffix file ".bzl") && negb (HasSuffix file ".scl")
  then Err (ErrExtension file)
  else
    let label :=
      if negb (String.eqb repo "")
      then "@" +:+ repo +:+ "//" +:+ pkg +:+ ":" +:+ file
      else "//" +:+ pkg +:+ ":" +:+ file in
    root ←
      (if negb (String.eqb repo "") then
         match repoMapping l !! repo with
         | Some mappedRoot => Ok mappedRoot
         | None =>
             if negb (String.eqb repo "main") then Err (ErrUnknownRepo repo)
             else Ok (repoRoot l)
         end
       else Ok (repoRoot l));
    Ok (label, Join [root; pkg; file]).

(** [BzlFileLoader.loadFile]: the result and the cache afterwards. *)
Definition loadFile (l : BzlFileLoader) (label path : string)
    (parentStack : list string)
  : result error Globals * gmap string loadEntry :=
  match ReadFile path with
  | Err msg => (Err (ErrReading path msg), cache l)
  | Ok source =>
      let pkg :=
        match Index label "//" with
        | Some idx =>
            let rest := from (idx + 2) label in
            match LastIndex rest ":" with
            | Some colonIdx => upto colonIdx rest
            | None => ""
            end
        | None => ""
        end in
      let repo :=
        if HasPrefix label "@" then
          match Index label "//" with
          | Some idx => slice 1 idx label
          | None => ""
          end
        else "" in
      let childThread := mkThread pkg repo (parentStack ++ [label]) in
      match ExecFile childThread path source (cache l) with
      | (Err msg, c) => (Err (ErrExecuting label msg), c)
      | (Ok g, c) => (Ok g, c)
      end
  end.

(** What [Load] returns from an entry. *)
Definition entry_result (entry : loadEntry) : result error Globals :=
  match err entry with
  | Some e => Err e
  | None => Ok (default ∅ (globals entry))
  end.

(** [BzlFileLoader.Load]: the outcome and the loader afterwards. The entry
    of a load that completes is updated in place, where the cache still
    holds it. *)
Definition Load (l : BzlFileLoader) (th : Thread) (module : string)
  : outcome * BzlFileLoader :=
  match resolveModule l th module with
  | Err e => (Returns (Err (ErrLoad module e)), l)
  | Ok (label, path) =>
      let stack := loadStack th in
      if existsb (fun entry => String.eqb entry label) stack
      then (Returns (Err (CycleError module (stack ++ [label]))), l)
      else
        match cache l !! label with
        | None =>
            let l1 := with_cache l (<[label := mkEntry None None false]> (cache l)) in
            let '(r, c) := loadFile l1 label path stack in
            let entry :=
              match r with
              | Ok g => mkEntry (Some g) None true
              | Err e => mkEntry None (Some e) true
              end in
            (Returns (entry_result entry),
             with_cache l (alter (fun _ => entry) label c))
        | Some entry =>
            if ready entry then (Returns (entry_result entry), l)
            else (Waits label, l)
        end
  end.

(** The two halves of [resolveModule]: the repository, package and file
    that a module string denotes, and the canonical label and the path
    that are built from them. *)
Definition module_parts (th : Thread) (module : string)
  : result resolve_error (string * string * string) :=
  if HasPrefix module "@" then
    match Index module "//" with
    | None => Err (ErrMissingSlashes module)
    | Some idx =>
        '(pkg, file) ← splitPkgTarget (from (idx + 2) module);
        Ok (slice 1 idx module, pkg, file)
    end
  else if HasPrefix module "//" then
    '(pkg, file) ← splitPkgTarget (from 2 module);
    Ok (currentRepo th, pkg, file)
  else if HasPrefix module ":" then
    Ok (currentRepo th, currentPkg th, from 1 module)
  else Ok (currentRepo th, currentPkg th, module).

Definition canonical_label (repo pkg file : string) : string :=
  if negb (String.eqb repo "")
  then "@" +:+ repo +:+ "//" +:+ pkg +:+ ":" +:+ file
  else "//" +:+ pkg +:+ ":" +:+ file.

Definition locate (l : BzlFileLoader) (repo pkg file : string)
  : result resolve_error (string * string) :=
  if negb (HasSuffix file ".bzl") && negb (HasSuffix file ".scl")
  then Err (ErrExtension file)
  else
    root ←
      (if negb (String.eqb repo "") then
         match repoMapping l !! repo with
         | Some mappedRoot => Ok mappedRoot
         | None =>
             if negb (String.eqb repo "main") then Err (ErrUnknownRepo repo)
             else Ok (repoRoot l)
         end
       else Ok (repoRoot l));
    Ok (canonical_label repo pkg file, Join [root; pkg; file]).

End WithHost.

End Loader.


(** ** Package [native]: [glob] *)

Module Native.
Import GoStrings.

(** The directory tree under the package directory. The entries of a
    directory are listed in the order in which [filepath.Walk] visits
    them, the lexical order of their names. *)
#[warnings="-register-all"]
Inductive Node : Type :=
| File (name : string)
| Dir (name : string) (entries : list Node).

Definition node_name (n : Node) : string :=
  match n with File name => name | Dir name _ => name end.

(** [info.IsDir()] *)
Definition IsDir (n : Node) : bool :=
  match n with File _ => false | Dir _ _ => true end.

Definition has_entry (name : string) (n : Node) : bool :=
  match n with
  | File _ => false
  | Dir _ entries => existsb (fun e => String.eqb (node_name e) name) entries
  end.

(** No entry of a directory is named with a single dot. *)
Fixpoint names_ok (n : Node) : bool :=
  match n with
  | File _ => true
  | Dir _ entries =>
      forallb (fun c => negb (String.eqb (node_name c) ".") && names_ok c) entries
  end.

(** [DefaultBuildFileLocator.HasBuildFile] *)
Definition DefaultHasBuildFile (dir : Node) : bool :=
  existsb (fun name => has_entry name dir) ["BUILD.bazel"; "BUILD"].

Record PackageContext : Type := mkContext {
  PackagePath : string;
  RepoName : string;
  PackageDir : string;
  BuildFileLocator : option (Node -> bool)   (* nil: the default locator *)
}.

Inductive error : Type :=
| ErrNoContext                       (* native.glob() can only be called during BUILD file evaluation *)
| ErrNotString (context : string) (i : nat)   (* %s element %d is not a string *)
| ErrExcludeDirectories              (* exclude_directories must be an integer *)
| ErrAllowEmpty (ty : string)        (* expected boolean for argument `allow_empty`, got `%s` *)
| ErrPackageDir                      (* PackageDir not set in context *)
| ErrQuestionMark (pattern : string) (* glob pattern '%s' contains forbidden '?' wildcard *)
| ErrUplevel (pattern : string)      (* glob pattern '%s' contains forbidden '..' reference *)
| ErrAbsolute (pattern : string)     (* glob pattern '%s' cannot be absolute *)
| ErrNoMatch (patterns : list string). (* glob pattern(s) %v matched no files *)

(** [validateGlobPattern] *)
Definition validateGlobPattern (pattern : string) : option error :=
  if Contains pattern "?" then Some (ErrQuestionMark pattern)
  else if Contains pattern ".." then Some (ErrUplevel pattern)
  else if HasPrefix pattern "/" then Some (ErrAbsolute pattern)
  else None.

(** The path elements of a slash-separated path. *)
Fixpoint split_slash (acc : string) (s : string) : list string :=
  match s with
  | EmptyString => [acc]
  | String c s' =>
      if Ascii.eqb c "/"%char then acc :: split_slash "" s'
      else split_slash (acc +:+ String c EmptyString) s'
  end.

(** The elements of [filepath.Join(PackageDir, p)] below the package
    directory, for a path [p] without [..]: the empty elements and the
    dots are dropped. *)
Definition clean_elements (p : string) : list string :=
  List.filter (fun e => negb (String.eqb e "") && negb (String.eqb e "."))
    (split_slash "" p).

(** The node at a path below a node. *)
Fixpoint find_node (n : Node) (path : list string) : option Node :=
  match path with
  | [] => Some n
  | e :: path' =>
      match n with
      | File _ => None
      | Dir _ entries =>
          match List.find (fun c => String.eqb (node_name c) e) entries with
          | Some c => find_node c path'
          | None => None
          end
      end
  end.

(** [filepath.Rel(PackageDir, path)] for a path at or below the package
    directory. *)
Definition rel_path (elements : list string) : string :=
  match elements with
  | [] => "."
  | _ => Join elements "/"
  end.

(** [strings.SplitN(pattern, "**", 2)] for a pattern that contains [**] *)
Definition split_recursive (pattern : string) : string * string :=
  match Index pattern "**" with
  | Some i => (upto i pattern, from (i + 2) pattern)
  | None => (pattern, "")
  end.

Section WithFileSystem.
(** The package directory, [filepath.Match] ([false] when it fails), and
    [filepath.Glob] of the pattern joined to the package directory: the
    matched nodes with their paths from the package directory. [Glob] is
    total: a pattern that [filepath.Glob] refuses as malformed, for which
    [matchPattern] returns an error, is outside the model. *)
Variable root : Node.
Variable Match : string -> string -> bool.
Variable Glob : string -> list (list string * Node).

Inductive action : Type := Continue | SkipDir.

(** The function that [matchRecursivePattern] passes to [filepath.Walk]:
    what it appends to [result], and what it returns. *)
Definition walkFn (hasBuildFile : Node -> bool) (includeDirs : bool)
    (suffix : string) (elements : list string) (isStart : bool) (n : Node)
  : list string * action :=
  let rel := rel_path elements in
  if String.eqb rel "." then ([], Continue)
  else if IsDir n && hasBuildFile n && negb isStart then ([], SkipDir)
  else if IsDir n && negb includeDirs then ([], Continue)
  else if negb (String.eqb suffix "") && negb (Match suffix (node_name n))
       then ([], Continue)
  else ([rel], Continue).

(** [filepath.Walk] with that function: a directory is entered unless the
    function returns [SkipDir] for it. *)
Fixpoint Walk (hasBuildFile : Node -> bool) (includeDirs : bool)
    (suffix : string) (elements : list string) (isStart : bool) (n : Node)
  : list string :=
  let '(found, act) := walkFn hasBuildFile includeDirs suffix elements isStart n in
  match n, act with
  | Dir _ entries, Continue =>
      found ++ flat_map
                 (fun c => Walk hasBuildFile includeDirs suffix
                             (elements ++ [node_name c]) false c)
                 entries
  | _, _ => found
  end.

(** [matchRecursivePattern] *)
Definition matchRecursivePattern (ctx : PackageContext) (pattern : string)
    (includeDirs : bool) (hasBuildFile : Node -> bool) : list string :=
  let '(prefix, suffix) := split_recursive pattern in
  let prefix := TrimSuffix prefix "/" in
  let suffix := TrimPrefix suffix "/" in
  let start := if String.eqb prefix "" then [] else clean_elements prefix in
  match find_node root start with
  | Some n => Walk hasBuildFile includeDirs suffix start true n
  | None => []
  end.

(** [matchPattern] *)
Definition matchPattern (ctx : PackageContext) (pattern : string)
    (includeDirs : bool) : list string :=
  let locator := default DefaultHasBuildFile (BuildFileLocator ctx) in
  if Contains pattern "**"
  then matchRecursivePattern ctx pattern includeDirs locator
  else
    flat_map
      (fun m : list string * Node =>
         let rel := rel_path m.1 in
         if IsDir m.2 && (negb includeDirs || locator m.2) then []
         else if String.eqb rel "." || String.eqb rel "" then []
         else [rel])
      (Glob pattern).

(** [executeGlob]: the keys of the [matches] map. The slice that the
    source builds from the map has them in an unspecified order. *)
Definition executeGlob (ctx : PackageContext) (include exclude : list string)
    (includeDirs : bool) : result error (gset string) :=
  if String.eqb (PackageDir ctx) "" then Err ErrPackageDir
  else
    matches ← foldM
      (fun (matches : gset string) pattern =>
         match validateGlobPattern pattern with
         | Some e => Err e
         | None => Ok (matches ∪ list_to_set (matchPattern ctx pattern includeDirs))
         end) include ∅;
    foldM
      (fun (matches : gset string) pattern =>
         match validateGlobPattern pattern with
         | Some e => Err e
         | None => Ok (matches ∖ list_to_set (matchPattern ctx pattern includeDirs))
         end) exclude matches.

(** [listToStrings] *)
Fixpoint listToStrings (l : list Value) (context : string) (i : nat)
  : result error (list string) :=
  match l with
  | [] => Ok []
  | VString s :: l' => rest ← listToStrings l' context (S i); Ok (s :: rest)
  | _ :: _ => Err (ErrNotString context i)
  end.

(** The order of [sort.Strings] *)
Definition string_le (a b : string) : Prop := String.leb a b = true.

#[global] Instance string_le_dec (a b : string) : Decision (string_le a b).
Proof. unfold string_le. apply _. Defined.

(** [glob], after the binding of its arguments: [include] and [exclude]
    are the elements of the two lists, [excludeDirs] is the integer (its
    default is 1) and [allowEmpty] the value (its default is [None]). *)
Definition glob (ctx : option PackageContext) (include exclude : list Value)
    (excludeDirs : Z) (allowEmpty : Value) : result error (list string) :=
  match ctx with
  | None => Err ErrNoContext
  | Some ctx =>
      includePatterns ← listToStrings include "glob include" 0;
      excludePatterns ← listToStrings exclude "glob exclude" 0;
      if negb ((- 2 ^ 63 <=? excludeDirs)%Z && (excludeDirs <? 2 ^ 63)%Z)
      then Err ErrExcludeDirectories
      else
        let includeDirs := (excludeDirs =? 0)%Z in
        shouldAllowEmpty ←
          match allowEmpty with
          | VNone => Ok true
          | VBool b => Ok b
          | v => Err (ErrAllowEmpty (Value_Type v))
          end;
        matches ← executeGlob ctx includePatterns excludePatterns includeDirs;
        if negb shouldAllowEmpty && bool_decide (elements matches = [])
        then Err (ErrNoMatch includePatterns)
        else
          Ok (map (fun m => if HasPrefix m "@" then ":" +:+ m else m)
                (merge_sort string_le (elements matches)))
  end.

(** The walk of [matchSubpackagePattern]: every directory is entered, and
    every directory other than the package directory that has a BUILD
    file is appended. *)
Fixpoint subpackageWalk (hasBuildFile : Node -> bool) (elements : list string)
    (isPackageDir : bool) (n : Node) : list string :=
  match n with
  | File _ => []
  | Dir _ entries =>
      (if isPackageDir then []
       else if hasBuildFile n then [rel_path elements] else [])
      ++ flat_map
           (fun c => subpackageWalk hasBuildFile (elements ++ [node_name c]) false c)
           entries
  end.

(** [matchSubpackagePattern] *)
Definition matchSubpackagePattern (ctx : PackageContext) (pattern : string)
    (locator : Node -> bool) : list string :=
  if Contains pattern "**" then subpackageWalk locator [] true root
  else
    flat_map
      (fun m : list string * Node =>
         if negb (IsDir m.2) then []
         else if locator m.2 then [rel_path m.1] else [])
      (Glob pattern).

(** [executeSubpackagesGlob]: the keys of the [matches] map. *)
Definition executeSubpackagesGlob (ctx : PackageContext)
    (include exclude : list string) : result error (gset string) :=
  if String.eqb (PackageDir ctx) "" then Err ErrPackageDir
  else
    let locator := default DefaultHasBuildFile (BuildFileLocator ctx) in
    matches ← foldM
      (fun (matches : gset string) pattern =>
         match validateGlobPattern pattern with
         | Some e => Err e
         | None => Ok (matches ∪ list_to_set (matchSubpackagePattern ctx pattern locator))
         end) include ∅;
    foldM
      (fun (matches : gset string) pattern =>
         match validateGlobPattern pattern with
         | Some e => Err e
         | None => Ok (matches ∖ list_to_set (matchSubpackagePattern ctx pattern locator))
         end) exclude matches.

End WithFileSystem.

(** [reached n isStart path m]: the node [m] lies at [path] below [n], and
    no directory on the way from [n] to the parent of [m] is a directory
    with a BUILD file other than the start directory. *)
Inductive reached (hasBuildFile : Node -> bool)
  : Node -> bool -> list string -> Node -> Prop :=
| reached_here n isStart : reached hasBuildFile n isStart [] n
| reached_below name entries isStart c path m :
    isStart = true \/ hasBuildFile (Dir name entries) = false ->
    In c entries ->
    reached hasBuildFile c false path m ->
    reached hasBuildFile (Dir name entries) isStart (node_name c :: path) m.

(** Induction on a node and, through [Forall], on its entries. *)
Section NodeInduction.
Variable P : Node -> Prop.
Hypothesis HFile : forall name, P (File name).
Hypothesis HDir : forall name entries, Forall P entries -> P (Dir name entries).

Fixpoint Node_nested_ind (n : Node) : P n :=
  match n with
  | File name => HFile name
  | Dir name entries =>
      HDir name entries
        ((fix go (l : list Node) : Forall P l :=
            match l with
            | [] => List.Forall_nil P
            | c :: l' => List.Forall_cons P c l' (Node_nested_ind c) (go l')
            end) entries)
  end.
End NodeInduction.

(** [filepath.Match] for the patterns that consist of literal characters
    and stars: a star matches any sequence of characters other than the
    separator. *)
Fixpoint star_match (pattern name : string) {struct pattern} : bool :=
  match pattern with
  | EmptyString => String.eqb name ""
  | String c pattern' =>
      if Ascii.eqb c "*"%char then
        (fix try (name : string) : bool :=
           star_match pattern' name
           || match name with
              | EmptyString => false
              | String d name' => negb (Ascii.eqb d "/"%char) && try name'
              end) name
      else
        match name with
        | EmptyString => false
        | String d name' => Ascii.eqb c d && star_match pattern' name'
        end
  end.

End Native.

(** ** Package [providers]: [OutputGroupInfo] *)

Module OutputGroupInfo.
Import GoStrings.

Section WithValues.
Context {V : Type} `{HostValue V}.

Record OutputGroupInfo : Type := mkInfo {
  groups : gmap string (Depset.Depset V);
  frozen : bool
}.

(** [NewOutputGroupInfo] *)
Definition NewOutputGroupInfo : OutputGroupInfo := mkInfo ∅ false.

(** [NewOutputGroupInfoWithGroups]: the groups are copied one by one. *)
Definition NewOutputGroupInfoWithGroups (gs : gmap string (Depset.Depset V))
  : OutputGroupInfo :=
  mkInfo (fold_left (fun m kv => <[kv.1 := kv.2]> m) (map_to_list gs) ∅) false.

(** [OutputGroupInfo.ContainsKey] *)
Definition ContainsKey (o : OutputGroupInfo) (name : string) : bool :=
  match groups o !! name with Some _ => true | None => false end.

(** The body of the inner loop of [MergeOutputGroupInfo], over the groups
    of one provider. *)
Definition merge_group (builders : gmap string (Depset.Depset V))
    (gf : string * Depset.Depset V)
  : result Depset.error (gmap string (Depset.Depset V)) :=
  match builders !! gf.1 with
  | Some existing =>
      merged ← Depset.NewDepset Depset.OrderDefault [] [existing; gf.2];
      Ok (<[gf.1 := merged]> builders)
  | None => Ok (<[gf.1 := gf.2]> builders)
  end.

(** [MergeOutputGroupInfo]: nil for no provider, the provider itself for
    one. The groups of a provider are visited in the order of
    [map_to_list]. *)
Definition MergeOutputGroupInfo (providers : list OutputGroupInfo)
  : result Depset.error (option OutputGroupInfo) :=
  match providers with
  | [] => Ok None
  | [provider] => Ok (Some provider)
  | _ =>
      builders ← foldM
        (fun builders provider =>
           foldM merge_group (map_to_list (groups provider)) builders)
        providers ∅;
      Ok (Some (NewOutputGroupInfoWithGroups builders))
  end.

(** An invariant of the loops of [MergeOutputGroupInfo]: the builders hold
    a group exactly when a group of that name was visited, and the values
    of its depset are those of the visited depsets of that name. *)
Definition holds (builders : gmap string (Depset.Depset V))
    (visited : list (string * Depset.Depset V)) : Prop :=
  forall g,
    (is_Some (builders !! g) <-> exists d, In (g, d) visited)
    /\ forall x,
         (exists d, builders !! g = Some d /\ In x (Depset.ToList d))
         <-> exists d, In (g, d) visited /\ In x (Depset.ToList d).

End WithValues.
Arguments OutputGroupInfo V : clear implicits.

End OutputGroupInfo.

(** ** [types.ProviderInstance]: the methods on an instance *)

Module ProviderInstance.
Import GoStrings Provider.

(** [ProviderInstance.Get] *)
Definition Get (pi : ProviderInstance) (name : string) : option Value :=
  values pi !! name.

(** The [starlark.NoSuchAttrError] of [ProviderInstance.Attr], with the
    name of the provider and the name that was asked for. *)
Inductive attr_error : Type :=
| NoSuchAttrError (pname name : string).   (* %s has no attribute %q *)

Definition attr_Error (e : attr_error) : string :=
  match e with
  | NoSuchAttrError pname name => pname +:+ " has no attribute " +:+ quote name
  end.

(** [ProviderInstance.Attr] *)
Definition Attr (pi : ProviderInstance) (name : string) : result attr_error Value :=
  match values pi !! name with
  | Some v => Ok v
  | None => Err (NoSuchAttrError (Provider.name (provider pi)) name)
  end.

(** [ProviderInstance.AttrNames]: the keys, sorted by [sort.Strings]. *)
Definition AttrNames (pi : ProviderInstance) : list string :=
  merge_sort Native.string_le (map fst (map_to_list (values pi))).

End ProviderInstance.

(** * Part II: properties *)

(** ** The definitions on concrete inputs *)

Section Evaluations.
Import GoStrings.

Example Index_first : Index "a//b//c" "//" = Some 1.
Proof. reflexivity. Qed.

Example LastIndex_last : LastIndex "a:b:c" ":" = Some 3.
Proof. reflexivity. Qed.

Example TrimSuffix_slash : TrimSuffix "src/" "/" = "src".
Proof. reflexivity. Qed.

Example fmt_strings_stack : fmt_strings ["//:a.bzl"; "//:b.bzl"] = "[//:a.bzl //:b.bzl]".
Proof. reflexivity. Qed.

Example ParseLabel_repo :
  Label.ParseLabel "@repo//pkg/sub:target"
  = Ok (Label.mkLabel "repo" "pkg/sub" "target" false).
Proof. reflexivity. Qed.

Example ParseLabel_no_name :
  Label.ParseLabel "//pkg/sub" = Ok (Label.mkLabel "" "pkg/sub" "sub" false).
Proof. reflexivity. Qed.

Example ParseLabel_relative_error :
  Label.ParseLabel "pkg:t" = Err (Label.ErrMustStart "pkg:t").
Proof. reflexivity. Qed.

Example hashString_abc : Depset.hashString "abc" = 96354%Z.
Proof. reflexivity. Qed.

(** The two bytes of U+00E9 are one rune; a lone continuation byte is
    U+FFFD. *)
Example decode_two_bytes : Depset.decode_rune [195; 169]%Z = (233%Z, 2).
Proof. reflexivity. Qed.

Example decode_invalid : Depset.decode_rune [169; 65]%Z = (Depset.RuneError, 1).
Proof. reflexivity. Qed.

Example ParseOrder_unknown :
  Depset.ParseOrder "stable" = Err (Depset.ErrInvalidOrder "stable").
Proof. reflexivity. Qed.

Example resolveModule_relative :
  Loader.resolveModule (fun parts => Join parts "/")
    (Loader.mkLoader "/ws" ∅ ∅) (Loader.mkThread "pkg" "" []) ":defs.bzl"
  = Ok ("//pkg:defs.bzl", "/ws/pkg/defs.bzl").
Proof. reflexivity. Qed.

Example resolveModule_extension :
  Loader.resolveModule (fun parts => Join parts "/")
    (Loader.mkLoader "/ws" ∅ ∅) (Loader.mkThread "pkg" "" []) "//pkg:defs.txt"
  = Err (Loader.ErrExtension "defs.txt").
Proof. reflexivity. Qed.

Example validateGlobPattern_uplevel :
  Native.validateGlobPattern "../x" = Some (Native.ErrUplevel "../x").
Proof. reflexivity. Qed.

Example split_recursive_first :
  Native.split_recursive "src/**/test/**" = ("src/", "/test/**").
Proof. reflexivity. Qed.

Example star_match_suffix :
  Native.star_match "*.cc" "foo.cc" = true /\ Native.star_match "*.cc" "BUILD" = false.
Proof. split; reflexivity. Qed.

End Evaluations.

(** ** Facts about the string functions *)

Section GoStringsFacts.
Import GoStrings.

Lemma HasPrefix_app (p s : string) : HasPrefix (p +:+ s) p = true.
Proof.
  induction p as [|c p IH]; simpl; [reflexivity|].
  rewrite Ascii.eqb_refl. exact IH.
Qed.

Lemma HasPrefix_split (s p : string) :
  HasPrefix s p = true -> s = p +:+ from (String.length p) s.
Proof.
  revert s. induction p as [|c p IH]; intros s H; simpl in *; [reflexivity|].
  destruct s as [|d s]; [discriminate|].
  apply andb_true_iff in H as [Hc Hp].
  apply Ascii.eqb_eq in Hc. subst d.
  change (String c s = String c (p +:+ from (String.length p) s)).
  f_equal. apply IH, Hp.
Qed.

(** [Index] returns a position where the separator does occur. *)
Lemma Index_Some (s sep : string) (i : nat) :
  Index s sep = Some i -> HasPrefix (from i s) sep = true.
Proof.
  revert i. induction s as [|c s IH]; intros i H; simpl in H.
  - destruct sep; simpl in H; [|discriminate]. injection H as <-. reflexivity.
  - destruct (HasPrefix (String c s) sep) eqn:Hp.
    + injection H as <-. exact Hp.
    + destruct (Index s sep) as [j|] eqn:Hj; [|discriminate].
      injection H as <-. simpl. apply IH. reflexivity.
Qed.


End GoStringsFacts.

(** ** Depsets: flattening *)

Section DepsetFacts.
Import Depset.
Context {V : Type} `{HV : HostValue V}.



Lemma seen_repr_empty : seen_repr ∅ [].
Proof. intros h. reflexivity. Qed.

Lemma existsb_filter_key (x : V) (kept : list V) :
  existsb (fun v => Equal v x) (filter (fun v => seenKey v = seenKey x) kept)
  = duplicate_of kept x.
Proof.
  unfold duplicate_of. induction kept as [|v kept IH]; [reflexivity|].
  rewrite filter_cons. simpl. destruct (decide (seenKey v = seenKey x)) as [e|n].
  - simpl. rewrite IH. apply Z.eqb_eq in e. rewrite e. reflexivity.
  - rewrite IH. apply Z.eqb_neq in n. rewrite n. reflexivity.
Qed.

Lemma alreadySeen_spec seen kept x :
  seen_repr seen kept ->
  fst (alreadySeen seen x) = duplicate_of kept x /\
  seen_repr (snd (alreadySeen seen x))
    (if duplicate_of kept x then kept else kept ++ [x]).
Proof.
  intros Hrep. unfold alreadySeen. cbv zeta.
  rewrite (Hrep (seenKey x)), existsb_filter_key.
  destruct (duplicate_of kept x); simpl; split; try reflexivity; try exact Hrep.
  intros h. unfold bucket. rewrite filter_app, filter_cons, filter_nil.
  destruct (decide (seenKey x = h)) as [<-|n].
  - rewrite lookup_insert_eq. reflexivity.
  - rewrite lookup_insert_ne by exact n. rewrite app_nil_r. apply Hrep.
Qed.

Lemma keep_first_app kept l1 l2 :
  keep_first kept (l1 ++ l2)
  = keep_first kept l1 ++ keep_first (kept ++ keep_first kept l1) l2.
Proof.
  revert kept. induction l1 as [|x l1 IH]; intros kept; simpl.
  - rewrite app_nil_r. reflexivity.
  - destruct (duplicate_of kept x); [apply IH|].
    simpl. rewrite IH, <- app_assoc. reflexivity.
Qed.

(** The loop over a list of elements appends their first appearances. *)
Lemma addDirect_loop (l : list V) seen res :
  seen_repr seen res ->
  exists seen',
    fold_left
      (fun (st : gmap Z (list V) * list V) elem =>
         let '(seen, result) := st in
         let '(dup, seen') := alreadySeen seen elem in
         if dup then (seen', result) else (seen', result ++ [elem]))
      l (seen, res)
    = (seen', res ++ keep_first res l)
    /\ seen_repr seen' (res ++ keep_first res l).
Proof.
  revert seen res. induction l as [|x l IH]; intros seen res Hrep; simpl.
  - exists seen. rewrite app_nil_r. auto.
  - destruct (alreadySeen_spec seen res x Hrep) as [Hdup Hrep'].
    destruct (alreadySeen seen x) as [dup seen1]. simpl in Hdup, Hrep'. subst dup.
    destruct (duplicate_of res x).
    + apply IH, Hrep'.
    + destruct (IH seen1 (res ++ [x]) Hrep') as [seen' [Heq Hr]].
      exists seen'. rewrite <- app_assoc in Heq, Hr. simpl in Heq, Hr. auto.
Qed.

Lemma addDirect_spec (d : Depset V) seen res :
  seen_repr seen res ->
  exists seen',
    addDirect d (seen, res) = (seen', res ++ keep_first res (direct d))
    /\ seen_repr seen' (res ++ keep_first res (direct d)).
Proof. apply addDirect_loop. Qed.

(** [walk] in the shape of the source. *)
Lemma walk_unfold (o : Order) (d : Depset V) st :
  walk o d st =
  if bool_decide (o = OrderPreorder)
  then addTransitive o d (addDirect d st)
  else addDirect d (addTransitive o d st).
Proof. destruct d. reflexivity. Qed.

Lemma visit_unfold (o : Order) (d : Depset V) :
  visit o d =
  if bool_decide (o = OrderPreorder)
  then direct d ++ flat_map (visit o) (transitive d)
  else flat_map (visit o) (transitive d) ++ direct d.
Proof. destruct d, o; reflexivity. Qed.

Lemma visit_not_preorder (o : Order) (d : Depset V) :
  o <> OrderPreorder -> visit o d = visit OrderPostorder d.
Proof.
  intros Ho. induction d as [o' ds ts ty IH] using Depset_nested_ind.
  assert (Hts : flat_map (visit o) ts = flat_map (visit OrderPostorder) ts).
  { induction IH as [|t ts Ht _ IHts]; simpl; [reflexivity|].
    rewrite Ht, IHts. reflexivity. }
  destruct o; simpl; try rewrite Hts; try reflexivity. contradiction.
Qed.

(** The traversal appends to the result the first appearances of the
    visit sequence, whatever was collected before. *)
Lemma walk_spec (o : Order) (d : Depset V) :
  forall seen res,
    seen_repr seen res ->
    exists seen',
      walk o d (seen, res) = (seen', res ++ keep_first res (visit o d))
      /\ seen_repr seen' (res ++ keep_first res (visit o d)).
Proof.
  induction d as [o' ds ts ty IH] using Depset_nested_ind.
  assert (Hchildren : forall seen res,
    seen_repr seen res ->
    exists seen',
      fold_left (fun st t => walk o t st) ts (seen, res)
      = (seen', res ++ keep_first res (flat_map (visit o) ts))
      /\ seen_repr seen' (res ++ keep_first res (flat_map (visit o) ts))).
  { induction IH as [|t ts Ht _ IHts]; intros seen res Hrep; simpl.
    - exists seen. rewrite app_nil_r. auto.
    - destruct (Ht seen res Hrep) as [seen1 [E1 R1]]. rewrite E1.
      destruct (IHts _ _ R1) as [seen2 [E2 R2]].
      exists seen2. rewrite keep_first_app, app_assoc. auto. }
  intros seen res Hrep. rewrite walk_unfold, visit_unfold.
  unfold addTransitive. simpl transitive. simpl direct.
  destruct (bool_decide (o = OrderPreorder)).
  - destruct (addDirect_spec (mkDepset o' ds ts ty) seen res Hrep) as [s1 [E1 R1]].
    rewrite E1. simpl direct in *.
    destruct (Hchildren _ _ R1) as [s2 [E2 R2]].
    exists s2. rewrite keep_first_app, app_assoc. auto.
  - destruct (Hchildren _ _ Hrep) as [s1 [E1 R1]]. rewrite E1.
    destruct (addDirect_spec (mkDepset o' ds ts ty) _ _ R1) as [s2 [E2 R2]].
    simpl direct in *.
    exists s2. rewrite keep_first_app, app_assoc. auto.
Qed.

(** [ToList] computes the flattening of the specification. *)
Lemma ToList_flatten (d : Depset V) : ToList d = flatten d.
Proof.
  unfold ToList, flatten.
  destruct (walk_spec (order d) d ∅ [] seen_repr_empty) as [seen' [E _]].
  rewrite E. simpl.
  destruct (order d) eqn:Ho; simpl; try reflexivity.
  rewrite (visit_not_preorder OrderTopological) by discriminate. reflexivity.
Qed.

End DepsetFacts.

(** When [Equal] is reflexive and transitive and equal values have the same
    hash, dropping the duplicates of the kept elements is dropping every
    element that has an equal one before it. *)
Section LawfulEquality.
Import Depset.
Context {V : Type} `{HV : HostValue V}.
Hypothesis Equal_refl : forall x : V, Equal x x = true.
Hypothesis Equal_trans :
  forall x y z : V, Equal x y = true -> Equal y z = true -> Equal x z = true.
Hypothesis Equal_key :
  forall x y : V, Equal x y = true -> seenKey x = seenKey y.

Lemma keep_first_first_occurrences_gen (l : list V) :
  forall kept before,
    (forall v, In v kept -> In v before) ->
    (forall v, In v before -> exists k, In k kept /\ Equal k v = true) ->
    keep_first kept l = first_occurrences before l.
Proof.
  induction l as [|x l IH]; intros kept before Hsub Hrepr; [reflexivity|].
  simpl.
  assert (Hdup : duplicate_of kept x = existsb (fun v => Equal v x) before).
  { unfold duplicate_of. apply eq_true_iff_eq. rewrite !existsb_exists. split.
    - intros [v [Hin Hv]]. apply andb_true_iff in Hv as [_ Hv]. eauto.
    - intros [v [Hin Hv]]. destruct (Hrepr v Hin) as [k [Hk Hkv]].
      exists k. split; [exact Hk|].
      assert (Hkx : Equal k x = true) by eauto.
      rewrite Hkx, (Equal_key _ _ Hkx), Z.eqb_refl. reflexivity. }
  rewrite <- Hdup. destruct (duplicate_of kept x) eqn:Hd.
  - apply IH.
    + intros v Hv. apply in_or_app. left. auto.
    + intros v Hv. apply in_app_or in Hv as [Hv|[<-|[]]]; [auto|].
      unfold duplicate_of in Hd. apply existsb_exists in Hd as [k [Hk Hkx]].
      apply andb_true_iff in Hkx as [_ Hkx]. eauto.
  - f_equal. apply IH.
    + intros v Hv. apply in_app_or in Hv as [Hv|Hv]; apply in_or_app; auto.
    + intros v Hv. apply in_app_or in Hv as [Hv|[<-|[]]].
      * destruct (Hrepr v Hv) as [k [Hk Hkv]]. exists k. split; [|exact Hkv].
        apply in_or_app. auto.
      * exists x. split; [apply in_or_app; right; left; reflexivity|apply Equal_refl].
Qed.

Lemma flatten_first_occurrences (d : Depset V) :
  keep_first [] (visit (order d) d) = first_occurrences [] (visit (order d) d).
Proof.
  apply keep_first_first_occurrences_gen; intros v [].
Qed.

End LawfulEquality.

(** ** Depsets: construction *)

Section DepsetConstruction.
Import Depset.
Context {V : Type} `{HV : HostValue V}.

Lemma IsCompatible_iff (o other : Order) :
  IsCompatible o other = true <->
  o = other \/ o = OrderDefault \/ other = OrderDefault.
Proof. destruct o, other; cbv; intuition congruence. Qed.


Lemma checkTransitive_ok o ty (t : Depset V) ty' :
  checkTransitive o ty t = Ok ty' -> ~ clashes o t.
Proof.
  unfold checkTransitive, clashes. intros Hc [He Hi]. rewrite He, Hi in Hc.
  discriminate.
Qed.

Lemma checkTransitive_clash o ty (t : Depset V) :
  clashes o t -> checkTransitive o ty t = Err (ErrOrderIncompatible o (order t)).
Proof. unfold checkTransitive. intros [-> ->]. reflexivity. Qed.

Lemma foldM_transitive_ok o (ts : list (Depset V)) : forall ty ty',
  foldM (checkTransitive o) ts ty = Ok ty' -> Forall (fun t => ~ clashes o t) ts.
Proof.
  induction ts as [|t ts IH]; intros ty ty' Hf; [constructor|].
  simpl in Hf. destruct (checkTransitive o ty t) as [ty1|e] eqn:Hc; [|discriminate].
  constructor; [eapply checkTransitive_ok, Hc|eapply IH, Hf].
Qed.

Lemma foldM_app {E A B : Type} (f : B -> A -> result E B) (l1 l2 : list A) b :
  foldM f (l1 ++ l2) b = b' ← foldM f l1 b; foldM f l2 b'.
Proof.
  revert b. induction l1 as [|a l1 IH]; intros b; simpl; [reflexivity|].
  destruct (f b a); simpl; [apply IH|reflexivity].
Qed.

Lemma foldM_transitive_clash o (ts : list (Depset V)) ty :
  Exists (clashes o) ts -> is_ok (foldM (checkTransitive o) ts ty) = false.
Proof.
  intros Hex. revert ty. induction Hex as [t ts Ht|t ts _ IH]; intros ty; simpl.
  - rewrite checkTransitive_clash by exact Ht. reflexivity.
  - destruct (checkTransitive o ty t); simpl; [apply IH|reflexivity].
Qed.

Lemma NewDepset_ok_compatible o ds ts (d : Depset V) :
  NewDepset o ds ts = Ok d -> Forall (fun t => ~ clashes o t) ts.
Proof.
  unfold NewDepset. intros Hn.
  destruct (foldM checkAndSetType ds "") as [ty|e]; [|discriminate].
  simpl in Hn.
  destruct (foldM (checkTransitive o) ts ty) as [ty'|e] eqn:Hf; [|discriminate].
  eapply foldM_transitive_ok, Hf.
Qed.

Lemma NewDepset_clash_fails o ds (ts : list (Depset V)) :
  Exists (clashes o) ts -> is_ok (NewDepset o ds ts) = false.
Proof.
  intros Hex. unfold NewDepset.
  destruct (foldM checkAndSetType ds "") as [ty|e]; [|reflexivity].
  simpl. pose proof (foldM_transitive_clash o ts ty Hex) as Hf.
  destruct (foldM (checkTransitive o) ts ty); [discriminate|reflexivity].
Qed.

Lemma NewDepset_clash_error o ds pre (t : Depset V) post ty ty' :
  foldM checkAndSetType ds "" = Ok ty ->
  foldM (checkTransitive o) pre ty = Ok ty' ->
  clashes o t ->
  NewDepset o ds (pre ++ t :: post) = Err (ErrOrderIncompatible o (order t)).
Proof.
  intros Hd Hp Ht. unfold NewDepset. rewrite Hd. simpl.
  rewrite foldM_app, Hp. simpl.
  rewrite checkTransitive_clash by exact Ht. reflexivity.
Qed.

End DepsetConstruction.

(** ** The claims about depsets *)

Section DepsetClaims.
Import Depset.

(** What holds of C2: for every depset [d] over any host values,
    [ToList d] is [flatten d], the visit sequence for the order of [d]
    (preorder: the direct elements, then the children left to right;
    postorder and default: the children, then the direct elements;
    topological: the postorder sequence), with every element dropped that
    an element kept earlier equals under the same key, and, for
    topological, reversed at the end. [ToList] depends on the depset only,
    so repeated calls give the same sequence. With integers as elements,
    whatever the host's hash, [A = depset([1,2])] and
    [B = depset([2,3], transitive=[A], order="postorder")] are
    constructed and [B.to_list()] is [[1,2,3]]. *)
Lemma to_list_is_flatten :
  (forall (V : Type) (HV : HostValue V) (d : Depset V), ToList d = flatten d)
  /\ (forall (hash : Value -> option Z) (repr : Value -> string),
        let HV := Value_host hash repr in
        exists A B : Depset Value,
          NewDepset OrderDefault [VInt 1; VInt 2] [] = Ok A
          /\ NewDepset OrderPostorder [VInt 2; VInt 3] [A] = Ok B
          /\ ToList B = [VInt 1; VInt 2; VInt 3]).
Proof.
  split.
  - intros V HV d. apply ToList_flatten.
  - intros hash repr HV.
    exists (mkDepset OrderDefault [VInt 1; VInt 2] [] "int").
    exists (mkDepset OrderPostorder [VInt 2; VInt 3]
              [mkDepset OrderDefault [VInt 1; VInt 2] [] "int"] "int").
    split; [reflexivity|]. split; [reflexivity|].
    rewrite ToList_flatten. unfold flatten. simpl.
    unfold duplicate_of. simpl.
    rewrite !Bool.andb_false_r, Z.eqb_refl. reflexivity.
Qed.

(** C2 at the elements on which a duplicate is kept. Two elements of one
    type that are unhashable, equal under [starlark.Equal], and whose
    string forms have different hashes under [hashString], are filed under
    different keys of [seen], so that neither is compared with the other:
    the depset of the two is constructed, in every order, and [ToList]
    returns both, where the removal of duplicates by equality keeps the
    first only. *)
Theorem C2_equal_unhashable_elements_kept
    (V : Type) (HV : HostValue V) (o : Order) (x y : V) :
  plain x -> plain y -> Type_ x = Type_ y ->
  Hash x = None -> Hash y = None ->
  hashString (String_ x) <> hashString (String_ y) ->
  Equal x y = true ->
  exists d : Depset V,
    NewDepset o [x; y] [] = Ok d
    /\ ToList d = (if bool_decide (o = OrderTopological) then [y; x] else [x; y])
    /\ first_occurrences [] (visit o d) = [x].
Proof.
  intros [Hlx Hdx] [Hly Hdy] Hty Hhx Hhy Hne Heq.
  exists (mkDepset o [x; y] [] (Type_ x)).
  assert (Hkey : (seenKey x =? seenKey y)%Z = false).
  { unfold seenKey. rewrite Hhx, Hhy. apply Z.eqb_neq, Hne. }
  split; [|split].
  - unfold NewDepset. cbn [foldM]. unfold checkAndSetType.
    rewrite Hlx, Hdx, Hly, Hdy. cbn [String.eqb mbind result_bind].
    rewrite <- Hty. destruct (String.eqb (Type_ x) "") eqn:E.
    + reflexivity.
    + rewrite String.eqb_refl. reflexivity.
  - rewrite ToList_flatten. unfold flatten. cbn [order].
    assert (Hk : forall o', keep_first [] (visit o' (mkDepset o [x; y] [] (Type_ x)))
                            = [x; y]).
    { intros o'.
      assert (Hv : visit o' (mkDepset o [x; y] [] (Type_ x)) = [x; y])
        by (destruct o'; reflexivity).
      rewrite Hv. cbn [keep_first duplicate_of existsb app].
      rewrite Hkey. reflexivity. }
    destruct o; cbn [bool_decide decide_rel]; rewrite Hk; reflexivity.
  - assert (Hv : visit o (mkDepset o [x; y] [] (Type_ x)) = [x; y])
      by (destruct o; reflexivity).
    rewrite Hv. cbn [first_occurrences existsb app]. rewrite Heq. reflexivity.
Qed.

(** C2 applied to the two tuples [({1: 2, 3: 4},)] and [({3: 4, 1: 2},)]:
    a tuple that holds a dict is unhashable, the two dicts are equal as
    mappings, and the string forms list the items in the order of
    insertion. *)
Lemma C2_equal_unhashable_elements_kept_witness :
  let x := VTuple [VDict [(VInt 1, VInt 2); (VInt 3, VInt 4)]] in
  let y := VTuple [VDict [(VInt 3, VInt 4); (VInt 1, VInt 2)]] in
  let repr := fun v : Value =>
                match v with
                | VTuple [VDict ((VInt 1, _) :: _)] => "({1: 2, 3: 4},)"
                | _ => "({3: 4, 1: 2},)"
                end in
  let HV := Value_host (fun _ => None) repr in
  Equal x y = true
  /\ exists d : Depset Value,
       NewDepset OrderDefault [x; y] [] = Ok d
       /\ ToList d = [x; y]
       /\ first_occurrences [] (visit OrderDefault d) = [x].
Proof.
  intros x y repr HV. split; [reflexivity|].
  apply (C2_equal_unhashable_elements_kept Value HV OrderDefault x y).
  - split; reflexivity.
  - split; reflexivity.
  - reflexivity.
  - reflexivity.
  - reflexivity.
  - vm_compute. discriminate.
  - reflexivity.
Defined.

(** C7, as the code has it. Two orders are compatible iff they are equal or
    one of them is [default]. A construction that succeeds has no
    non-empty child with an incompatible order, and a construction with
    such a child fails. The failure is the order-incompatibility error of
    the first such child when the direct elements are accepted and the
    children before it are accepted; a check that fails earlier returns
    its own error. A [topological] depset with a non-empty [postorder] or
    [preorder] child is never constructed. *)
Theorem C7_order_compatibility :
  (forall o other : Order,
      IsCompatible o other = true <->
      o = other \/ o = OrderDefault \/ other = OrderDefault)
  /\ (forall (V : Type) (HV : HostValue V) o ds ts (d : Depset V),
        NewDepset o ds ts = Ok d ->
        Forall (fun t => isEmpty t = false -> IsCompatible o (order t) = true) ts)
  /\ (forall (V : Type) (HV : HostValue V) o ds (ts : list (Depset V)),
        Exists (fun t => isEmpty t = false /\ IsCompatible o (order t) = false) ts ->
        is_ok (NewDepset o ds ts) = false)
  /\ (forall (V : Type) (HV : HostValue V) o ds pre (t : Depset V) post ty ty',
        foldM checkAndSetType ds "" = Ok ty ->
        foldM (checkTransitive o) pre ty = Ok ty' ->
        isEmpty t = false -> IsCompatible o (order t) = false ->
        NewDepset o ds (pre ++ t :: post)
        = Err (ErrOrderIncompatible o (order t)))
  /\ (forall (V : Type) (HV : HostValue V) o ds (ts : list (Depset V)) e,
        foldM checkAndSetType ds "" = Err e -> NewDepset o ds ts = Err e)
  /\ (forall (V : Type) (HV : HostValue V) o ds pre (post : list (Depset V)) ty e,
        foldM checkAndSetType ds "" = Ok ty ->
        foldM (checkTransitive o) pre ty = Err e ->
        NewDepset o ds (pre ++ post) = Err e)
  /\ (forall (V : Type) (HV : HostValue V) ds (t : Depset V),
        isEmpty t = false ->
        order t = OrderPostorder \/ order t = OrderPreorder ->
        is_ok (NewDepset OrderTopological ds [t]) = false).
Proof.
  split; [exact IsCompatible_iff|].
  split.
  { intros V HV o ds ts d Hn.
    eapply Forall_impl; [eapply NewDepset_ok_compatible, Hn|].
    intros t Ht He. simpl in Ht. unfold clashes in Ht.
    destruct (IsCompatible o (order t)); [reflexivity|]. exfalso. auto. }
  split.
  { intros V HV o ds ts Hex. apply NewDepset_clash_fails. exact Hex. }
  split.
  { intros V HV o ds pre t post ty ty' Hd Hp He Hi.
    eapply NewDepset_clash_error; eauto. split; assumption. }
  split.
  { intros V HV o ds ts e Hd. unfold NewDepset. rewrite Hd. reflexivity. }
  split.
  { intros V HV o ds pre post ty e Hd Hp. unfold NewDepset. rewrite Hd. simpl.
    rewrite foldM_app, Hp. reflexivity. }
  intros V HV ds t He Ho. apply NewDepset_clash_fails.
  constructor. split; [exact He|]. destruct Ho as [-> | ->]; reflexivity.
Qed.

(** The statement of C7 fails where it promises the order error: a
    [topological] depset with a list among its direct elements and a
    non-empty [preorder] child is rejected for the list. *)
Lemma C7_counterexample :
  let HV := Value_host (fun _ => None) (fun _ => "") in
  let child := mkDepset OrderPreorder [VInt 1] [] "int" in
  NewDepset OrderPreorder [VInt 1] [] = Ok child
  /\ isEmpty child = false
  /\ IsCompatible OrderTopological (order child) = false
  /\ NewDepset OrderTopological [VList []] [child] = Err (ErrForbiddenItem "list").
Proof. repeat split. Qed.

(** The statement of C7 applied: an accepted direct element and a non-empty
    [preorder] child under [topological]. *)
Lemma C7_order_compatibility_witness :
  let HV := Value_host (fun _ => None) (fun _ => "") in
  let child := mkDepset OrderPreorder [VInt 1] [] "int" in
  NewDepset OrderTopological [VInt 2] ([] ++ child :: [])
  = Err (ErrOrderIncompatible OrderTopological OrderPreorder)
  /\ is_ok (NewDepset OrderTopological [VInt 2] [child]) = false.
Proof.
  intros HV child.
  destruct C7_order_compatibility as (_ & _ & H3 & H4 & _ & _ & H5).
  split.
  - apply (H4 Value HV OrderTopological [VInt 2] [] child [] "int" "int");
      reflexivity.
  - apply (H5 Value HV [VInt 2] child); [reflexivity|right; reflexivity].
Defined.

End DepsetClaims.

(** ** Providers: construction *)

Section ProviderFacts.
Import Provider.


Lemma Contains_In (l : list string) (x : string) : Contains l x = true <-> In x l.
Proof.
  unfold Contains. rewrite existsb_exists. split.
  - intros [y [Hy He]]. apply String.eqb_eq in He. subst. exact Hy.
  - intros Hx. exists x. split; [exact Hx|apply String.eqb_refl].
Qed.

Lemma unexpected_nil (x : string) : unexpected [] x = false.
Proof. reflexivity. Qed.

Lemma unexpected_false_In (F : list string) (x : string) :
  F <> [] -> unexpected F x = false -> In x F.
Proof.
  intros HF Hu. unfold unexpected in Hu. apply Contains_In.
  destruct (Contains F x); [reflexivity|].
  destruct F; [contradiction|discriminate].
Qed.

Lemma unexpected_true_notin (F : list string) (x : string) :
  F <> [] -> ~ In x F -> unexpected F x = true.
Proof.
  intros HF Hx. unfold unexpected. destruct (Contains F x) eqn:Hc.
  - apply Contains_In in Hc. contradiction.
  - destruct F; [contradiction|reflexivity].
Qed.

Lemma In_unexpected_false (F : list string) (x : string) :
  In x F -> unexpected F x = false.
Proof.
  intros Hx. unfold unexpected. apply Contains_In in Hx. rewrite Hx.
  apply andb_false_r.
Qed.

Lemma insert_checked_accept F pname m (kv : string * Value) :
  unexpected F kv.1 = false ->
  insert_checked F pname m kv = Ok (<[kv.1 := kv.2]> m).
Proof. intros Hu. unfold insert_checked. rewrite Hu. reflexivity. Qed.

Lemma insert_checked_refuse F pname m (kv : string * Value) :
  unexpected F kv.1 = true ->
  insert_checked F pname m kv = Err (ErrUnexpectedField pname kv.1).
Proof. intros Hu. unfold insert_checked. rewrite Hu. reflexivity. Qed.

(** With no declared field the loop accepts every key. *)
Lemma insert_checked_nil pname kwargs m :
  foldM (insert_checked [] pname) kwargs m = Ok (insert_all kwargs m).
Proof.
  revert m. induction kwargs as [|kv kwargs IH]; intros m; [reflexivity|].
  cbn [foldM]. rewrite insert_checked_accept by apply unexpected_nil. apply IH.
Qed.

(** The loop accepts the keywords that are all declared. *)
Lemma insert_checked_declared F pname kwargs m :
  Forall (fun kv : string * Value => In kv.1 F) kwargs ->
  foldM (insert_checked F pname) kwargs m = Ok (insert_all kwargs m).
Proof.
  intros Hall. revert m. induction Hall as [|kv kwargs Hkv _ IH]; intros m;
    [reflexivity|].
  cbn [foldM]. rewrite insert_checked_accept by (apply In_unexpected_false, Hkv).
  apply IH.
Qed.

(** The loop stops at the first key that is not declared. *)
Lemma insert_checked_reject F pname pre k v post m :
  F <> [] -> Forall (fun kv : string * Value => In kv.1 F) pre -> ~ In k F ->
  foldM (insert_checked F pname) (pre ++ (k, v) :: post) m
  = Err (ErrUnexpectedField pname k).
Proof.
  intros HF Hpre Hk. revert m.
  induction Hpre as [|kv pre Hkv _ IH]; intros m; cbn [app foldM].
  - rewrite insert_checked_refuse; [reflexivity|].
    apply unexpected_true_notin; assumption.
  - rewrite insert_checked_accept by (apply In_unexpected_false, Hkv).
    apply IH.
Qed.

(** The keys of the values that the loop returns are declared, or were
    there before. *)
Lemma insert_checked_keys F pname kwargs m values :
  F <> [] ->
  foldM (insert_checked F pname) kwargs m = Ok values ->
  forall k, is_Some (values !! k) -> is_Some (m !! k) \/ In k F.
Proof.
  intros HF. revert m. induction kwargs as [|kv kwargs IH]; intros m Hf k Hk.
  - simpl in Hf. injection Hf as <-. left. exact Hk.
  - cbn [foldM] in Hf.
    destruct (unexpected F kv.1) eqn:Hu;
      [rewrite insert_checked_refuse in Hf by exact Hu; discriminate|].
    rewrite insert_checked_accept in Hf by exact Hu.
    change (foldM (insert_checked F pname) kwargs (<[kv.1:=kv.2]> m) = Ok values) in Hf.
    destruct (IH _ Hf k Hk) as [Hm|Hin]; [|right; exact Hin].
    destruct (decide (kv.1 = k)) as [<-|Hne].
    + right. apply unexpected_false_In; assumption.
    + rewrite lookup_insert_ne in Hm by exact Hne. left. exact Hm.
Qed.

(** The same for the loop over the items of the dict that [init] returns. *)
Lemma init_items_keys F pname items m values :
  F <> [] ->
  foldM
    (fun (values : gmap string Value) (item : Value * Value) =>
       match item.1 with
       | VString keyStr =>
           if unexpected F keyStr then Err (ErrUnexpectedField pname keyStr)
           else Ok (<[keyStr := item.2]> values)
       | k => Err (ErrInitKey pname (Value_Type k))
       end) items m = Ok values ->
  forall k, is_Some (values !! k) -> is_Some (m !! k) \/ In k F.
Proof.
  intros HF. revert m. induction items as [|[ik iv] items IH]; intros m Hf k Hk.
  - simpl in Hf. injection Hf as <-. left. exact Hk.
  - simpl in Hf. destruct ik; try discriminate.
    destruct (unexpected F s) eqn:Hu; [discriminate|]. simpl in Hf.
    destruct (IH _ Hf k Hk) as [Hm|Hin]; [|right; exact Hin].
    destruct (decide (s = k)) as [<-|Hne].
    + right. apply unexpected_false_In; assumption.
    + rewrite lookup_insert_ne in Hm by exact Hne. left. exact Hm.
Qed.

(** The loop over the items stops at the first key that is not declared. *)
Lemma init_items_reject F pname pre k v post m :
  F <> [] ->
  Forall (fun item : Value * Value =>
            exists key, item.1 = VString key /\ In key F) pre ->
  ~ In k F ->
  foldM
    (fun (values : gmap string Value) (item : Value * Value) =>
       match item.1 with
       | VString keyStr =>
           if unexpected F keyStr then Err (ErrUnexpectedField pname keyStr)
           else Ok (<[keyStr := item.2]> values)
       | k => Err (ErrInitKey pname (Value_Type k))
       end) (pre ++ (VString k, v) :: post) m
  = Err (ErrUnexpectedField pname k).
Proof.
  intros HF Hpre Hk. revert m.
  induction Hpre as [|[ik iv] pre [key [Hkey Hin]] _ IH]; intros m; cbn [app foldM].
  - cbn [fst snd]. rewrite unexpected_true_notin by assumption. reflexivity.
  - cbn [fst snd] in *. subst ik. rewrite In_unexpected_false by exact Hin.
    apply IH.
Qed.

Lemma init_items_nil pname items m :
  forall pn k,
    foldM
      (fun (values : gmap string Value) (item : Value * Value) =>
         match item.1 with
         | VString keyStr =>
             if unexpected [] keyStr then Err (ErrUnexpectedField pname keyStr)
             else Ok (<[keyStr := item.2]> values)
         | k => Err (ErrInitKey pname (Value_Type k))
         end) items m <> Err (ErrUnexpectedField pn k).
Proof.
  intros pn k. revert m. induction items as [|[ik iv] items IH]; intros m; simpl.
  - discriminate.
  - destruct ik; simpl; try discriminate. apply IH.
Qed.

Lemma strings_of_strings (F : list string) :
  Builtins.strings_of (map VString F) = Ok F.
Proof.
  unfold Builtins.strings_of.
  enough (Hgen : forall acc,
    foldM (fun (acc : list string) (x : Value) =>
             match x with
             | VString s => Ok (acc ++ [s])
             | _ => Err (Value_Type x)
             end) (map VString F) acc = Ok (acc ++ F)) by apply Hgen.
  induction F as [|f F IH]; intros acc; simpl.
  - rewrite app_nil_r. reflexivity.
  - rewrite IH, <- app_assoc. reflexivity.
Qed.

Variable Call : Value -> list Value -> list (string * Value) -> result string Value.

Lemma CallInternal_no_init p kwargs :
  init p = None ->
  CallInternal Call p [] kwargs
  = values ← foldM (insert_checked (fields p) (name p)) kwargs ∅;
    Ok (mkProviderInstance p values false).
Proof. intros Hi. unfold CallInternal. rewrite Hi. reflexivity. Qed.

Lemma raw_CallInternal_kwargs r kwargs :
  Builtins.CallInternal r [] kwargs
  = values ← foldM (insert_checked (fields (Builtins.provider r))
                      (name (Builtins.provider r))) kwargs ∅;
    Ok (NewProviderInstance (Builtins.provider r) values).
Proof. reflexivity. Qed.

(** Every instance that [Provider.CallInternal] returns for a provider
    with declared fields carries declared fields only. *)
Lemma CallInternal_keys p args kwargs inst :
  fields p <> [] ->
  CallInternal Call p args kwargs = Ok inst ->
  provider inst = p /\ forall k, is_Some (values inst !! k) -> In k (fields p).
Proof.
  intros HF Hc. unfold CallInternal in Hc. destruct (init p) as [f|].
  - destruct (Call f args kwargs) as [res|msg]; [|discriminate].
    destruct res; try discriminate.
    match type of Hc with
    | (mbind _ (foldM ?f ?l ?m)) = _ => destruct (foldM f l m) as [vs|e] eqn:Hf
    end; [|discriminate].
    simpl in Hc. injection Hc as <-. simpl. split; [reflexivity|].
    intros k Hk. destruct (init_items_keys _ _ _ _ _ HF Hf k Hk) as [Hm|Hin];
      [|exact Hin].
    rewrite lookup_empty in Hm. destruct Hm as [? Hm]. discriminate.
  - destruct (0 <? length args)%nat; [discriminate|].
    fold (insert_checked (fields p) (name p)) in Hc.
    destruct (foldM (insert_checked (fields p) (name p)) kwargs ∅) as [vs|e] eqn:Hf;
      [|discriminate].
    simpl in Hc. injection Hc as <-. simpl. split; [reflexivity|].
    intros k Hk. destruct (insert_checked_keys _ _ _ _ _ HF Hf k Hk) as [Hm|Hin];
      [|exact Hin].
    rewrite lookup_empty in Hm. destruct Hm as [? Hm]. discriminate.
Qed.

Lemma raw_CallInternal_keys r args kwargs inst :
  fields (Builtins.provider r) <> [] ->
  Builtins.CallInternal r args kwargs = Ok inst ->
  provider inst = Builtins.provider r
  /\ forall k, is_Some (values inst !! k) -> In k (fields (Builtins.provider r)).
Proof.
  intros HF Hc. unfold Builtins.CallInternal in Hc.
  destruct (0 <? length args)%nat; [discriminate|].
  fold (insert_checked (fields (Builtins.provider r)) (name (Builtins.provider r))) in Hc.
  destruct (foldM _ kwargs ∅) as [vs|e] eqn:Hf; [|discriminate].
  simpl in Hc. injection Hc as <-. simpl. split; [reflexivity|].
  intros k Hk. destruct (insert_checked_keys _ _ _ _ _ HF Hf k Hk) as [Hm|Hin];
    [|exact Hin].
  rewrite lookup_empty in Hm. destruct Hm as [? Hm]. discriminate.
Qed.

End ProviderFacts.

(** ** The claims about providers *)

Section ProviderClaims.
Import GoStrings Provider.

(** C5, as the code has it. For a provider with a non-empty list of
    declared fields: a keyword construction without [init] callback, and a
    call of the raw constructor, whose first undeclared keyword is [k]
    fails with the error [<name>: unexpected field "k"]; and every
    instance that a construction returns, through [init] or not, carries
    declared field names only. For [MyInfo = provider(fields=["x","y"])],
    whatever its name, [MyInfo(x=1, y=2)] is accepted and [MyInfo(z=3)] is
    rejected with [<name>: unexpected field "z"]. *)
Theorem C5_declared_fields
    (Call : Value -> list Value -> list (string * Value) -> result string Value) :
  (forall p : Provider,
      fields p <> [] ->
      (init p = None ->
       forall pre k v post,
         Forall (fun kv : string * Value => In kv.1 (fields p)) pre ->
         ~ In k (fields p) ->
         CallInternal Call p [] (pre ++ (k, v) :: post)
         = Err (ErrUnexpectedField (name p) k))
      /\ (forall pre k v post,
            Forall (fun kv : string * Value => In kv.1 (fields p)) pre ->
            ~ In k (fields p) ->
            Builtins.CallInternal (Builtins.mkRaw p) [] (pre ++ (k, v) :: post)
            = Err (ErrUnexpectedField (name p) k))
      /\ (forall args kwargs inst,
            CallInternal Call p args kwargs = Ok inst ->
            forall k, is_Some (values inst !! k) -> In k (fields p))
      /\ (forall args kwargs inst,
            Builtins.CallInternal (Builtins.mkRaw p) args kwargs = Ok inst ->
            forall k, is_Some (values inst !! k) -> In k (fields p)))
  /\ (forall n : string,
        let MyInfo := NewProvider n ["x"; "y"] "" None in
        CallInternal Call MyInfo [] [("x", VInt 1); ("y", VInt 2)]
        = Ok (mkProviderInstance MyInfo
                (<["y" := VInt 2]> (<["x" := VInt 1]> ∅)) false)
        /\ CallInternal Call MyInfo [] [("z", VInt 3)]
           = Err (ErrUnexpectedField n "z")
        /\ Error (ErrUnexpectedField n "z")
           = n +:+ ": unexpected field " +:+ dq +:+ "z" +:+ dq).
Proof.
  split.
  - intros p HF. repeat split.
    + intros Hi pre k v post Hpre Hk. rewrite CallInternal_no_init by exact Hi.
      rewrite insert_checked_reject by assumption. reflexivity.
    + intros pre k v post Hpre Hk. rewrite raw_CallInternal_kwargs. simpl.
      rewrite insert_checked_reject by assumption. reflexivity.
    + intros args kwargs inst Hc. eapply CallInternal_keys; eassumption.
    + intros args kwargs inst Hc.
      apply (raw_CallInternal_keys (Builtins.mkRaw p) args kwargs inst HF Hc).
  - intros n MyInfo. repeat split.
Qed.

(** The statement of C5 fails for a declared field list that is empty:
    [provider(fields=[])] accepts [z=3], and the instance carries [z]. It
    fails with an [init] callback, which may accept a keyword that is not
    a field: with [init] mapping [z] to the field [x], the call with [z=3]
    succeeds. And the message of the rejection quotes the key with double
    quotes: it does not contain [unexpected field 'z']. *)
Lemma C5_counterexample :
  (let P := NewProvider "" [] "" None in
   exists inst,
     CallInternal (fun _ _ _ => Err "") P [] [("z", VInt 3)] = Ok inst
     /\ values inst !! "z" = Some (VInt 3)
     /\ ~ In "z" (fields P))
  /\ (let P := NewProvider "" ["x"] "" (Some (VFunction "f")) in
      let Call := fun (_ : Value) (_ : list Value) (kwargs : list (string * Value)) =>
                    @Ok string Value
                      (VDict (map (fun kv : string * Value => (VString "x", kv.2)) kwargs)) in
      ~ In "z" (fields P)
      /\ is_ok (CallInternal Call P [] [("z", VInt 3)]) = true)
  /\ (let P := NewProvider "MyInfo" ["x"; "y"] "" None in
      exists e,
        CallInternal (fun _ _ _ => Err "") P [] [("z", VInt 3)] = Err e
        /\ GoStrings.Contains (Error e) "unexpected field 'z'" = false).
Proof.
  split; [|split].
  - eexists. split; [reflexivity|]. split; [reflexivity|]. intros [].
  - split; [intros [H|[]]; discriminate|reflexivity].
  - eexists. split; reflexivity.
Qed.

(** C5 applied to [MyInfo] with the keywords [x=1, z=3]. *)
Lemma C5_declared_fields_witness :
  let MyInfo := NewProvider "MyInfo" ["x"; "y"] "" None in
  CallInternal (fun _ _ _ => Err "") MyInfo [] ([("x", VInt 1)] ++ ("z", VInt 3) :: [])
  = Err (ErrUnexpectedField "MyInfo" "z").
Proof.
  intros MyInfo.
  destruct (C5_declared_fields (fun _ _ _ => Err "")) as [H _].
  destruct (H MyInfo) as [H1 _]; [discriminate|].
  apply (H1 eq_refl [("x", VInt 1)] "z" (VInt 3) []).
  - constructor; [left; reflexivity|constructor].
  - intros [H0|[H0|[]]]; discriminate.
Defined.

(** C9 at the two [provider] builtins. Called with a list of field names
    and an [init] callback, [Provider] of package [builtins] returns the
    pair of the provider and its raw constructor; [providerBuiltin], the
    [provider] of the predeclared environment of the evaluator, returns the
    provider alone, and no raw constructor exists. *)
Theorem C9_provider_builtins_differ (F : list string) (f : string) :
  let p := NewProvider "" F "" (Some (VFunction f)) in
  Builtins.Provider VNone (VList (map VString F)) (VFunction f)
  = Ok (Builtins.ObjTuple
          [Builtins.ObjProvider p; Builtins.ObjRawConstructor (Builtins.mkRaw p)])
  /\ Eval.providerBuiltin None (Some (VList (map VString F))) (Some (VFunction f))
     = Ok (Builtins.ObjProvider p).
Proof.
  intros p. unfold Builtins.Provider, Eval.providerBuiltin. simpl.
  rewrite strings_of_strings. split; reflexivity.
Qed.

(** What holds of C9 on the construction paths: the provider's call passes
    the positional and keyword arguments to [init], returns its error,
    rejects a result that is not a dict, and rejects the first key of the
    returned dict that is not a declared field; the raw constructor rejects
    positional arguments and does not call [init]. *)
Lemma provider_init_path
    (Call : Value -> list Value -> list (string * Value) -> result string Value)
    (p : Provider) (f : Value) (args : list Value) (kwargs : list (string * Value)) :
  init p = Some f ->
  (forall msg, Call f args kwargs = Err msg ->
               CallInternal Call p args kwargs = Err (ErrHost msg))
  /\ (forall v, Call f args kwargs = Ok v ->
                (forall items, v <> VDict items) ->
                CallInternal Call p args kwargs
                = Err (ErrInitNotDict (name p) (Value_Type v)))
  /\ (forall pre k v post,
        Call f args kwargs = Ok (VDict (pre ++ (VString k, v) :: post)) ->
        fields p <> [] ->
        Forall (fun item : Value * Value =>
                  exists key, item.1 = VString key /\ In key (fields p)) pre ->
        ~ In k (fields p) ->
        CallInternal Call p args kwargs = Err (ErrUnexpectedField (name p) k))
  /\ (forall a, Builtins.CallInternal (Builtins.mkRaw p) (a :: args) kwargs
                = Err (ErrPositional (name p))).
Proof.
  intros Hi. unfold CallInternal. rewrite Hi. repeat split.
  - intros msg ->. reflexivity.
  - intros v -> Hv. destruct v; try reflexivity. exfalso. eapply Hv. reflexivity.
  - intros pre k v post -> HF Hpre Hk.
    rewrite init_items_reject by assumption. reflexivity.
Qed.

(** C10. A provider with no declared field, whether [fields] was an empty
    list or was omitted, accepts every keyword: without [init] callback the
    call succeeds with the keywords as values, the raw constructor
    succeeds likewise, and no call, through [init] or not, fails with an
    "unexpected field" error. The two [provider] builtins build the same
    provider for [fields=[]] as for no [fields]. *)
Theorem C10_no_declared_fields
    (Call : Value -> list Value -> list (string * Value) -> result string Value) :
  (forall p : Provider,
      fields p = [] ->
      (init p = None ->
       forall kwargs,
         CallInternal Call p [] kwargs
         = Ok (mkProviderInstance p (insert_all kwargs ∅) false))
      /\ (forall kwargs,
            Builtins.CallInternal (Builtins.mkRaw p) [] kwargs
            = Ok (NewProviderInstance p (insert_all kwargs ∅)))
      /\ (forall args kwargs pn k,
            CallInternal Call p args kwargs <> Err (ErrUnexpectedField pn k)))
  /\ (forall doc init : Value,
        Builtins.Provider doc (VList []) init = Builtins.Provider doc VNone init)
  /\ (forall doc init : option Value,
        Eval.providerBuiltin doc (Some (VList [])) init
        = Eval.providerBuiltin doc None init).
Proof.
  split; [|split; reflexivity].
  intros p HF. repeat split.
  - intros Hi kwargs. rewrite CallInternal_no_init by exact Hi.
    rewrite HF, insert_checked_nil. reflexivity.
  - intros kwargs. rewrite raw_CallInternal_kwargs. simpl.
    rewrite HF, insert_checked_nil. reflexivity.
  - intros args kwargs pn k. unfold CallInternal. rewrite HF.
    destruct (init p) as [f|].
    + destruct (Call f args kwargs) as [res|msg]; [|discriminate].
      destruct res; try discriminate.
      match goal with
      | |- (mbind _ (foldM ?g ?l ?m)) <> _ =>
          pose proof (init_items_nil (name p) l m pn k) as Hn;
          destruct (foldM g l m) as [vs|e]
      end; [discriminate|].
      intros Heq. apply Hn. simpl in Heq. injection Heq as ->. reflexivity.
    + destruct (0 <? length args)%nat; [discriminate|].
      fold (insert_checked [] (name p)). rewrite insert_checked_nil. discriminate.
Qed.

(** C10 applied to a provider without fields and the keyword [z=3]. *)
Lemma C10_no_declared_fields_witness :
  let P := NewProvider "" [] "" None in
  CallInternal (fun _ _ _ => Err "") P [] [("z", VInt 3)]
  = Ok (mkProviderInstance P (insert_all [("z", VInt 3)] ∅) false).
Proof.
  intros P.
  destruct (C10_no_declared_fields (fun _ _ _ => Err "")) as [H _].
  destruct (H P eq_refl) as [H1 _].
  apply (H1 eq_refl [("z", VInt 3)]).
Defined.

End ProviderClaims.

(** ** Rule classes: export and calls *)

Section RuleClassFacts.
Import RuleClass.

(** An error of a loop is an error of one of the calls of its body. *)
Lemma foldM_Err_inv {E A B : Type} (f : B -> A -> result E B) (l : list A) :
  forall b e, foldM f l b = Err e -> exists b' a, In a l /\ f b' a = Err e.
Proof.
  induction l as [|a l IH]; intros b e Hf; [discriminate|].
  cbn [foldM] in Hf. destruct (f b a) as [b1|e1] eqn:Hfa.
  - destruct (IH b1 e Hf) as [b' [a' [Hin Hfe]]].
    exists b', a'. split; [right; exact Hin|exact Hfe].
  - simpl in Hf. injection Hf as <-. exists b, a. split; [left; reflexivity|exact Hfa].
Qed.

Lemma CallInternal_unexported rc args kwargs :
  exported rc = false ->
  CallInternal rc args kwargs
  = Err (if (0 <? length args)%nat then ErrPositional (name rc) else ErrNotExported).
Proof.
  intros He. unfold CallInternal. rewrite He.
  destruct (0 <? length args)%nat; reflexivity.
Qed.

Lemma CallInternal_exported rc args kwargs :
  exported rc = true -> CallInternal rc args kwargs <> Err ErrNotExported.
Proof.
  intros He. unfold CallInternal. rewrite He.
  destruct (0 <? length args)%nat; [discriminate|]. simpl.
  match goal with
  | |- match foldM ?f ?l ?b with _ => _ end <> _ =>
      destruct (foldM f l b) as [[provided providedAttrs]|e] eqn:Hk
  end.
  - match goal with
    | |- match foldM ?f ?l ?b with _ => _ end <> _ =>
        destruct (foldM f l b) as [attrValues|e] eqn:Hd
    end.
    + destruct (attrValues !! "name") as [[]|]; discriminate.
    + apply foldM_Err_inv in Hd as [b' [a [_ Hd]]]. simpl in Hd.
      destruct (bool_decide _); [discriminate|].
      destruct (Mandatory a.2); [intros [=]; subst; discriminate|].
      destruct (Default a.2); discriminate.
  - apply foldM_Err_inv in Hk as [b' [a [_ Hk]]]. simpl in Hk.
    destruct (attrs rc !! a.1) as [attr|]; [|intros [=]; subst; discriminate].
    destruct (validateAttrValue attr a.2); [intros [=]; subst|]; discriminate.
Qed.

End RuleClassFacts.

(** ** Target registration *)

Section RegistrationFacts.
Import GoStrings RuleClass Eval.


Lemma RegisterTarget_registry th t :
  registry (RegisterTarget th t).2 = registry th
  \/ (registry th !! instance_name t = None
      /\ registry (RegisterTarget th t).2 = <[instance_name t := t]> (registry th)).
Proof.
  unfold RegisterTarget, registry, AddTarget.
  destruct th as [[pkg|] ts]; simpl.
  - destruct (Targets pkg !! instance_name t) eqn:Hl; simpl; [left; reflexivity|].
    right. split; reflexivity.
  - destruct ts as [ts|]; simpl; [|left; reflexivity].
    destruct (ts !! instance_name t) eqn:Hl; simpl; [left; reflexivity|].
    right. split; reflexivity.
Qed.

Lemma RegisterTarget_keyed th t :
  keyed_by_name (registry th) -> keyed_by_name (registry (RegisterTarget th t).2).
Proof.
  intros Hk. destruct (RegisterTarget_registry th t) as [->|[_ ->]]; [exact Hk|].
  intros k t' Hl. destruct (decide (instance_name t = k)) as [<-|Hne].
  - rewrite lookup_insert_eq in Hl. injection Hl as <-. reflexivity.
  - rewrite lookup_insert_ne in Hl by exact Hne. apply Hk, Hl.
Qed.

Lemma register_all_keyed l : forall th,
  keyed_by_name (registry th) -> keyed_by_name (registry (register_all th l)).
Proof.
  induction l as [|t l IH]; intros th Hk; [exact Hk|].
  apply IH, RegisterTarget_keyed, Hk.
Qed.

Lemma keyed_names_NoDup (m : gmap string RuleInstance) :
  keyed_by_name m -> NoDup (target_names m).
Proof.
  intros Hk. unfold target_names.
  assert (Heq : map (fun kt : string * RuleInstance => instance_name kt.2)
                  (map_to_list m) = (map_to_list m).*1).
  { apply map_ext_in. intros [k t] Hin. simpl.
    apply Hk. apply elem_of_map_to_list. apply list_elem_of_In. exact Hin. }
  rewrite Heq. apply NoDup_fst_map_to_list.
Qed.

End RegistrationFacts.

(** ** The claims about rule classes and targets *)

Section RuleClaims.
Import GoStrings RuleClass.

(** What holds of C1 on the operations of a rule class. A rule class is
    unnamed and unexported at its creation. [SetName], the operation of
    export, assigns the name and marks the rule class exported; it leaves
    the attributes and the [frozen] flag as they are, and [Freeze] leaves
    the name and the export flag as they are. A call of a rule class that
    is not exported fails (with "rule has not been exported by a bzl file"
    when there is no positional argument); a call of an exported rule
    class never fails for that reason, and [my_rule(name = "t")] then
    yields the target [t]. Providers have no export state: a provider that
    was never named constructs an instance from keywords that are declared
    fields. *)
Lemma export_operations :
  (forall attrs executable test,
      name (NewRuleClass "" attrs executable test) = ""
      /\ exported (NewRuleClass "" attrs executable test) = false)
  /\ (forall rc X,
        name (SetName rc X) = X /\ exported (SetName rc X) = true
        /\ attrs (SetName rc X) = attrs rc /\ frozen (SetName rc X) = frozen rc)
  /\ (forall rc,
        name (Freeze rc) = name rc /\ exported (Freeze rc) = exported rc
        /\ frozen (Freeze rc) = true)
  /\ (forall rc args kwargs,
        exported rc = false ->
        CallInternal rc args kwargs
        = Err (if (0 <? length args)%nat then ErrPositional (name rc)
               else ErrNotExported))
  /\ (forall rc args kwargs,
        exported rc = true -> CallInternal rc args kwargs <> Err ErrNotExported)
  /\ (let my_rule := SetName (NewRuleClass "" ∅ false false) "my_rule" in
      exists inst,
        CallInternal my_rule [] [("name", VString "t")] = Ok inst
        /\ instance_name inst = "t" /\ ruleClass inst = my_rule)
  /\ (forall Call F kwargs,
        Forall (fun kv : string * Value => In kv.1 F) kwargs ->
        let P := Provider.NewProvider "" F "" None in
        Provider.CallInternal Call P [] kwargs
        = Ok (Provider.mkProviderInstance P (Provider.insert_all kwargs ∅) false)).
Proof.
  split; [intros; split; reflexivity|].
  split; [intros; repeat split|].
  split; [intros; repeat split|].
  split; [exact CallInternal_unexported|].
  split; [exact CallInternal_exported|].
  split.
  - simpl. eexists. split; [vm_compute; reflexivity|]. split; reflexivity.
  - intros Call F kwargs Hall P.
    rewrite CallInternal_no_init by reflexivity.
    simpl. rewrite insert_checked_declared by exact Hall. reflexivity.
Qed.

(** The rule class of [RuleBuiltin] is unnamed and unexported. *)
Lemma RuleBuiltin_unexported test attrs executable rc :
  RuleBuiltin test attrs executable = Ok rc -> name rc = "" /\ exported rc = false.
Proof.
  unfold RuleBuiltin. intros Hb.
  destruct (match attrs with None => _ | Some _ => _ end) as [attrMap|e];
    [|discriminate].
  injection Hb as <-. split; reflexivity.
Qed.

(** The [rule] of a [.bzl] file is [RuleBuiltin], unless the options of
    the evaluator replace it. *)
Lemma New_predeclares_rule (loader_BzlLoader loader_Loader : Type)
    (opts : Eval.Options loader_BzlLoader loader_Loader) :
  Eval.PredeclaredBzl opts !! "rule" = None ->
  Eval.predeclaredBzl (Eval.New opts) !! "rule"
  = Some (Eval.NewBuiltin "rule" Eval.types_RuleBuiltin).
Proof.
  intros Hno. cbn [Eval.New Eval.predeclaredBzl].
  rewrite lookup_union, Hno. vm_compute. reflexivity.
Qed.

(** C1 at the evaluator. [EvalBzl] hands the module to the interpreter
    and returns the globals as the interpreter leaves them: it assigns no
    name, and nothing in the repository calls [SetName]. The interpreter
    binds a top-level identifier [X] to the value that [rule()] returned,
    the rule class of [RuleBuiltin], and freezes the globals when the
    module ends. So, in the result of [EvalBzl], the rule class bound to
    [X] is still unnamed and unexported, and every call of it fails, with
    "rule has not been exported by a bzl file" when there is no positional
    argument. *)
Theorem C1_evaluator_does_not_export
    (loader_BzlLoader loader_Loader : Type) (Dir : string -> string)
    (ExecFile : Eval.BzlThread loader_BzlLoader -> string -> string ->
                gmap string Eval.DictValue ->
                gmap string Eval.DictValue * option string)
    (e : Eval.Evaluator loader_BzlLoader loader_Loader)
    (path source X : string)
    (test executable : bool) (attrs : option (list (Value * Value)))
    (rc : RuleClass) (globals : gmap string Eval.DictValue) :
  RuleBuiltin test attrs executable = Ok rc ->
  ExecFile (Eval.newThread Dir e path) path source (Eval.predeclaredBzl e)
  = (globals, None) ->
  globals !! X = Some (Eval.ORuleClass rc)
  \/ globals !! X = Some (Eval.ORuleClass (Freeze rc)) ->
  exists rc',
    Eval.EvalBzl Dir ExecFile e path source = Ok (Eval.mkBzlResult globals)
    /\ globals !! X = Some (Eval.ORuleClass rc')
    /\ name rc' = "" /\ exported rc' = false
    /\ (forall kwargs, CallInternal rc' [] kwargs = Err ErrNotExported)
    /\ (forall args kwargs, is_ok (CallInternal rc' args kwargs) = false).
Proof.
  intros Hb Hx Hg. apply RuleBuiltin_unexported in Hb as [Hn He].
  assert (Hr : exists rc', globals !! X = Some (Eval.ORuleClass rc')
                           /\ name rc' = "" /\ exported rc' = false).
  { destruct Hg as [Hg|Hg]; [exists rc|exists (Freeze rc)]; auto. }
  destruct Hr as (rc' & Hl & Hn' & He'). exists rc'.
  split; [unfold Eval.EvalBzl; rewrite Hx; reflexivity|].
  split; [exact Hl|]. split; [exact Hn'|]. split; [exact He'|]. split.
  - intros kwargs. rewrite (CallInternal_unexported rc' [] kwargs He'). reflexivity.
  - intros args kwargs. rewrite (CallInternal_unexported rc' args kwargs He').
    reflexivity.
Qed.

(** C1 applied to a module at [/pkg/defs.bzl] that defines [_impl] and
    binds [my_rule] to [rule(implementation = _impl)], with an evaluator
    without options: the interpreter calls the [rule] of the predeclared
    environment, binds [my_rule] to the rule class, and freezes it. *)
Lemma C1_evaluator_does_not_export_witness :
  let source := "def _impl(ctx): pass" +:+ String (ascii_of_nat 10)
                  "my_rule = rule(implementation = _impl)" in
  let Dir := fun _ : string => "/pkg" in
  let e := Eval.New (Eval.mkOptions (None : option unit) (None : option unit) ∅ ∅) in
  let ExecFile :=
    fun (_ : Eval.BzlThread unit) (_ _ : string)
        (predeclared : gmap string Eval.DictValue) =>
      match predeclared !! "rule" with
      | Some (Eval.NewBuiltin _ Eval.types_RuleBuiltin) =>
          match RuleClass.RuleBuiltin false None false with
          | Ok rc =>
              (({["my_rule" := Eval.ORuleClass (RuleClass.Freeze rc)]}
                : gmap string Eval.DictValue), @None string)
          | Err _ => (∅, Some "panic")
          end
      | _ => (∅, Some "undefined: rule")
      end in
  exists (globals : gmap string Eval.DictValue) (rc' : RuleClass.RuleClass),
    Eval.EvalBzl Dir ExecFile e "/pkg/defs.bzl" source = Ok (Eval.mkBzlResult globals)
    /\ globals !! "my_rule" = Some (Eval.ORuleClass rc')
    /\ RuleClass.name rc' = "" /\ RuleClass.exported rc' = false
    /\ (forall kwargs, RuleClass.CallInternal rc' [] kwargs = Err RuleClass.ErrNotExported)
    /\ (forall args kwargs, is_ok (RuleClass.CallInternal rc' args kwargs) = false).
Proof.
  intros source Dir e ExecFile.
  exists {["my_rule" :=
             Eval.ORuleClass
               (RuleClass.Freeze (RuleClass.NewRuleClass "" ∅ false false))]}.
  apply (C1_evaluator_does_not_export unit unit Dir ExecFile e
           "/pkg/defs.bzl" source "my_rule"
           false false None (RuleClass.NewRuleClass "" ∅ false false)).
  - reflexivity.
  - vm_compute. reflexivity.
  - right. apply lookup_singleton_eq.
Defined.

Import Eval.

(** C4. Registering a target whose name is already registered fails with
    a "duplicate target name" error and leaves the registry as it was,
    for [Package.AddTarget] and for [RegisterTarget] with either registry;
    and the names of the targets accumulated by any sequence of
    registrations that starts from an empty registry are pairwise
    distinct. *)
Theorem C4_duplicate_target_names :
  (forall p name t t0,
      Targets p !! name = Some t0 ->
      AddTarget p name t = (Some (ErrDuplicateInPackage name (Name p)), p))
  /\ (forall th t t0,
        registry th !! instance_name t = Some t0 ->
        exists e,
          RegisterTarget th t = (Some e, th)
          /\ HasPrefix (Eval.Error e) "duplicate target name" = true)
  /\ (forall th l,
        registry th = ∅ -> NoDup (target_names (registry (register_all th l)))).
Proof.
  split; [|split].
  - intros p name t t0 Hl. unfold AddTarget. rewrite Hl. reflexivity.
  - intros th t t0 Hl. unfold registry in Hl. unfold RegisterTarget, AddTarget.
    destruct th as [[pkg|] ts]; simpl in *.
    + rewrite Hl. eexists. split; [reflexivity|reflexivity].
    + destruct ts as [ts|]; simpl in Hl; [|rewrite lookup_empty in Hl; discriminate].
      rewrite Hl. eexists. split; reflexivity.
  - intros th l He. apply keyed_names_NoDup, register_all_keyed.
    rewrite He. intros k t Hl. rewrite lookup_empty in Hl. discriminate.
Qed.

(** C4 applied to the registry that [EvalBuild] installs and two targets
    named [t]. *)
Lemma C4_duplicate_target_names_witness :
  let rc := SetName (NewRuleClass "" ∅ false false) "my_rule" in
  let t := mkRuleInstance rc "t" ∅ in
  let th := mkThread None (Some {["t" := t]}) in
  (exists e, RegisterTarget th t = (Some e, th)
             /\ HasPrefix (Eval.Error e) "duplicate target name" = true)
  /\ NoDup (target_names (registry (register_all (mkThread None (Some ∅)) [t; t]))).
Proof.
  intros rc t th. destruct C4_duplicate_target_names as (_ & H2 & H3).
  split.
  - apply (H2 th t t). reflexivity.
  - apply (H3 (mkThread None (Some ∅)) [t; t]). reflexivity.
Defined.

End RuleClaims.

(** ** The loader: load cycles *)

Section LoaderClaims.
Import GoStrings Loader.
Variable Join : list string -> string.
Variable ReadFile : string -> result string string.
Variable ExecFile :
  Thread -> string -> string -> gmap string loadEntry ->
  result string Globals * gmap string loadEntry.

Lemma on_stack (label : string) (stack : list string) :
  In label stack -> existsb (fun entry => String.eqb entry label) stack = true.
Proof.
  intros Hin. apply existsb_exists. exists label.
  split; [exact Hin|apply String.eqb_refl].
Qed.

(** The resolution of a module does not read the cache. *)
Lemma resolveModule_with_cache l c th module :
  resolveModule Join (with_cache l c) th module = resolveModule Join l th module.
Proof. reflexivity. Qed.

(** C3. When the canonical label that a module resolves to is on the load
    stack of the calling thread, [Load] returns a [CycleError] that carries
    the stack with the label appended, and whose message lists these
    labels in order; the loader, and so its cache, is as before; and the
    outcome is the same whatever the cache holds, because the stack is
    checked before the cache is read. *)
Theorem C3_load_cycle (l : BzlFileLoader) (th : Thread) (module label path : string) :
  resolveModule Join l th module = Ok (label, path) ->
  In label (loadStack th) ->
  Load Join ReadFile ExecFile l th module
  = (Returns (Err (CycleError module (loadStack th ++ [label]))), l)
  /\ Error (CycleError module (loadStack th ++ [label]))
     = "Starlark load cycle: [" +:+ GoStrings.Join (loadStack th ++ [label]) " " +:+ "]"
  /\ forall c : gmap string loadEntry,
       Load Join ReadFile ExecFile (with_cache l c) th module
       = (Returns (Err (CycleError module (loadStack th ++ [label]))),
          with_cache l c).
Proof.
  intros Hres Hin. split; [|split].
  - unfold Load. rewrite Hres, on_stack by exact Hin. reflexivity.
  - reflexivity.
  - intros c. unfold Load.
    rewrite resolveModule_with_cache, Hres, on_stack by exact Hin. reflexivity.
Qed.

End LoaderClaims.

(** C3 applied to [a.bzl], loaded again while [b.bzl] is loaded from it. *)
Lemma C3_load_cycle_witness :
  let Join := fun parts =>
    GoStrings.Join (List.filter (fun p => negb (String.eqb p "")) parts) "/" in
  let ReadFile := fun _ : string => @Err string string "" in
  let ExecFile := fun (_ : Loader.Thread) (_ _ : string)
                      (c : gmap string Loader.loadEntry) =>
                    (@Err string Loader.Globals "", c) in
  let l := Loader.mkLoader "/ws" ∅ ∅ in
  let th := Loader.mkThread "" "" ["//:a.bzl"; "//:b.bzl"] in
  Loader.Load Join ReadFile ExecFile l th "//:a.bzl"
  = (Loader.Returns
       (Err (Loader.CycleError "//:a.bzl" ["//:a.bzl"; "//:b.bzl"; "//:a.bzl"])), l)
  /\ Loader.Error (Loader.CycleError "//:a.bzl" ["//:a.bzl"; "//:b.bzl"; "//:a.bzl"])
     = "Starlark load cycle: [//:a.bzl //:b.bzl //:a.bzl]".
Proof.
  intros Join ReadFile ExecFile l th.
  destruct (C3_load_cycle Join ReadFile ExecFile l th "//:a.bzl" "//:a.bzl"
              "/ws/a.bzl") as (H1 & H2 & _).
  - vm_compute. reflexivity.
  - simpl. left. reflexivity.
  - split; [exact H1|exact H2].
Defined.

(** ** Labels *)

Section LabelClaims.
Import GoStrings Label.

Lemma ParseLabel_rest_ok (r s : string) :
  HasPrefix s "//" = true ->
  is_ok
    (if negb (HasPrefix s "//") then Err (ErrMustStart s)
     else
       let s := from 2 s in
       match LastIndex s ":" with
       | Some idx => Ok (mkLabel r (upto idx s) (from (idx + 1) s) false)
       | None =>
           Ok (mkLabel r s
                 (match LastIndex s "/" with
                  | Some idx => from (idx + 1) s
                  | None => s
                  end) false)
       end) = true.
Proof.
  intros ->. cbn [negb]. cbv zeta.
  destruct (LastIndex (from 2 s) ":"); reflexivity.
Qed.

(** C6, as the code has it. [ParseLabel] fails when an [@repo] prefix is
    not followed by [//], and when a string without that prefix does not
    start with [//]; it succeeds on every other string, and validates
    neither the name nor the path: [//pkg:] parses with an empty name and
    [//a/../b:t] with a [..] segment. [ParseLabelRelative] of a string
    that starts with neither [@] nor [//] always succeeds, the string
    without its leading colon being the name. *)
Theorem C6_label_parsing :
  (forall s,
      HasPrefix s "@" = true -> Index s "//" = None ->
      ParseLabel s = Err (ErrMissingSlashes s))
  /\ (forall s,
        is_ok (ParseLabel s)
        = if HasPrefix s "@" then Contains s "//" else HasPrefix s "//")
  /\ (forall s r p,
        HasPrefix s "@" = false -> HasPrefix s "//" = false ->
        ParseLabelRelative s r p
        = Ok (mkLabel r p (if HasPrefix s ":" then from 1 s else s) false))
  /\ ParseLabel "//pkg:" = Ok (mkLabel "" "pkg" "" false)
  /\ ParseLabel "//a/../b:t" = Ok (mkLabel "" "a/../b" "t" false)
  /\ ParseLabelRelative ":" "" "pkg" = Ok (mkLabel "" "pkg" "" false).
Proof.
  split; [|split; [|split; [|repeat split]]].
  - intros s Hat Hidx. unfold ParseLabel. rewrite Hat, Hidx. reflexivity.
  - intros s. unfold ParseLabel, Contains.
    destruct (HasPrefix s "@") eqn:Hat.
    + destruct (Index s "//") as [idx|] eqn:Hidx; [|reflexivity].
      cbn [mbind result_bind]. apply ParseLabel_rest_ok.
      apply Index_Some, Hidx.
    + cbn [mbind result_bind]. pose proof (ParseLabel_rest_ok "" s) as Hok.
      destruct (HasPrefix s "//"); [apply Hok; reflexivity|reflexivity].
  - intros s r p Hat Hs. unfold ParseLabelRelative. rewrite Hat, Hs.
    destruct (HasPrefix s ":"); reflexivity.
Qed.

(** The statement of C6 fails on [//pkg:], which parses with an empty
    name, and on [//a/../b:t], which parses with a [..] segment. *)
Lemma C6_counterexample :
  (exists l, ParseLabel "//pkg:" = Ok l /\ name l = "")
  /\ (exists l, ParseLabel "//a/../b:t" = Ok l /\ has_dotdot_segment (pkg l) = true).
Proof. split; eexists; split; reflexivity. Qed.

(** C6 applied to a label with a repository and no [//]. *)
Lemma C6_label_parsing_witness :
  ParseLabel "@repo/pkg:t" = Err (ErrMissingSlashes "@repo/pkg:t")
  /\ ParseLabelRelative "t" "r" "p" = Ok (mkLabel "r" "p" "t" false).
Proof.
  destruct C6_label_parsing as (H1 & _ & H3 & _).
  split.
  - apply (H1 "@repo/pkg:t"); reflexivity.
  - apply (H3 "t" "r" "p"); reflexivity.
Defined.

End LabelClaims.

(** ** [glob]: the recursive walk *)

Section GlobFacts.
Import GoStrings Native.
Variable root : Node.
Variable Match : string -> string -> bool.
Variable Glob : string -> list (list string * Node).
Variable hasBuildFile : Node -> bool.
Variable includeDirs : bool.
Variable suffix : string.


Lemma walkFn_found elements isStart n r :
  In r (walkFn Match hasBuildFile includeDirs suffix elements isStart n).1 ->
  r = rel_path elements /\ r <> "."
  /\ (IsDir n = true ->
      includeDirs = true /\ (isStart = true \/ hasBuildFile n = false))
  /\ (suffix <> "" -> Match suffix (node_name n) = true).
Proof.
  unfold walkFn.
  destruct (String.eqb (rel_path elements) ".") eqn:Hdot; [intros []|].
  destruct (IsDir n && hasBuildFile n && negb isStart) eqn:Hsub; [intros []|].
  destruct (IsDir n && negb includeDirs) eqn:Hinc; [intros []|].
  destruct (negb (String.eqb suffix "") && negb (Match suffix (node_name n)))
    eqn:Hsuf; [intros []|].
  intros [<-|[]].
  split; [reflexivity|]. split; [apply String.eqb_neq, Hdot|]. split.
  - intros Hd. rewrite Hd in Hsub, Hinc. cbn [andb] in Hsub, Hinc.
    apply negb_false_iff in Hinc. split; [exact Hinc|].
    destruct (hasBuildFile n); [|right; reflexivity].
    cbn [andb] in Hsub. apply negb_false_iff in Hsub. left. exact Hsub.
  - intros Hs. apply String.eqb_neq in Hs. rewrite Hs in Hsuf.
    cbn [andb negb] in Hsuf. apply negb_false_iff in Hsuf. exact Hsuf.
Qed.

Lemma walkFn_enter elements isStart n :
  (walkFn Match hasBuildFile includeDirs suffix elements isStart n).2 = Continue ->
  rel_path elements = "." \/ isStart = true \/ IsDir n = false
  \/ hasBuildFile n = false.
Proof.
  unfold walkFn.
  destruct (String.eqb (rel_path elements) ".") eqn:Hdot;
    [left; apply String.eqb_eq, Hdot|].
  destruct (IsDir n); [|auto]. destruct (hasBuildFile n); [|auto].
  destruct isStart; [auto|]. discriminate.
Qed.

Lemma Walk_unfold elements isStart n :
  Walk Match hasBuildFile includeDirs suffix elements isStart n =
  let '(found, act) :=
    walkFn Match hasBuildFile includeDirs suffix elements isStart n in
  match n, act with
  | Dir _ entries, Continue =>
      found ++ flat_map
                 (fun c => Walk Match hasBuildFile includeDirs suffix
                             (elements ++ [node_name c]) false c)
                 entries
  | _, _ => found
  end.
Proof. destruct n; reflexivity. Qed.


Lemma rel_path_snoc (elements : list string) (name : string) :
  name <> "." -> rel_path (elements ++ [name]) <> ".".
Proof.
  intros Hn. destruct elements as [|e rest]; [exact Hn|].
  assert (Hj : rel_path ((e :: rest) ++ [name])
               = e +:+ "/" +:+ Join (rest ++ [name]) "/").
  { destruct rest; reflexivity. }
  rewrite Hj. destruct e as [|c [|c' e']]; discriminate.
Qed.

(** Every path that the walk returns is the path of a node that is
    reached without entering a directory with a BUILD file other than the
    start directory; the node is not such a directory either, it is a
    directory only when directories are included, its name matches the
    suffix, and its path is not that of the package directory. No entry of
    a directory is named with a single dot. *)
Lemma Walk_sound (n : Node) :
  forall elements isStart r,
    names_ok n = true ->
    (rel_path elements = "." -> isStart = true) ->
    In r (Walk Match hasBuildFile includeDirs suffix elements isStart n) ->
    exists path m,
      reached hasBuildFile n isStart path m
      /\ r = rel_path (elements ++ path) /\ r <> "."
      /\ (IsDir m = true ->
          includeDirs = true
          /\ ((isStart = true /\ path = []) \/ hasBuildFile m = false))
      /\ (suffix <> "" -> Match suffix (node_name m) = true).
Proof.
  induction n as [name|name entries IH] using Node_nested_ind;
    intros elements isStart r Hok Hwf Hin; rewrite Walk_unfold in Hin.
  - destruct (walkFn _ _ _ _ _ _ (File name)) as [found act] eqn:Hfn.
    assert (Hr : In r found) by (destruct act; exact Hin).
    change found with (found, act).1 in Hr. rewrite <- Hfn in Hr.
    apply walkFn_found in Hr as (-> & Hdot & Hdir & Hsuf).
    exists [], (File name). rewrite app_nil_r.
    repeat split; auto using reached_here; discriminate.
  - destruct (walkFn _ _ _ _ _ _ (Dir name entries)) as [found act] eqn:Hfn.
    assert (Hcases : In r found \/
      (act = Continue /\
       In r (flat_map (fun c => Walk Match hasBuildFile includeDirs suffix
                                  (elements ++ [node_name c]) false c) entries))).
    { destruct act; [|left; exact Hin].
      apply in_app_or in Hin as [Hin|Hin]; [left; exact Hin|right; auto]. }
    destruct Hcases as [Hr|[Hact Hr]].
    + change found with (found, act).1 in Hr. rewrite <- Hfn in Hr.
      apply walkFn_found in Hr as (-> & Hdot & Hdir & Hsuf).
      exists [], (Dir name entries). rewrite app_nil_r.
      split; [apply reached_here|]. split; [reflexivity|]. split; [exact Hdot|].
      split; [|exact Hsuf].
      intros Hd. destruct (Hdir Hd) as [Hi [Hs|Hb]]; auto.
    + assert (Henter : isStart = true \/ hasBuildFile (Dir name entries) = false).
      { pose proof (walkFn_enter elements isStart (Dir name entries)) as He.
        rewrite Hfn in He. destruct (He Hact) as [Hd|[Hs|[Hd|Hb]]]; auto.
        discriminate. }
      apply in_flat_map in Hr as [c [Hc Hr]].
      rewrite Forall_forall in IH.
      simpl in Hok. rewrite forallb_forall in Hok.
      specialize (Hok c Hc). apply andb_true_iff in Hok as [Hname Hokc].
      apply negb_true_iff in Hname.
      destruct (String.eqb_spec (node_name c) ".") as [|Hname']; [discriminate|].
      apply list_elem_of_In in Hc as Hc'.
      destruct (IH c Hc' (elements ++ [node_name c]) false r Hokc) as
        (path & m & Hreach & Hr' & Hdot & Hdir & Hsuf); [|exact Hr|].
      { intros Hd. exfalso. revert Hd. apply rel_path_snoc, Hname'. }
      exists (node_name c :: path), m.
      split; [eapply reached_below; eauto|].
      rewrite <- app_assoc in Hr'. simpl in Hr'.
      split; [exact Hr'|]. split; [exact Hdot|]. split; [|exact Hsuf].
      intros Hd. destruct (Hdir Hd) as [Hi [[Hf _]|Hb]]; [discriminate|auto].
Qed.

Lemma find_node_names_ok (path : list string) :
  forall n m, names_ok n = true -> find_node n path = Some m -> names_ok m = true.
Proof.
  induction path as [|e path IH]; intros n m Hok Hf; simpl in Hf.
  - injection Hf as <-. exact Hok.
  - destruct n as [|name entries]; [discriminate|].
    destruct (find (fun c => String.eqb (node_name c) e) entries) as [c|] eqn:Hc;
      [|discriminate].
    apply find_some in Hc as [Hin _]. simpl in Hok.
    rewrite forallb_forall in Hok. specialize (Hok c Hin).
    apply andb_true_iff in Hok as [_ Hok]. eapply IH; eassumption.
Qed.

(** The paths that [matchRecursivePattern] returns lie below the prefix
    directory, where the walk is rooted. *)
Lemma matchRecursivePattern_sound (ctx : PackageContext) (pattern r : string) :
  names_ok root = true ->
  suffix = TrimPrefix (split_recursive pattern).2 "/" ->
  In r (matchRecursivePattern root Match ctx pattern includeDirs hasBuildFile) ->
  let prefix := TrimSuffix (split_recursive pattern).1 "/" in
  let start := if String.eqb prefix "" then [] else clean_elements prefix in
  exists n path m,
    find_node root start = Some n
    /\ reached hasBuildFile n true path m
    /\ r = rel_path (start ++ path) /\ r <> "."
    /\ (IsDir m = true ->
        includeDirs = true /\ (path = [] \/ hasBuildFile m = false))
    /\ (suffix <> "" -> Match suffix (node_name m) = true).
Proof.
  intros Hok Hsuf Hin prefix start. unfold matchRecursivePattern in Hin.
  destruct (split_recursive pattern) as [pre suf] eqn:Hsplit.
  simpl in Hsuf, prefix. fold prefix in Hin. fold start in Hin.
  destruct (find_node root start) as [n|] eqn:Hfind; [|destruct Hin].
  rewrite <- Hsuf in Hin.
  destruct (Walk_sound n start true r) as (path & m & Hreach & Hr & Hdot & Hdir & Hm).
  - eapply find_node_names_ok; eassumption.
  - reflexivity.
  - exact Hin.
  - exists n, path, m. repeat split; auto.
    + apply Hdir. assumption.
    + destruct (Hdir H) as [_ [[_ Hp]|Hb]]; auto.
Qed.

End GlobFacts.

(** ** The claim about [glob] *)

Section GlobClaims.
Import GoStrings Native.

#[local] Instance string_le_total : Total string_le.
Proof. intros a b. unfold string_le. apply String.leb_total. Qed.

(** The list that [glob] returns is a sorted list in which the entries
    that begin with [@] have got a colon in front. *)
Lemma glob_sorted_then_prefixed root Match Glob ctx include exclude excludeDirs
    allowEmpty l :
  glob root Match Glob ctx include exclude excludeDirs allowEmpty = Ok l ->
  exists sorted,
    Sorted string_le sorted
    /\ l = map (fun m => if HasPrefix m "@" then ":" +:+ m else m) sorted.
Proof.
  unfold glob. intros Hg. destruct ctx as [ctx|]; [|discriminate].
  destruct (listToStrings include "glob include" 0) as [inc|]; [|discriminate].
  destruct (listToStrings exclude "glob exclude" 0) as [exc|]; [|discriminate].
  cbn [mbind result_bind] in Hg.
  destruct (negb _); [discriminate|].
  destruct (match allowEmpty with VNone => _ | _ => _ end) as [allow|];
    [|discriminate].
  cbn [mbind result_bind] in Hg.
  destruct (executeGlob _ _ _ _ _ _ _) as [matches|]; [|discriminate].
  cbn [mbind result_bind] in Hg.
  destruct (negb allow && _); [discriminate|]. injection Hg as <-.
  eexists. split; [|reflexivity]. apply Sorted_merge_sort. apply _.
Qed.

(** When no match begins with [@], the result is sorted. *)
Lemma glob_sorted_without_at root Match Glob ctx include exclude excludeDirs
    allowEmpty l :
  glob root Match Glob ctx include exclude excludeDirs allowEmpty = Ok l ->
  Forall (fun m => HasPrefix m ":@" = false) l ->
  Sorted string_le l.
Proof.
  intros Hg Hno. apply glob_sorted_then_prefixed in Hg as [sorted [Hs ->]].
  assert (Hid : map (fun m => if HasPrefix m "@" then ":" +:+ m else m) sorted
                = sorted).
  { clear Hs. induction sorted as [|m sorted IH]; [reflexivity|].
    cbn [map] in *. apply Forall_cons in Hno as [Hm Hno]. rewrite (IH Hno).
    destruct (HasPrefix m "@") eqn:Hat; [|reflexivity].
    exfalso. pose proof (HasPrefix_split _ _ Hat) as Hsplit.
    rewrite Hsplit in Hm.
    change (":" +:+ ("@" +:+ from (String.length "@") m))
      with (":@" +:+ from 1 m) in Hm.
    rewrite HasPrefix_app in Hm. discriminate. }
  rewrite Hid. exact Hs.
Qed.

(** The scenario of the specification: with [foo.cc], [sub/BUILD] and
    [sub/bar.cc] in the package, [glob(["**/*.cc"])] is [["foo.cc"]]. *)
Lemma glob_subpackage_example (Glob : string -> list (list string * Node)) :
  let pkg :=
    Dir "pkg" [File "BUILD"; File "foo.cc";
               Dir "sub" [File "BUILD"; File "bar.cc"]] in
  let ctx := mkContext "pkg" "" "/ws/pkg" None in
  glob pkg star_match Glob (Some ctx) [VString "**/*.cc"] [] 1 VNone
  = Ok ["foo.cc"].
Proof. vm_compute. reflexivity. Qed.

(** C8 at the input on which the result is not sorted: a package with the
    files [=a], [@b] and [BUILD]. [glob(["**"])] sorts the matches and
    then puts a colon in front of [@b], so that the list it returns,
    [["=a", ":@b", "BUILD"]], is not in order: [":@b"] sorts before
    ["=a"]. *)
Theorem C8_glob_prefixes_after_sorting
    (Match : string -> string -> bool)
    (Glob : string -> list (list string * Node)) :
  let pkg := Dir "pkg" [File "=a"; File "@b"; File "BUILD"] in
  let ctx := mkContext "pkg" "" "/ws/pkg" None in
  glob pkg Match Glob (Some ctx) [VString "**"] [] 1 VNone
  = Ok ["=a"; ":@b"; "BUILD"]
  /\ ~ Sorted string_le ["=a"; ":@b"; "BUILD"].
Proof.
  split.
  - vm_compute. reflexivity.
  - intros Hs. apply Sorted_inv in Hs as [_ Hhd].
    apply HdRel_inv in Hhd. discriminate.
Qed.

End GlobClaims.

(** * Part III: further properties of the code *)

(** ** Slices, first and last occurrences *)

Section StringSlices.
Import GoStrings.

Lemma app_String c (s t : string) : String c s +:+ t = String c (s +:+ t).
Proof. reflexivity. Qed.

Lemma app_assoc_s (a b c : string) : (a +:+ b) +:+ c = a +:+ (b +:+ c).
Proof. induction a as [|x a IH]; [reflexivity|]. rewrite !app_String, IH. reflexivity. Qed.

Lemma upto_app (p r : string) : upto (String.length p) (p +:+ r) = p.
Proof.
  induction p as [|c p IH]; [destruct r; reflexivity|].
  rewrite app_String. cbn [String.length upto]. f_equal. exact IH.
Qed.

Lemma from_app (p r : string) : from (String.length p) (p +:+ r) = r.
Proof.
  induction p as [|c p IH]; [reflexivity|].
  rewrite app_String. cbn [String.length from]. exact IH.
Qed.

Lemma upto_from (i : nat) (s : string) : upto i s +:+ from i s = s.
Proof.
  revert s. induction i as [|i IH]; intros s; [reflexivity|].
  destruct s as [|c s]; [reflexivity|]. simpl. rewrite app_String, IH. reflexivity.
Qed.

Lemma from_from (i j : nat) (s : string) : from i (from j s) = from (j + i) s.
Proof.
  revert s. induction j as [|j IH]; intros s; [reflexivity|].
  destruct s as [|c s]; simpl; [destruct i; reflexivity|]. apply IH.
Qed.

Lemma Index_le (s sep : string) (i : nat) :
  Index s sep = Some i -> i <= String.length s.
Proof.
  revert i. induction s as [|c s IH]; intros i H; simpl in H.
  - destruct (HasPrefix "" sep); [|discriminate]. injection H as <-. simpl. lia.
  - destruct (HasPrefix (String c s) sep).
    + injection H as <-. lia.
    + destruct (Index s sep) as [j|]; [|discriminate]. injection H as <-.
      specialize (IH j eq_refl). simpl. lia.
Qed.

Lemma length_upto (i : nat) (s : string) :
  i <= String.length s -> String.length (upto i s) = i.
Proof.
  revert s. induction i as [|i IH]; intros s Hi; [reflexivity|].
  destruct s as [|c s]; simpl in *; [lia|]. f_equal. apply IH. lia.
Qed.

Lemma length_app_s (a b : string) :
  String.length (a +:+ b) = String.length a + String.length b.
Proof. induction a as [|c a IH]; [reflexivity|]. rewrite app_String. simpl. lia. Qed.

(** Beyond the length of the prefix, the string does not matter. *)
Lemma HasPrefix_app_long (a y sep : string) :
  String.length sep <= String.length a ->
  HasPrefix (a +:+ y) sep = HasPrefix a sep.
Proof.
  revert a. induction sep as [|c sep IH]; intros a Hl; [reflexivity|].
  destruct a as [|d a]; simpl in Hl; [lia|].
  rewrite app_String. simpl. rewrite IH by lia. reflexivity.
Qed.

(** The first occurrence of the separator stays the first one when what
    follows it is replaced. *)
Lemma Index_rebuild (s sep : string) (i : nat) (y : string) :
  Index s sep = Some i -> Index (upto i s +:+ sep +:+ y) sep = Some i.
Proof.
  revert i. induction s as [|c s IH]; intros i H.
  - simpl in H. destruct (HasPrefix "" sep) eqn:Hp; [|discriminate].
    injection H as <-. change (upto 0 "") with "". 
    change ("" +:+ sep +:+ y) with (sep +:+ y).
    destruct (sep +:+ y) eqn:E; simpl; rewrite <- E, HasPrefix_app; reflexivity.
  - simpl in H. destruct (HasPrefix (String c s) sep) eqn:Hp.
    + injection H as <-. change (upto 0 (String c s)) with "".
      change ("" +:+ sep +:+ y) with (sep +:+ y).
      destruct (sep +:+ y) eqn:E; simpl; rewrite <- E, HasPrefix_app; reflexivity.
    + destruct (Index s sep) as [j|] eqn:Hj; [|discriminate]. injection H as <-.
      specialize (IH j eq_refl).
      change (upto (S j) (String c s)) with (String c (upto j s)).
      rewrite app_String.
      assert (Hs : String c s = (String c (upto j s) +:+ sep) +:+ from (String.length sep) (from j s)).
      { rewrite app_assoc_s, app_String. f_equal.
        rewrite <- (HasPrefix_split (from j s) sep) by (apply Index_Some, Hj).
        symmetry. apply upto_from. }
      assert (Hlen : String.length sep <= String.length (String c (upto j s) +:+ sep)).
      { rewrite length_app_s. lia. }
      assert (Hq : HasPrefix (String c (upto j s +:+ sep +:+ y)) sep = false).
      { rewrite <- app_String, <- app_assoc_s.
        rewrite HasPrefix_app_long by exact Hlen.
        rewrite <- Hp. rewrite Hs at 1.
        rewrite (HasPrefix_app_long (String c (upto j s) +:+ sep)) by exact Hlen.
        reflexivity. }
      change (Index (String c (upto j s +:+ sep +:+ y)) sep)
        with (if HasPrefix (String c (upto j s +:+ sep +:+ y)) sep then Some 0
              else option_map S (Index (upto j s +:+ sep +:+ y) sep)).
      rewrite Hq, IH. reflexivity.
Qed.

Lemma LastIndex_colon_app (p n : string) :
  LastIndex n ":" = None -> LastIndex (p +:+ ":" +:+ n) ":" = Some (String.length p).
Proof.
  intros Hn. induction p as [|c p IH].
  - change ("" +:+ ":" +:+ n) with (String ":" n).
    cbn [LastIndex]. rewrite Hn. reflexivity.
  - rewrite app_String. cbn [LastIndex]. rewrite IH. reflexivity.
Qed.

Lemma LastIndex_None_from (s sep : string) (n : nat) :
  sep <> "" -> LastIndex s sep = None -> LastIndex (from n s) sep = None.
Proof.
  intros Hsep. revert n. induction s as [|c s IH]; intros n H.
  - destruct n; exact H.
  - destruct n; [exact H|]. simpl. apply IH.
    cbn [LastIndex] in H. destruct (LastIndex s sep); [discriminate|reflexivity].
Qed.

Lemma LastIndex_Some_from (s sep : string) (i : nat) :
  sep <> "" -> LastIndex s sep = Some i -> LastIndex (from (i + 1) s) sep = None.
Proof.
  intros Hsep. revert i. induction s as [|c s IH]; intros i H.
  - simpl in H. destruct sep; [congruence|discriminate].
  - cbn [LastIndex] in H. destruct (LastIndex s sep) as [j|] eqn:Hj.
    + injection H as <-. simpl. apply IH. reflexivity.
    + destruct (HasPrefix (String c s) sep); [|discriminate]. injection H as <-.
      simpl. change (from 0 s) with s. exact Hj.
Qed.

End StringSlices.

(** ** Labels: parsing the string form *)

Section LabelFacts.
Import GoStrings Label.

Lemma from_succ_app (p n : string) (c : ascii) :
  from (String.length p + 1) (p +:+ String c n) = n.
Proof.
  rewrite <- (from_from 1 (String.length p)), from_app. reflexivity.
Qed.

Lemma ParseLabel_String_gen (l : Label) :
  frozen l = false ->
  LastIndex (name l) ":" = None ->
  (repo l <> "" ->
   forall y, Index ("@" +:+ repo l +:+ "//" +:+ y) "//" = Some (S (String.length (repo l)))) ->
  ParseLabel (String_ l) = Ok l.
Proof.
  destruct l as [r p n f]. cbn [frozen name repo]. intros -> Hn Hr.
  unfold ParseLabel, String_. cbn [repo pkg name].
  destruct (String.eqb r "") eqn:Er.
  - apply String.eqb_eq in Er. subst r.
    change ("" +:+ "//" +:+ p +:+ ":" +:+ n) with (String "/" (String "/" (p +:+ ":" +:+ n))).
    change (HasPrefix (String "/" (String "/" (p +:+ ":" +:+ n))) "@") with false.
    cbn [mbind result_bind].
    change (HasPrefix (String "/" (String "/" (p +:+ ":" +:+ n))) "//") with true.
    cbn [negb]. cbv zeta.
    change (from 2 (String "/" (String "/" (p +:+ ":" +:+ n)))) with (p +:+ ":" +:+ n).
    rewrite (LastIndex_colon_app p n Hn), upto_app.
    change (":" +:+ n) with (String ":" n). rewrite from_succ_app. reflexivity.
  - apply String.eqb_neq in Er. specialize (Hr Er (p +:+ ":" +:+ n)).
    change (("@" +:+ r) +:+ "//" +:+ p +:+ ":" +:+ n)
      with ("@" +:+ r +:+ "//" +:+ p +:+ ":" +:+ n).
    rewrite Hr.
    change (HasPrefix ("@" +:+ r +:+ "//" +:+ p +:+ ":" +:+ n) "@") with true.
    cbn iota. cbn [mbind result_bind].
    change (slice 1 (S (String.length r)) ("@" +:+ r +:+ "//" +:+ p +:+ ":" +:+ n))
      with (upto (String.length r) (r +:+ "//" +:+ p +:+ ":" +:+ n)).
    change (from (S (String.length r)) ("@" +:+ r +:+ "//" +:+ p +:+ ":" +:+ n))
      with (from (String.length r) (r +:+ "//" +:+ p +:+ ":" +:+ n)).
    rewrite upto_app, from_app.
    change (HasPrefix ("//" +:+ p +:+ ":" +:+ n) "//") with true.
    cbn [negb]. cbv zeta.
    change (from 2 ("//" +:+ p +:+ ":" +:+ n)) with (p +:+ ":" +:+ n).
    rewrite (LastIndex_colon_app p n Hn), upto_app.
    change (":" +:+ n) with (String ":" n). rewrite from_succ_app. reflexivity.
Qed.

End LabelFacts.

Section LabelExtras.
Import GoStrings Label.

Lemma Index_None_LastIndex (s sep : string) :
  Index s sep = None -> LastIndex s sep = None.
Proof.
  induction s as [|c s IH]; intros H.
  - simpl in *. destruct (HasPrefix "" sep); [discriminate|reflexivity].
  - simpl in H. cbn [LastIndex].
    destruct (HasPrefix (String c s) sep); [discriminate|].
    destruct (Index s sep); [discriminate|]. rewrite IH; reflexivity.
Qed.

(** What the split of the package and the name leaves in the name. *)
Lemma ParseLabel_rest_name (r s : string) (l : Label) :
  match LastIndex s ":" with
  | Some idx => Ok (mkLabel r (upto idx s) (from (idx + 1) s) false)
  | None =>
      Ok (mkLabel r s
            (match LastIndex s "/" with
             | Some idx => from (idx + 1) s
             | None => s
             end) false)
  end = (Ok l : result error Label) ->
  frozen l = false /\ repo l = r /\ LastIndex (name l) ":" = None.
Proof.
  destruct (LastIndex s ":") as [idx|] eqn:Hc; intros H; injection H as <-;
    cbn [frozen repo name].
  - repeat split. apply LastIndex_Some_from; [discriminate|exact Hc].
  - repeat split. destruct (LastIndex s "/") as [idx|]; [|exact Hc].
    apply LastIndex_None_from; [discriminate|exact Hc].
Qed.

Lemma Index_at_repo (s' : string) (j : nat) (y : string) :
  Index s' "//" = Some j ->
  Index ("@" +:+ upto j s' +:+ "//" +:+ y) "//" = Some (S (String.length (upto j s'))).
Proof.
  intros Hj.
  change (Index ("@" +:+ upto j s' +:+ "//" +:+ y) "//")
    with (option_map S (Index (upto j s' +:+ "//" +:+ y) "//")).
  rewrite (Index_rebuild s' "//" j y Hj), length_upto by (eapply Index_le, Hj).
  reflexivity.
Qed.

Lemma ParseLabel_String_fixed (s : string) (l : Label) :
  ParseLabel s = Ok l -> ParseLabel (String_ l) = Ok l.
Proof.
  unfold ParseLabel. intros H.
  destruct (HasPrefix s "@") eqn:Hat.
  - destruct (Index s "//") as [idx|] eqn:Hidx; [|discriminate].
    cbn [mbind result_bind] in H.
    rewrite (Index_Some _ _ _ Hidx) in H. cbn [negb] in H. cbv zeta in H.
    apply ParseLabel_rest_name in H as (Hf & Hr & Hn).
    apply ParseLabel_String_gen; [exact Hf|exact Hn|].
    intros _ y. rewrite Hr.
    apply HasPrefix_split in Hat. change (String.length "@") with 1 in Hat.
    change ("@" +:+ from 1 s) with (String "@" (from 1 s)) in Hat.
    rewrite Hat in Hidx |- *.
    change (Index (String "@" (from 1 s)) "//")
      with (option_map S (Index (from 1 s) "//")) in Hidx.
    destruct (Index (from 1 s) "//") as [j|] eqn:Hj; [|discriminate].
    injection Hidx as <-.
    change (slice 1 (S j) (String "@" (from 1 s))) with (upto j (from 1 s)).
    apply Index_at_repo, Hj.
  - cbn [mbind result_bind] in H.
    destruct (HasPrefix s "//"); [|discriminate]. cbn [negb] in H. cbv zeta in H.
    apply ParseLabel_rest_name in H as (Hf & Hr & Hn).
    apply ParseLabel_String_gen; [exact Hf|exact Hn|].
    intros Hne. congruence.
Qed.

Lemma Index_no_slash (r y : string) :
  Contains r "/" = false ->
  Index (r +:+ "//" +:+ y) "//" = Some (String.length r).
Proof.
  unfold Contains. induction r as [|c r IH]; intros H; [reflexivity|].
  change (Index (String c r) "/")
    with (if Ascii.eqb "/" c && true then Some 0 else option_map S (Index r "/")) in H.
  destruct (Ascii.eqb "/" c) eqn:Ec; [discriminate|]. cbn [andb] in H.
  destruct (Index r "/") as [i|] eqn:Hi; [discriminate|].
  change (Index (String c r +:+ "//" +:+ y) "//")
    with (if Ascii.eqb "/" c && HasPrefix (r +:+ "//" +:+ y) "/" then Some 0
          else option_map S (Index (r +:+ "//" +:+ y) "//")).
  rewrite Ec. cbn [andb]. rewrite IH by reflexivity. reflexivity.
Qed.

(** X2. A label that [NewLabel] builds from a repository name without a
    slash and a target name without a colon is recovered by [ParseLabel]
    from its string form, whatever the package path is. *)
Theorem NewLabel_round_trip (repo pkg name : string) :
  Contains repo "/" = false -> Contains name ":" = false ->
  ParseLabel (String_ (NewLabel repo pkg name)) = Ok (NewLabel repo pkg name).
Proof.
  intros Hr Hn. apply ParseLabel_String_gen; cbn [NewLabel frozen Label.name Label.repo].
  - reflexivity.
  - apply Index_None_LastIndex. unfold Contains in Hn.
    destruct (Index name ":"); [discriminate|reflexivity].
  - intros _ y.
    change (Index ("@" +:+ repo +:+ "//" +:+ y) "//")
      with (option_map S (Index (repo +:+ "//" +:+ y) "//")).
    rewrite Index_no_slash by exact Hr. reflexivity.
Qed.

(** X3. [Label.CompareSameType] compares the string forms of the labels.
    On two labels that [ParseLabel] returned, [==] is true exactly when
    the labels have the same repository, package and name, and [!=] is
    false exactly then. *)
Theorem Label_equal_parsed (s1 s2 : string) (l1 l2 : Label) :
  ParseLabel s1 = Ok l1 -> ParseLabel s2 = Ok l2 ->
  (CompareSameType Syntax.EQL l1 l2 = Ok true <-> l1 = l2)
  /\ (CompareSameType Syntax.NEQ l1 l2 = Ok false <-> l1 = l2).
Proof.
  intros H1 H2.
  assert (Heq : Compare (String_ l1) (String_ l2) = Eq <-> l1 = l2).
  { unfold Compare. split.
    - intros Hc. apply String.compare_eq_iff in Hc.
      apply ParseLabel_String_fixed in H1, H2. rewrite Hc in H1. congruence.
    - intros ->. pose proof (String.compare_antisym (String_ l2) (String_ l2)) as Ha.
      destruct (String.compare (String_ l2) (String_ l2)); [reflexivity| |];
        discriminate Ha. }
  unfold CompareSameType.
  destruct (Compare (String_ l1) (String_ l2)); split; split; intros H;
    try (apply Heq; reflexivity); try reflexivity; try discriminate;
    apply Heq in H; discriminate.
Qed.

End LabelExtras.

Section LabelExtraTheorems.
Import GoStrings Label.

(** X1. The string form of a label that [ParseLabel] returned parses to
    that same label: [ParseLabel] after [Label.String] is the identity on
    parsed labels, so the canonical form [@repo//pkg:name] is stable under
    parsing and printing. *)
Theorem ParseLabel_String_stable (s : string) (l : Label) :
  ParseLabel s = Ok l -> ParseLabel (String_ l) = Ok l.
Proof. apply ParseLabel_String_fixed. Qed.

(** X1 applied to [@repo//a/b], whose name is the last path component. *)
Lemma ParseLabel_String_stable_witness :
  ParseLabel (String_ (mkLabel "repo" "a/b" "b" false))
  = Ok (mkLabel "repo" "a/b" "b" false).
Proof. apply (ParseLabel_String_stable "@repo//a/b"). reflexivity. Defined.

(** X2 applied to a label whose package path holds a colon. *)
Lemma NewLabel_round_trip_witness :
  ParseLabel (String_ (NewLabel "repo" "a:b/c" "t")) = Ok (NewLabel "repo" "a:b/c" "t").
Proof. apply NewLabel_round_trip; reflexivity. Defined.

(** X3 applied to [//a] and [//a:a], which parse to the same label. *)
Lemma Label_equal_parsed_witness :
  CompareSameType Syntax.EQL (mkLabel "" "a" "a" false) (mkLabel "" "a" "a" false) = Ok true
  <-> mkLabel "" "a" "a" false = mkLabel "" "a" "a" false.
Proof. apply (Label_equal_parsed "//a" "//a:a"); reflexivity. Defined.

End LabelExtraTheorems.

(** ** Depsets: emptiness and membership *)

Section DepsetMembers.
Import Depset.
Context {V : Type} `{HV : HostValue V}.

Lemma keep_first_nil_iff (l : list V) : keep_first [] l = [] <-> l = [].
Proof. destruct l; simpl; [tauto|]. split; discriminate. Qed.

Lemma isEmpty_unfold (d : Depset V) :
  isEmpty d = match direct d with
              | _ :: _ => false
              | [] => forallb isEmpty (transitive d)
              end.
Proof. destruct d. reflexivity. Qed.

Lemma visit_nil_iff (o : Order) (d : Depset V) :
  visit o d = [] <-> isEmpty d = true.
Proof.
  induction d as [o' ds ts ty IH] using Depset_nested_ind.
  rewrite visit_unfold, isEmpty_unfold. cbn [direct transitive].
  assert (Hts : flat_map (visit o) ts = [] <-> forallb isEmpty ts = true).
  { induction IH as [|t ts Ht _ IHts]; simpl; [tauto|].
    rewrite andb_true_iff, <- Ht, <- IHts. split.
    - intros E. apply app_eq_nil in E. exact E.
    - intros [-> ->]. reflexivity. }
  destruct ds as [|x ds].
  - rewrite app_nil_r. simpl. destruct (bool_decide (o = OrderPreorder)); exact Hts.
  - destruct (bool_decide (o = OrderPreorder)); split; try discriminate.
    intros E. apply app_eq_nil in E as [_ E]. discriminate.
Qed.

Lemma isEmpty_ToList_iff (d : Depset V) : isEmpty d = true <-> ToList d = [].
Proof.
  rewrite ToList_flatten. unfold flatten.
  destruct (order d).
  - rewrite keep_first_nil_iff. symmetry. apply visit_nil_iff.
  - rewrite keep_first_nil_iff. symmetry. apply visit_nil_iff.
  - rewrite keep_first_nil_iff. symmetry. apply visit_nil_iff.
  - rewrite <- (visit_nil_iff OrderPostorder), <- keep_first_nil_iff.
    split.
    + intros ->. reflexivity.
    + intros E. apply (f_equal (@rev V)) in E. rewrite rev_involutive in E. exact E.
Qed.

Lemma In_visit (o : Order) (d : Depset V) (x : V) :
  In x (visit o d)
  <-> In x (direct d) \/ exists t, In t (transitive d) /\ In x (visit o t).
Proof.
  rewrite visit_unfold.
  destruct (bool_decide (o = OrderPreorder)); rewrite in_app_iff, in_flat_map; tauto.
Qed.

Lemma In_visit_order (o o' : Order) (d : Depset V) (x : V) :
  In x (visit o d) -> In x (visit o' d).
Proof.
  revert x. induction d as [o1 ds ts ty IH] using Depset_nested_ind. intros x.
  rewrite !In_visit. cbn [direct transitive].
  intros [Hd|(t & Ht & Hx)]; [left; exact Hd|right].
  exists t. split; [exact Ht|].
  rewrite List.Forall_forall in IH. apply (IH t Ht), Hx.
Qed.

End DepsetMembers.

(** ** Depsets: when [Equal] is equality *)

Section DepsetLeibniz.
Import Depset.
Context {V : Type} `{HV : HostValue V}.
Hypothesis Equal_eq : forall x y : V, Equal x y = true <-> x = y.

Lemma duplicate_of_In (kept : list V) (x : V) :
  duplicate_of kept x = true <-> In x kept.
Proof.
  unfold duplicate_of. rewrite existsb_exists. split.
  - intros (v & Hv & Hc). apply andb_true_iff in Hc as [_ Hc].
    apply Equal_eq in Hc. subst v. exact Hv.
  - intros Hx. exists x. split; [exact Hx|].
    apply andb_true_iff. split; [apply Z.eqb_refl|apply Equal_eq; reflexivity].
Qed.

Lemma keep_first_members (l : list V) : forall kept,
  List.NoDup kept ->
  List.NoDup (kept ++ keep_first kept l)
  /\ (forall x, In x (kept ++ keep_first kept l) <-> In x kept \/ In x l).
Proof.
  induction l as [|y l IH]; intros kept Hk; simpl.
  - rewrite app_nil_r. split; [exact Hk|]. intros x. tauto.
  - destruct (duplicate_of kept y) eqn:Hd.
    + apply duplicate_of_In in Hd. destruct (IH kept Hk) as [Hn Hm].
      split; [exact Hn|]. intros x. rewrite Hm. split; [tauto|].
      intros [Hx|[<-|Hx]]; tauto.
    + assert (Hy : ~ In y kept).
      { intros Hy. apply duplicate_of_In in Hy. congruence. }
      assert (Hk' : List.NoDup (kept ++ [y])).
      { apply List.NoDup_app; [exact Hk|repeat constructor; intros []|].
        intros z Hz [<-|[]]. exact (Hy Hz). }
      destruct (IH (kept ++ [y]) Hk') as [Hn Hm].
      rewrite <- app_assoc in Hn, Hm. simpl in Hn, Hm.
      split; [exact Hn|]. intros x. rewrite Hm, in_app_iff. simpl. tauto.
Qed.

Lemma keep_first_nil_members (l : list V) :
  List.NoDup (keep_first [] l) /\ (forall x, In x (keep_first [] l) <-> In x l).
Proof.
  destruct (keep_first_members l [] (List.NoDup_nil V)) as [Hn Hm].
  simpl in Hn, Hm. split; [exact Hn|]. intros x. rewrite Hm. tauto.
Qed.

Lemma keep_first_NoDup_id (l : list V) : forall kept,
  List.NoDup l -> (forall x, In x l -> ~ In x kept) -> keep_first kept l = l.
Proof.
  induction l as [|y l IH]; intros kept Hl Hk; [reflexivity|]. simpl.
  destruct (duplicate_of kept y) eqn:Hd.
  - apply duplicate_of_In in Hd. exfalso. apply (Hk y); [left; reflexivity|exact Hd].
  - f_equal. inversion Hl as [|? ? Hy Hl']; subst. apply IH; [exact Hl'|].
    intros x Hx Hin. apply in_app_iff in Hin as [Hin|[<-|[]]].
    + apply (Hk x); [right; exact Hx|exact Hin].
    + exact (Hy Hx).
Qed.

Lemma In_ToList_visit (d : Depset V) (o : Order) (x : V) :
  In x (ToList d) <-> In x (visit o d).
Proof.
  rewrite ToList_flatten. unfold flatten.
  assert (Hany : forall o1, In x (keep_first [] (visit o1 d)) <-> In x (visit o d)).
  { intros o1. rewrite (proj2 (keep_first_nil_members _)).
    split; apply In_visit_order. }
  destruct (order d); try apply Hany.
  rewrite <- in_rev. apply Hany.
Qed.

Lemma ToList_ListNoDup (d : Depset V) : List.NoDup (ToList d).
Proof.
  rewrite ToList_flatten. unfold flatten.
  destruct (order d); try apply keep_first_nil_members.
  apply List.NoDup_rev, keep_first_nil_members.
Qed.

End DepsetLeibniz.

Section DepsetExtraTheorems.
Import Depset.
Context {V : Type} `{HV : HostValue V}.

(** X5. [Depset.isEmpty] holds exactly when [ToList] returns the empty
    list, and [Depset.Truth] exactly when it returns a non-empty one: the
    truth test, which does not flatten the depset, agrees with the
    flattening. *)
Theorem Truth_iff_ToList (d : Depset V) :
  (isEmpty d = true <-> ToList d = [])
  /\ (Truth d = true <-> ToList d <> []).
Proof.
  split; [apply isEmpty_ToList_iff|].
  unfold Truth. rewrite <- isEmpty_ToList_iff.
  destruct (isEmpty d); simpl; split; congruence.
Qed.

Lemma NewDepset_fields o ds ts (d : Depset V) :
  NewDepset o ds ts = Ok d -> order d = o /\ direct d = ds /\ transitive d = ts.
Proof.
  unfold NewDepset. destruct (foldM checkAndSetType ds ""); [|discriminate].
  cbn [mbind result_bind]. destruct (foldM (checkTransitive o) ts a); [|discriminate].
  cbn [mbind result_bind]. intros [= <-]. auto.
Qed.

(** X8. [DepsetUnion a b] succeeds exactly when [b] is empty, or the
    orders of [a] and [b] are compatible and the element types agree ([a]
    is empty, or one of the two recorded types is empty, or they are the
    same). The test is not symmetric: an empty [a] of an order that is
    incompatible with that of a non-empty [b] makes the union fail. The
    union has no direct elements, the transitive sets [a] then [b], and
    the order of [a], or that of [b] when the order of [a] is the
    default. *)
Theorem DepsetUnion_succeeds (a b : Depset V) :
  is_ok (DepsetUnion a b)
  = isEmpty b
    || (IsCompatible (order a) (order b)
        && (isEmpty a || String.eqb (elemType a) "" || String.eqb (elemType b) ""
            || String.eqb (elemType a) (elemType b)))
  /\ (forall u, DepsetUnion a b = Ok u ->
        order u = (if bool_decide (order a = OrderDefault) then order b else order a)
        /\ direct u = [] /\ transitive u = [a; b]).
Proof.
  split; [|intros u Hu; apply NewDepset_fields, Hu].
  unfold DepsetUnion, NewDepset. cbn [foldM mbind result_bind mret result_ret].
  unfold checkTransitive.
  destruct (isEmpty a) eqn:Ea, (isEmpty b) eqn:Eb; cbn [negb orb andb mbind result_bind];
    try reflexivity.
  - change (String.eqb "" "") with true. cbn iota.
    destruct (order a), (order b); reflexivity.
  - destruct (order a), (order b); reflexivity.
  - change (String.eqb "" "") with true. cbn iota.
    assert (Hc : IsCompatible
                   (if bool_decide (order a = OrderDefault) then order b else order a)
                   (order a) = true) by (destruct (order a), (order b); reflexivity).
    rewrite Hc. cbn [negb mbind result_bind].
    assert (Hb : IsCompatible
                   (if bool_decide (order a = OrderDefault) then order b else order a)
                   (order b) = IsCompatible (order a) (order b))
      by (destruct (order a), (order b); reflexivity).
    rewrite Hb. destruct (IsCompatible (order a) (order b)); cbn [negb andb]; [|reflexivity].
    destruct (String.eqb (elemType a) "") eqn:E1; [reflexivity|].
    destruct (String.eqb (elemType b) "") eqn:E2; [reflexivity|].
    destruct (String.eqb (elemType a) (elemType b)); reflexivity.
Qed.

End DepsetExtraTheorems.

Section DepsetLeibnizTheorems.
Import Depset.
Context {V : Type} `{HV : HostValue V}.
Hypothesis Equal_eq : forall x y : V, Equal x y = true <-> x = y.

(** X6. When [starlark.Equal] is the equality of the values, [ToList]
    returns no value twice, and the values that it returns are the direct
    elements of the depset and the values that [ToList] returns for its
    transitive sets. *)
Theorem ToList_each_element_once (d : Depset V) :
  NoDup (ToList d)
  /\ (forall x, In x (ToList d)
        <-> In x (direct d) \/ exists t, In t (transitive d) /\ In x (ToList t)).
Proof.
  split.
  - apply NoDup_ListNoDup, (ToList_ListNoDup Equal_eq).
  - intros x. rewrite (In_ToList_visit Equal_eq d OrderDefault), In_visit.
    split; (intros [Hd|(t & Ht & Hx)]; [left; exact Hd|right; exists t; split; [exact Ht|]]).
    + apply (proj2 (In_ToList_visit Equal_eq t OrderDefault x)), Hx.
    + apply (proj1 (In_ToList_visit Equal_eq t OrderDefault x)), Hx.
Qed.

(** X7. When [starlark.Equal] is the equality of the values, a depset
    without transitive sets gives back the list it was built from, when
    the list has no repetition: [ToList] after [DepsetOf] is the identity,
    and so it is after [NewDepset] for every order but the topological
    one, for which [ToList] returns the list reversed. *)
Theorem DepsetOf_round_trip (items : list V) :
  NoDup items ->
  (forall d, DepsetOf items = Ok d -> ToList d = items)
  /\ (forall o d,
        NewDepset o items [] = Ok d ->
        ToList d = if bool_decide (o = OrderTopological) then rev items else items).
Proof.
  intros Hn.
  assert (Hleaf : forall o d,
            NewDepset o items [] = Ok d ->
            ToList d = if bool_decide (o = OrderTopological) then rev items else items).
  { intros o d Hd. apply NewDepset_fields in Hd as (Ho & Hds & Hts).
    rewrite ToList_flatten. unfold flatten. rewrite Ho.
    assert (Hk : forall o', keep_first [] (visit o' d) = items).
    { intros o'. rewrite visit_unfold, Hds, Hts. cbn [flat_map].
      rewrite app_nil_r.
      destruct (bool_decide (o' = OrderPreorder));
        (apply (keep_first_NoDup_id Equal_eq); [apply NoDup_ListNoDup, Hn|intros x _ []]). }
    destruct o; rewrite Hk; reflexivity. }
  split; [|exact Hleaf]. intros d Hd. apply (Hleaf OrderDefault d Hd).
Qed.

Lemma NewDepset_pair_members (o : Order) (a b u : Depset V) :
  NewDepset o [] [a; b] = Ok u ->
  forall x, In x (ToList u) <-> In x (ToList a) \/ In x (ToList b).
Proof.
  intros Hu x. apply NewDepset_fields in Hu as (_ & Hds & Hts).
  rewrite (In_ToList_visit Equal_eq u OrderDefault), In_visit, Hds, Hts.
  rewrite (In_ToList_visit Equal_eq a OrderDefault), (In_ToList_visit Equal_eq b OrderDefault).
  split.
  - intros [[]|(t & [<-|[<-|[]]] & Hx)]; tauto.
  - intros [Hx|Hx]; right; [exists a|exists b]; simpl; tauto.
Qed.

(** X9. When [starlark.Equal] is the equality of the values, the values
    that [ToList] returns for the union of two depsets are those that it
    returns for one of the two. *)
Theorem DepsetUnion_members (a b u : Depset V) :
  DepsetUnion a b = Ok u ->
  forall x, In x (ToList u) <-> In x (ToList a) \/ In x (ToList b).
Proof. apply NewDepset_pair_members. Qed.

End DepsetLeibnizTheorems.

(** ** Depsets: the element type *)

Section DepsetTypes.
Import Depset.
Context {V : Type} `{HV : HostValue V}.
Hypothesis Type_nonempty : forall x : V, Type_ x <> "".

Lemma constructed_unfold (d : Depset V) :
  constructed d
  <-> NewDepset (order d) (direct d) (transitive d) = Ok d
      /\ Forall constructed (transitive d).
Proof.
  destruct d as [o ds ts ty]. cbn [constructed order direct transitive].
  assert (Hall : (fix all (l : list (Depset V)) : Prop :=
                    match l with
                    | [] => True
                    | t :: l' => constructed t /\ all l'
                    end) ts <-> Forall constructed ts).
  { induction ts as [|t ts IH]; [split; [constructor|trivial]|].
    rewrite IH. split.
    - intros [Ht Hts]. constructor; assumption.
    - intros Hf. inversion Hf; subst. split; assumption. }
  rewrite Hall. reflexivity.
Qed.

Lemma checkAndSetType_ok ty (x : V) ty' :
  checkAndSetType ty x = Ok ty' ->
  plain x /\ ty' = Type_ x /\ (ty <> "" -> ty = Type_ x).
Proof.
  unfold checkAndSetType, plain.
  destruct (isList x); [discriminate|]. destruct (isDict x); [discriminate|].
  cbv zeta. destruct (String.eqb ty "") eqn:E.
  - apply String.eqb_eq in E. intros [= <-]. repeat split. congruence.
  - destruct (String.eqb ty (Type_ x)) eqn:E'; cbn [negb]; [|discriminate].
    apply String.eqb_eq in E'. intros [= <-]. repeat split; auto.
Qed.

Lemma foldM_direct_types (ds : list V) : forall ty ty',
  foldM checkAndSetType ds ty = Ok ty' ->
  (forall x, In x ds -> plain x /\ Type_ x = ty')
  /\ (ty <> "" -> ty' = ty) /\ (ds = [] -> ty' = ty).
Proof.
  induction ds as [|x ds IH]; intros ty ty' H.
  - injection H as <-. split; [intros x []|split; auto].
  - cbn [foldM] in H. destruct (checkAndSetType ty x) as [ty1|] eqn:E; [|discriminate].
    cbn [mbind result_bind] in H.
    apply checkAndSetType_ok in E as (Hp & -> & Hty).
    destruct (IH _ _ H) as (Hall & Hkeep & _).
    specialize (Hkeep (Type_nonempty x)).
    split; [|split].
    + intros y [<-|Hin]; [|apply Hall, Hin].
      split; [exact Hp|symmetry; exact Hkeep].
    + intros Hne. rewrite Hkeep. symmetry. apply Hty, Hne.
    + discriminate.
Qed.

Lemma foldM_transitive_types o (ts : list (Depset V)) : forall ty ty',
  Forall (fun t => isEmpty t = false -> elemType t <> "") ts ->
  foldM (checkTransitive o) ts ty = Ok ty' ->
  (forall t, In t ts -> isEmpty t = false -> elemType t = ty')
  /\ (ty <> "" -> ty' = ty).
Proof.
  induction ts as [|t ts IH]; intros ty ty' Hne H.
  - injection H as <-. split; auto; intros ? [].
  - cbn [foldM] in H. destruct (checkTransitive o ty t) as [ty1|] eqn:E; [|discriminate].
    cbn [mbind result_bind] in H.
    inversion Hne as [|? ? Ht Hts]; subst.
    destruct (IH _ _ Hts H) as (Hall & Hkeep).
    unfold checkTransitive in E.
    destruct (isEmpty t) eqn:Et; cbn [negb] in E.
    + injection E as <-. split; [|exact Hkeep].
      intros t' [<-|Hin] He; [congruence|apply Hall; assumption].
    + specialize (Ht eq_refl).
      destruct (IsCompatible o (order t)); cbn [negb] in E; [|discriminate].
      destruct (String.eqb ty "") eqn:Ety.
      * injection E as <-. apply String.eqb_eq in Ety. subst ty.
        specialize (Hkeep Ht). split; [|congruence].
        intros t' [<-|Hin] He; [symmetry; exact Hkeep|apply Hall; assumption].
      * apply String.eqb_neq in Ety.
        destruct (String.eqb (elemType t) "") eqn:E1;
          [apply String.eqb_eq in E1; congruence|].
        destruct (String.eqb ty (elemType t)) eqn:E2; cbn [negb andb] in E; [|discriminate].
        injection E as <-. apply String.eqb_eq in E2. specialize (Hkeep Ety).
        split; [|intros _; exact Hkeep].
        intros t' [<-|Hin] He; [congruence|apply Hall; assumption].
Qed.

Lemma constructed_visit_types (d : Depset V) :
  constructed d ->
  forall x, In x (visit OrderDefault d) -> plain x /\ Type_ x = elemType d.
Proof.
  induction d as [o ds ts ty IH] using Depset_nested_ind.
  intros Hc. apply constructed_unfold in Hc as [Hnew Hts].
  cbn [order direct transitive] in Hnew, Hts.
  unfold NewDepset in Hnew.
  destruct (foldM checkAndSetType ds "") as [ty1|] eqn:Hd; [|discriminate].
  cbn [mbind result_bind] in Hnew.
  destruct (foldM (checkTransitive o) ts ty1) as [ty2|] eqn:Ht; [|discriminate].
  cbn [mbind result_bind] in Hnew. injection Hnew as ->.
  apply foldM_direct_types in Hd as (Hdirect & _ & _).
  rewrite List.Forall_forall in IH. rewrite List.Forall_forall in Hts.
  assert (Hne : Forall (fun t => isEmpty t = false -> elemType t <> "") ts).
  { apply List.Forall_forall. intros t Hin He.
    destruct (visit OrderDefault t) as [|y l] eqn:Hv.
    - apply visit_nil_iff in Hv. congruence.
    - destruct (IH t Hin (Hts t Hin) y) as [_ <-]; [rewrite Hv; left; reflexivity|].
      apply Type_nonempty. }
  apply (foldM_transitive_types o ts ty1 ty Hne) in Ht as (Hchildren & Hkeep).
  intros x Hx. apply In_visit in Hx. cbn [direct transitive elemType] in *.
  destruct Hx as [Hx|(t & Hin & Hx)].
  - destruct (Hdirect x Hx) as [Hp Hty]. split; [exact Hp|].
    rewrite Hkeep; [exact Hty|]. rewrite <- Hty. apply Type_nonempty.
  - destruct (IH t Hin (Hts t Hin) x Hx) as [Hp Hty]. split; [exact Hp|].
    rewrite Hty. apply Hchildren; [exact Hin|].
    destruct (isEmpty t) eqn:He; [|reflexivity].
    apply (visit_nil_iff OrderDefault) in He. rewrite He in Hx. destruct Hx.
Qed.

End DepsetTypes.

Section DepsetTypeTheorems.
Import Depset.
Context {V : Type} `{HV : HostValue V}.

Lemma keep_first_subset (l : list V) : forall kept x,
  In x (keep_first kept l) -> In x l.
Proof.
  induction l as [|y l IH]; intros kept x; simpl; [tauto|].
  destruct (duplicate_of kept y).
  - intros Hx. right. apply (IH _ _ Hx).
  - intros [<-|Hx]; [left; reflexivity|right; apply (IH _ _ Hx)].
Qed.

Lemma ToList_subset_visit (d : Depset V) (x : V) :
  In x (ToList d) -> In x (visit OrderDefault d).
Proof.
  rewrite ToList_flatten. unfold flatten. intros Hx.
  destruct (order d) eqn:Ho.
  - apply keep_first_subset in Hx. exact Hx.
  - apply keep_first_subset in Hx. apply (In_visit_order _ _ _ _ Hx).
  - apply keep_first_subset in Hx. apply (In_visit_order _ _ _ _ Hx).
  - apply in_rev, keep_first_subset in Hx. apply (In_visit_order _ _ _ _ Hx).
Qed.

(** X10. When no value has the empty string as its type name: in a depset
    that [NewDepset] built, from transitive sets that it built, every
    value that [ToList] returns has the element type that the depset
    records, and is neither a list nor a dict. *)
Theorem constructed_homogeneous (d : Depset V) :
  (forall x : V, Type_ x <> "") ->
  constructed d ->
  forall x, In x (ToList d) ->
    Type_ x = elemType d /\ isList x = false /\ isDict x = false.
Proof.
  intros Hty Hc x Hx. apply ToList_subset_visit in Hx.
  destruct (constructed_visit_types Hty d Hc x Hx) as [[Hl Hd] Ht]. auto.
Qed.

End DepsetTypeTheorems.

(** ** Depsets: orders, and the properties on depsets of integers *)

Section DepsetWitnesses.
Import Depset.

(** X4. [ParseOrder] inverts [Order.String]: the name of every order
    parses to that order, and a string that parses to an order is the
    name of that order. *)
Theorem ParseOrder_round_trip :
  (forall o, ParseOrder (Order_String o) = Ok o)
  /\ (forall s o, ParseOrder s = Ok o -> Order_String o = s).
Proof.
  split; [intros []; reflexivity|].
  intros s o. unfold ParseOrder.
  destruct (String.eqb s "default") eqn:E1;
    [apply String.eqb_eq in E1; intros [= <-]; symmetry; exact E1|].
  destruct (String.eqb s "postorder") eqn:E2;
    [apply String.eqb_eq in E2; intros [= <-]; symmetry; exact E2|].
  destruct (String.eqb s "preorder") eqn:E3;
    [apply String.eqb_eq in E3; intros [= <-]; symmetry; exact E3|].
  destruct (String.eqb s "topological") eqn:E4;
    [apply String.eqb_eq in E4; intros [= <-]; symmetry; exact E4|].
  discriminate.
Qed.

(** X4 applied to [preorder]. *)
Lemma ParseOrder_round_trip_witness : Order_String OrderPreorder = "preorder".
Proof. apply (proj2 ParseOrder_round_trip "preorder" OrderPreorder). reflexivity. Defined.

#[local] Instance ints : HostValue Z := Int_host (fun _ => "").

(** X6 applied to a preorder depset of integers with one transitive set. *)
Lemma ToList_each_element_once_witness :
  NoDup (ToList (mkDepset OrderPreorder [1; 2]%Z
                   [mkDepset OrderDefault [2; 3]%Z [] "int"] "int"))
  /\ In 3%Z (ToList (mkDepset OrderPreorder [1; 2]%Z
                       [mkDepset OrderDefault [2; 3]%Z [] "int"] "int")).
Proof.
  destruct (@ToList_each_element_once Z ints Z.eqb_eq
              (mkDepset OrderPreorder [1; 2]%Z
                 [mkDepset OrderDefault [2; 3]%Z [] "int"] "int")) as [Hn Hm].
  split; [exact Hn|]. apply Hm. right. eexists. split; [left; reflexivity|].
  vm_compute. auto.
Defined.

(** X7 applied to the list [[3; 1; 2]], in the default and in the
    topological order. *)
Lemma DepsetOf_round_trip_witness :
  ToList (mkDepset OrderDefault [3; 1; 2]%Z [] "int") = [3; 1; 2]%Z
  /\ ToList (mkDepset OrderTopological [3; 1; 2]%Z [] "int") = [2; 1; 3]%Z.
Proof.
  destruct (@DepsetOf_round_trip Z ints Z.eqb_eq [3; 1; 2]%Z) as [Hof Hnew].
  - apply NoDup_ListNoDup. repeat constructor; simpl; intuition lia.
  - split; [apply Hof; reflexivity|].
    apply (Hnew OrderTopological). reflexivity.
Defined.

(** X9 applied to two depsets of one integer each. *)
Lemma DepsetUnion_members_witness :
  In 2%Z (ToList (mkDepset OrderDefault []
                    [mkDepset OrderDefault [1]%Z [] "int";
                     mkDepset OrderDefault [2]%Z [] "int"] "int"))
  <-> In 2%Z (ToList (mkDepset OrderDefault [1]%Z [] "int"))
      \/ In 2%Z (ToList (mkDepset OrderDefault [2]%Z [] "int")).
Proof.
  apply (@DepsetUnion_members Z ints Z.eqb_eq
           (mkDepset OrderDefault [1]%Z [] "int") (mkDepset OrderDefault [2]%Z [] "int")).
  reflexivity.
Defined.

(** X8 applied to a default depset and a postorder depset. *)
Lemma DepsetUnion_succeeds_witness :
  order (mkDepset OrderPostorder []
           [mkDepset OrderDefault [1]%Z [] "int";
            mkDepset OrderPostorder [2]%Z [] "int"] "int") = OrderPostorder.
Proof.
  apply (proj2 (@DepsetUnion_succeeds Z ints
                  (mkDepset OrderDefault [1]%Z [] "int")
                  (mkDepset OrderPostorder [2]%Z [] "int"))).
  reflexivity.
Defined.

(** X10 applied to a depset of integers with one transitive set. *)
Lemma constructed_homogeneous_witness :
  Type_ 2%Z = "int" /\ isList 2%Z = false /\ isDict 2%Z = false.
Proof.
  apply (@constructed_homogeneous Z ints
           (mkDepset OrderDefault [1]%Z [mkDepset OrderDefault [2]%Z [] "int"] "int")).
  - intros x. discriminate.
  - simpl. repeat split; reflexivity.
  - vm_compute. auto.
Defined.

End DepsetWitnesses.

(** ** Provider instances: reading the fields *)

Section ProviderInstanceFacts.
Import GoStrings Provider.

Lemma string_le_Total : Total Native.string_le.
Proof. intros a b. unfold Native.string_le. apply String.leb_total. Qed.

Lemma insert_checked_ok_all F pname kwargs : forall m values,
  foldM (insert_checked F pname) kwargs m = Ok values ->
  values = insert_all kwargs m.
Proof.
  induction kwargs as [|kv kwargs IH]; intros m values H.
  - injection H as <-. reflexivity.
  - cbn [foldM] in H. destruct (unexpected F kv.1) eqn:E.
    + rewrite (insert_checked_refuse F pname m kv E) in H. discriminate.
    + rewrite (insert_checked_accept F pname m kv E) in H.
      cbn [mbind result_bind] in H. apply IH in H. exact H.
Qed.

Lemma insert_all_lookup (kwargs : list (string * Value)) : forall m,
  NoDup (map fst kwargs) ->
  (forall k v, In (k, v) kwargs -> insert_all kwargs m !! k = Some v)
  /\ (forall k, ~ In k (map fst kwargs) -> insert_all kwargs m !! k = m !! k).
Proof.
  induction kwargs as [|[k0 v0] kwargs IH]; intros m Hn.
  - split; [intros ? ? []|reflexivity].
  - cbn [map fst] in Hn. apply NoDup_cons in Hn as [Hk0 Hn].
    rewrite list_elem_of_In in Hk0.
    destruct (IH (<[k0 := v0]> m) Hn) as [Hin Hout].
    unfold insert_all in *. cbn [fold_left fst snd]. split.
    + intros k v [[= <- <-]|Hkv]; [|apply Hin, Hkv].
      rewrite Hout by exact Hk0. apply lookup_insert_eq.
    + intros k Hk. cbn [map fst] in Hk.
      rewrite Hout by (intros Hc; apply Hk; right; exact Hc).
      apply lookup_insert_ne. intros ->. apply Hk. left. reflexivity.
Qed.

End ProviderInstanceFacts.

Section ProviderInstanceTheorems.
Import GoStrings Provider ProviderInstance.
Variable Call : Value -> list Value -> list (string * Value) -> result string Value.

(** X11. An instance that a provider without [init] builds from keyword
    arguments of distinct names holds what was passed: [Attr] and [Get]
    return, for every name passed, the value passed with it; for every
    other name [Attr] fails with the [NoSuchAttrError] that carries the
    name of the provider and the name asked for, and [Get] finds nothing;
    and [AttrNames] lists the names passed, in the order of
    [sort.Strings]. *)
Theorem provider_fields_round_trip (p : Provider) (kwargs : list (string * Value))
    (inst : ProviderInstance) :
  init p = None ->
  NoDup (map fst kwargs) ->
  CallInternal Call p [] kwargs = Ok inst ->
  (forall k v, In (k, v) kwargs -> Attr inst k = Ok v /\ Get inst k = Some v)
  /\ (forall k, ~ In k (map fst kwargs) ->
        Attr inst k = Err (NoSuchAttrError (name p) k)
        /\ Get inst k = None)
  /\ Sorted Native.string_le (AttrNames inst)
  /\ (forall k, In k (AttrNames inst) <-> In k (map fst kwargs)).
Proof.
  intros Hinit Hn H. rewrite (CallInternal_no_init Call p kwargs Hinit) in H.
  destruct (foldM (insert_checked (fields p) (name p)) kwargs ∅) as [vals|] eqn:Hf;
    [|discriminate].
  cbn [mbind result_bind] in H. injection H as <-.
  apply insert_checked_ok_all in Hf. subst vals.
  destruct (insert_all_lookup kwargs ∅ Hn) as [Hin Hout].
  unfold Attr, Get, AttrNames. cbn [values provider].
  split; [|split; [|split]].
  - intros k v Hkv. rewrite (Hin k v Hkv). auto.
  - intros k Hk. rewrite (Hout k Hk), lookup_empty. auto.
  - apply Sorted_merge_sort, string_le_Total.
  - intros k. rewrite <- !list_elem_of_In, merge_sort_Permutation.
    rewrite !list_elem_of_In. split.
    + intros Hk. apply in_map_iff in Hk as ([k' v] & <- & Hkv).
      rewrite <- list_elem_of_In in Hkv. apply elem_of_map_to_list in Hkv.
      destruct (in_dec string_dec k' (map fst kwargs)) as [Hyes|Hno]; [exact Hyes|].
      rewrite (Hout k' Hno), lookup_empty in Hkv. discriminate.
    + intros Hk. apply in_map_iff in Hk as ([k' v] & <- & Hkv).
      apply in_map_iff. exists (k', v). split; [reflexivity|].
      rewrite <- list_elem_of_In. apply elem_of_map_to_list. apply Hin, Hkv.
Qed.

End ProviderInstanceTheorems.

(** X11 applied to a provider with the fields [x] and [y]. *)
Lemma provider_fields_round_trip_witness :
  let Call := fun (_ : Value) (_ : list Value) (_ : list (string * Value)) =>
                @Err string Value "" in
  let p := Provider.NewProvider "MyInfo" ["x"; "y"] "" None in
  match Provider.CallInternal Call p [] [("y", VInt 2); ("x", VInt 1)] with
  | Ok inst =>
      ProviderInstance.Attr inst "x" = Ok (VInt 1)
      /\ ProviderInstance.Attr inst "z" = Err (ProviderInstance.NoSuchAttrError "MyInfo" "z")
      /\ ProviderInstance.AttrNames inst = ["x"; "y"]
  | Err _ => False
  end.
Proof.
  intros Call p.
  destruct (Provider.CallInternal Call p [] [("y", VInt 2); ("x", VInt 1)])
    as [inst|e] eqn:E; [|vm_compute in E; discriminate].
  destruct (provider_fields_round_trip Call p [("y", VInt 2); ("x", VInt 1)] inst)
    as (Hin & Hout & _ & _).
  - reflexivity.
  - apply NoDup_ListNoDup. repeat constructor; simpl; intuition discriminate.
  - exact E.
  - split; [apply (Hin "x" (VInt 1)); simpl; auto|].
    split; [apply (Hout "z"); simpl; intuition discriminate|].
    vm_compute in E. injection E as <-. vm_compute. reflexivity.
Defined.

(** ** The forms of the [fields] argument *)

Section ProviderFormsTheorem.
Import GoStrings.



End ProviderFormsTheorem.

(** ** Providers with an [init] callback *)

Section ProviderInit.
Import GoStrings Provider ProviderInstance.
Variable Call : Value -> list Value -> list (string * Value) -> result string Value.

Lemma init_items_strings F pname (fieldvals : list (string * Value)) :
  forall m,
    foldM
      (fun (values : gmap string Value) (item : Value * Value) =>
         match item.1 with
         | VString keyStr =>
             if unexpected F keyStr then Err (ErrUnexpectedField pname keyStr)
             else Ok (<[keyStr := item.2]> values)
         | k => Err (ErrInitKey pname (Value_Type k))
         end)
      (map (fun kv : string * Value => (VString kv.1, kv.2)) fieldvals) m
    = foldM (insert_checked F pname) fieldvals m.
Proof.
  induction fieldvals as [|[k v] l IH]; intros m; [reflexivity|].
  cbn [map foldM fst snd]. unfold insert_checked at 2. cbn [fst snd].
  destruct (unexpected F k); [reflexivity|]. cbn [mbind result_bind]. apply IH.
Qed.

Lemma insert_checked_accept_all F pname (kwargs : list (string * Value)) m :
  Forall (fun kv : string * Value => unexpected F kv.1 = false) kwargs ->
  foldM (insert_checked F pname) kwargs m = Ok (insert_all kwargs m).
Proof.
  intros Hall. revert m. induction Hall as [|kv l Hkv _ IH]; intros m; [reflexivity|].
  cbn [foldM]. rewrite (insert_checked_accept _ _ _ _ Hkv). apply IH.
Qed.

(** X28. A provider with an [init] callback hands the positional and the
    keyword arguments of the call to the callback, and builds the instance
    from the dict that the callback returns, not from the arguments: when
    the keys of that dict are distinct strings that the provider allows as
    fields, the call succeeds, the instance belongs to the provider, every
    entry of the dict is read back with [Attr], and no other field exists. *)
Theorem provider_init_values (p : Provider) (f : Value) (args : list Value)
    (kwargs fieldvals : list (string * Value)) :
  init p = Some f ->
  Call f args kwargs
  = Ok (VDict (map (fun kv : string * Value => (VString kv.1, kv.2)) fieldvals)) ->
  Forall (fun kv : string * Value => unexpected (fields p) kv.1 = false) fieldvals ->
  NoDup (map fst fieldvals) ->
  exists inst,
    CallInternal Call p args kwargs = Ok inst
    /\ provider inst = p
    /\ (forall k v, In (k, v) fieldvals -> Attr inst k = Ok v)
    /\ (forall k, ~ In k (map fst fieldvals) -> Get inst k = None).
Proof.
  intros Hi Hc Hall Hn. unfold CallInternal. rewrite Hi, Hc, init_items_strings.
  rewrite (insert_checked_accept_all _ _ _ ∅ Hall).
  cbn [mbind result_bind]. eexists. split; [reflexivity|].
  destruct (insert_all_lookup fieldvals ∅ Hn) as [Hin Hout].
  unfold Attr, Get. cbn [provider values]. split; [reflexivity|]. split.
  - intros k v Hkv. rewrite (Hin k v Hkv). reflexivity.
  - intros k Hk. rewrite (Hout k Hk). apply lookup_empty.
Qed.

End ProviderInit.

(** X28 applied to a provider with the field [x] whose callback stores its
    first positional argument under [x]. *)
Lemma provider_init_values_witness :
  let Call := fun (_ : Value) (args : list Value) (_ : list (string * Value)) =>
                @Ok string Value (VDict [(VString "x", hd VNone args)]) in
  let p := Provider.NewProvider "MyInfo" ["x"] "" (Some (VFunction "init")) in
  exists inst,
    Provider.CallInternal Call p [VInt 7] [] = Ok inst
    /\ Provider.provider inst = p
    /\ (forall k v, In (k, v) [("x", VInt 7)] -> ProviderInstance.Attr inst k = Ok v)
    /\ (forall k, ~ In k (map fst [("x", VInt 7)]) -> ProviderInstance.Get inst k = None).
Proof.
  intros Call p.
  apply (provider_init_values Call p (VFunction "init") [VInt 7] [] [("x", VInt 7)]).
  - reflexivity.
  - reflexivity.
  - repeat constructor.
  - apply NoDup_ListNoDup. repeat constructor. simpl. tauto.
Defined.

(** ** Rule classes: the implicit attributes *)

Section RuleClassExtras.
Import GoStrings RuleClass.

Lemma add_if_absent_union (d : AttrDescriptor) (m : gmap string AttrDescriptor) :
  add_if_absent d m = m ∪ {[Name d := d]}.
Proof.
  unfold add_if_absent. apply map_eq. intros k.
  destruct (m !! Name d) as [x|] eqn:E.
  - rewrite lookup_union. destruct (decide (k = Name d)) as [->|Hne].
    + rewrite E, lookup_singleton_eq. reflexivity.
    + rewrite lookup_singleton_ne by congruence. destruct (m !! k); reflexivity.
  - rewrite lookup_union. destruct (decide (k = Name d)) as [->|Hne].
    + rewrite E, lookup_insert_eq, lookup_singleton_eq. reflexivity.
    + rewrite lookup_insert_ne by congruence.
      rewrite lookup_singleton_ne by congruence. destruct (m !! k); reflexivity.
Qed.

Lemma addImplicitAttributes_union executable test (m : gmap string AttrDescriptor) :
  addImplicitAttributes executable test m = m ∪ addImplicitAttributes executable test ∅.
Proof.
  unfold addImplicitAttributes, addTestAttributes, addExecutableAttributes.
  destruct test, executable; cbn [andb negb];
    rewrite !add_if_absent_union, !(left_id_L ∅ (∪)), !(assoc_L (∪)); reflexivity.
Qed.

Lemma implicit_dom executable test :
  dom (addImplicitAttributes executable test ∅)
  = list_to_set
      (common_attributes
       ++ (if test then test_attributes
           else if executable then executable_attributes else [])).
Proof.
  unfold addImplicitAttributes, addTestAttributes, addExecutableAttributes.
  destruct executable, test; cbn [andb negb];
    rewrite !add_if_absent_union, !dom_union_L, !dom_singleton_L, dom_empty_L;
    cbn [Name common_attributes test_attributes executable_attributes app list_to_set];
    apply set_eq; intros x; rewrite !elem_of_union, !elem_of_singleton, !elem_of_empty; tauto.
Qed.

Lemma implicit_name_mandatory executable test (m : gmap string AttrDescriptor) :
  m !! "name" = None ->
  Mandatory <$> addImplicitAttributes executable test m !! "name" = Some true.
Proof.
  intros Hm. rewrite addImplicitAttributes_union, lookup_union, Hm.
  destruct executable, test; vm_compute; reflexivity.
Qed.

(** X13. The attributes of a new rule class are the declared ones and the
    implicit ones, a declared attribute taking precedence over the
    implicit attribute of its name. The implicit attributes are [name],
    [visibility], [tags], [testonly], [deprecation] and [features]; for a
    test rule also [size], [timeout], [flaky], [shard_count], [local] and
    [args]; for an executable rule that is no test also [args] and
    [output_licenses]. Unless it is declared, [name] is mandatory. *)
Theorem NewRuleClass_attributes (name : string) (m : gmap string AttrDescriptor)
    (executable test : bool) :
  attrs (NewRuleClass name m executable test)
  = m ∪ attrs (NewRuleClass name ∅ executable test)
  /\ dom (attrs (NewRuleClass name ∅ executable test))
     = list_to_set
         (common_attributes
          ++ (if test then test_attributes
              else if executable then executable_attributes else []))
  /\ (m !! "name" = None ->
      Mandatory <$> attrs (NewRuleClass name m executable test) !! "name" = Some true).
Proof.
  cbn [NewRuleClass attrs]. split; [apply addImplicitAttributes_union|].
  split; [apply implicit_dom|].
  apply implicit_name_mandatory.
Qed.

End RuleClassExtras.

(** ** Rule classes: the two loops of a call *)

Section RuleCallFacts.
Import GoStrings RuleClass.

Lemma CallInternal_loops rc args kwargs :
  CallInternal rc args kwargs
  = if (0 <? length args)%nat then Err (ErrPositional (name rc))
    else if negb (exported rc) then Err ErrNotExported
    else
      match foldM (accept_kwarg rc) kwargs (∅, ∅) with
      | Err e => Err e
      | Ok (provided, providedAttrs) =>
          match foldM (apply_default rc providedAttrs) (map_to_list (attrs rc)) provided with
          | Err e => Err e
          | Ok attrValues =>
              match attrValues !! "name" with
              | None => Err (ErrMissingName (name rc))
              | Some (VString nameStr) => Ok (mkRuleInstance rc nameStr attrValues)
              | Some v => Err (ErrNameType (name rc) (Value_Type v))
              end
          end
      end.
Proof. reflexivity. Qed.

Lemma accept_kwarg_ok rc st kv st' :
  accept_kwarg rc st kv = Ok st' ->
  accepted rc kv /\ st' = (<[kv.1 := kv.2]> st.1, {[kv.1]} ∪ st.2).
Proof.
  unfold accept_kwarg, accepted. destruct (attrs rc !! kv.1) as [attr|]; [|discriminate].
  destruct (validateAttrValue attr kv.2) eqn:Hv; [discriminate|].
  intros [= <-]. split; [exists attr; auto|reflexivity].
Qed.

Lemma accept_kwarg_accepted rc st kv :
  accepted rc kv -> accept_kwarg rc st kv = Ok (<[kv.1 := kv.2]> st.1, {[kv.1]} ∪ st.2).
Proof.
  intros (attr & Ha & Hv). unfold accept_kwarg. rewrite Ha, Hv. reflexivity.
Qed.

Lemma accept_all rc kwargs : forall st,
  Forall (accepted rc) kwargs ->
  foldM (accept_kwarg rc) kwargs st
  = Ok (Provider.insert_all kwargs st.1, list_to_set (map fst kwargs) ∪ st.2).
Proof.
  induction kwargs as [|kv kwargs IH]; intros [m P] Hall.
  - cbn [foldM map Provider.insert_all fold_left fst snd].
    rewrite list_to_set_nil, (left_id_L ∅ (∪)). reflexivity.
  - inversion Hall as [|? ? Hkv Hrest]; subst. cbn [foldM].
    rewrite (accept_kwarg_accepted rc _ kv Hkv). cbn [mbind result_bind].
    rewrite (IH _ Hrest). cbn [fst snd map]. f_equal. f_equal.
    rewrite list_to_set_cons. apply set_eq. intros x.
    rewrite !elem_of_union. tauto.
Qed.

Lemma accept_ok_inv rc kwargs : forall st st',
  foldM (accept_kwarg rc) kwargs st = Ok st' -> Forall (accepted rc) kwargs.
Proof.
  induction kwargs as [|kv kwargs IH]; intros st st' H; [constructor|].
  cbn [foldM] in H. destruct (accept_kwarg rc st kv) as [st1|] eqn:E; [|discriminate].
  cbn [mbind result_bind] in H. apply accept_kwarg_ok in E as [Hkv _].
  constructor; [exact Hkv|apply (IH _ _ H)].
Qed.

Lemma apply_default_lookup rc (P : gset string) (l : list (string * AttrDescriptor)) :
  forall m m',
    NoDup (map fst l) ->
    foldM (apply_default rc P) l m = Ok m' ->
    forall k,
      m' !! k =
      match List.find (fun na : string * AttrDescriptor => String.eqb na.1 k) l with
      | Some na =>
          if bool_decide (k ∈ P) then m !! k
          else match Default na.2 with Some d => Some d | None => m !! k end
      | None => m !! k
      end.
Proof.
  induction l as [|[n a] l IH]; intros m m' Hn H k.
  - injection H as <-. reflexivity.
  - cbn [map fst] in Hn. apply NoDup_cons in Hn as [Hn0 Hn].
    cbn [foldM] in H. destruct (apply_default rc P m (n, a)) as [m1|] eqn:E; [|discriminate].
    cbn [mbind result_bind] in H. rewrite (IH _ _ Hn H k).
    cbn [List.find fst snd]. unfold apply_default in E. cbn [fst snd] in E.
    destruct (String.eqb n k) eqn:Enk.
    + apply String.eqb_eq in Enk. subst k.
      assert (Hnone : List.find (fun na : string * AttrDescriptor => String.eqb na.1 n) l = None).
      { destruct (List.find _ l) as [[n' a']|] eqn:Hf; [|reflexivity].
        apply find_some in Hf as [Hin Heq]. apply String.eqb_eq in Heq. cbn in Heq. subst n'.
        exfalso. apply Hn0. apply list_elem_of_In. apply in_map_iff.
        exists (n, a'). auto. }
      rewrite Hnone. cbn [fst snd].
      destruct (bool_decide (n ∈ P)); [injection E as <-; reflexivity|].
      destruct (Mandatory a); [discriminate|].
      destruct (Default a); injection E as <-; [apply lookup_insert_eq|reflexivity].
    + apply String.eqb_neq in Enk.
      assert (Hm1 : m1 !! k = m !! k).
      { destruct (bool_decide (n ∈ P)); [injection E as <-; reflexivity|].
        destruct (Mandatory a); [discriminate|].
        destruct (Default a); injection E as <-; [|reflexivity].
        apply lookup_insert_ne. exact Enk. }
      rewrite Hm1. reflexivity.
Qed.

Lemma apply_default_mandatory rc (P : gset string) (l : list (string * AttrDescriptor)) :
  forall m m',
    foldM (apply_default rc P) l m = Ok m' ->
    forall n a, In (n, a) l -> n ∉ P -> Mandatory a = false.
Proof.
  induction l as [|[n0 a0] l IH]; intros m m' H n a Hin HP; [destruct Hin|].
  cbn [foldM] in H. destruct (apply_default rc P m (n0, a0)) as [m1|] eqn:E; [|discriminate].
  cbn [mbind result_bind] in H. destruct Hin as [[= -> ->]|Hin].
  - unfold apply_default in E. cbn [fst snd] in E.
    rewrite bool_decide_eq_false_2 in E by exact HP.
    destruct (Mandatory a); [discriminate|reflexivity].
  - apply (IH _ _ H n a Hin HP).
Qed.

Lemma apply_default_missing rc (P : gset string) (l : list (string * AttrDescriptor)) :
  forall m,
    Exists (fun na : string * AttrDescriptor => (na.1 ∉ P) /\ Mandatory na.2 = true) l ->
    exists n a, In (n, a) l /\ (n ∉ P) /\ Mandatory a = true
                /\ foldM (apply_default rc P) l m = Err (ErrMissingMandatory (name rc) n).
Proof.
  induction l as [|[n0 a0] l IH]; intros m Hex; [inversion Hex|].
  cbn [foldM].
  destruct (bool_decide (n0 ∈ P)) eqn:HP.
  - assert (E : apply_default rc P m (n0, a0) = Ok m)
      by (unfold apply_default; cbn [fst snd]; rewrite HP; reflexivity).
    rewrite E. apply bool_decide_eq_true in HP. cbn [mbind result_bind].
    inversion Hex as [? ? [Hno _]|? ? Hrest]; subst; [exfalso; exact (Hno HP)|].
    destruct (IH m Hrest) as (n & a & Hin & Hn & Hm & Hf).
    exists n, a. split; [right; exact Hin|]. auto.
  - destruct (Mandatory a0) eqn:Hm0.
    + assert (E : apply_default rc P m (n0, a0) = Err (ErrMissingMandatory (name rc) n0))
        by (unfold apply_default; cbn [fst snd]; rewrite HP, Hm0; reflexivity).
      rewrite E. apply bool_decide_eq_false in HP.
      exists n0, a0. split; [left; reflexivity|]. auto.
    + assert (E : exists m1, apply_default rc P m (n0, a0) = Ok m1)
        by (unfold apply_default; cbn [fst snd]; rewrite HP, Hm0;
            destruct (Default a0); eauto).
      destruct E as [m1 E]. rewrite E. cbn [mbind result_bind].
      inversion Hex as [? ? [_ Hyes]|? ? Hrest]; subst; [cbn in Hyes; congruence|].
      destruct (IH m1 Hrest) as (n & a & Hin & Hn & Hm & Hf).
      exists n, a. split; [right; exact Hin|]. auto.
Qed.

End RuleCallFacts.

Section RuleCallTheorems.
Import GoStrings RuleClass.

Lemma find_map_to_list (m : gmap string AttrDescriptor) (k : string) :
  List.find (fun na : string * AttrDescriptor => String.eqb na.1 k) (map_to_list m)
  = (fun a => (k, a)) <$> m !! k.
Proof.
  destruct (List.find _ (map_to_list m)) as [[n a]|] eqn:Hf.
  - apply find_some in Hf as [Hin Heq]. apply String.eqb_eq in Heq. cbn in Heq. subst n.
    apply list_elem_of_In, elem_of_map_to_list in Hin. rewrite Hin. reflexivity.
  - destruct (m !! k) as [a|] eqn:Hk; [|reflexivity].
    apply elem_of_map_to_list, list_elem_of_In in Hk.
    apply (find_none _ _ Hf) in Hk. cbn in Hk. rewrite String.eqb_refl in Hk. discriminate.
Qed.

(** What a successful call has computed. *)
Lemma CallInternal_ok_inv rc args kwargs inst :
  CallInternal rc args kwargs = Ok inst ->
  Forall (accepted rc) kwargs
  /\ ruleClass inst = rc
  /\ attrValues inst !! "name" = Some (VString (instance_name inst))
  /\ foldM (apply_default rc (list_to_set (map fst kwargs)))
       (map_to_list (attrs rc)) (Provider.insert_all kwargs ∅)
     = Ok (attrValues inst).
Proof.
  rewrite CallInternal_loops.
  destruct (0 <? length args)%nat; [discriminate|].
  destruct (negb (exported rc)); [discriminate|].
  destruct (foldM (accept_kwarg rc) kwargs (∅, ∅)) as [[provided P]|] eqn:Hk; [|discriminate].
  pose proof (accept_ok_inv _ _ _ _ Hk) as Hall.
  rewrite (accept_all rc kwargs (∅, ∅) Hall) in Hk. cbn [fst snd] in Hk.
  rewrite (right_id_L ∅ (∪)) in Hk. injection Hk as <- <-.
  destruct (foldM _ (map_to_list (attrs rc)) _) as [vals|] eqn:Hd; [|discriminate].
  destruct (vals !! "name") as [[| | |nameStr| | | |]|] eqn:Hname; try discriminate.
  intros [= <-]. cbn [ruleClass attrValues instance_name]. auto.
Qed.

Lemma CallInternal_values rc args kwargs inst :
  CallInternal rc args kwargs = Ok inst ->
  NoDup (map fst kwargs) ->
  ruleClass inst = rc
  /\ (forall k v, In (k, v) kwargs -> attrValues inst !! k = Some v)
  /\ (forall k, ~ In k (map fst kwargs) ->
        attrValues inst !! k = attrs rc !! k ≫= Default)
  /\ attrValues inst !! "name" = Some (VString (instance_name inst)).
Proof.
  intros H Hn. apply CallInternal_ok_inv in H as (Hall & Hrc & Hname & Hd).
  destruct (insert_all_lookup kwargs ∅ Hn) as [Hin Hout].
  pose proof (apply_default_lookup rc _ _ _ _ (NoDup_fst_map_to_list _) Hd) as Hl.
  split; [exact Hrc|]. split; [|split; [|exact Hname]].
  - intros k v Hkv. rewrite Hl, find_map_to_list.
    assert (Hk : k ∈ (list_to_set (map fst kwargs) : gset string)).
    { apply elem_of_list_to_set, list_elem_of_In, in_map_iff. exists (k, v). auto. }
    rewrite (bool_decide_eq_true_2 _ Hk).
    destruct (attrs rc !! k); apply (Hin k v Hkv).
  - intros k Hk. rewrite Hl, find_map_to_list.
    assert (Hk' : k ∉ (list_to_set (map fst kwargs) : gset string)).
    { rewrite elem_of_list_to_set, list_elem_of_In. exact Hk. }
    rewrite (bool_decide_eq_false_2 _ Hk'), (Hout k Hk), lookup_empty.
    destruct (attrs rc !! k) as [a|]; cbn; [|reflexivity].
    destruct (Default a); reflexivity.
Qed.

(** X14. A call of a rule class with keyword arguments of distinct names
    that succeeds returns a target of that class which holds, for every
    name passed, the value passed with it, and for every other name the
    default of the attribute of that name (nothing when the class has no
    such attribute, or the attribute has no default). The value under
    [name] is the string that is the name of the target. *)
Theorem CallInternal_attribute_values rc args kwargs inst :
  CallInternal rc args kwargs = Ok inst ->
  NoDup (map fst kwargs) ->
  ruleClass inst = rc
  /\ (forall k v, In (k, v) kwargs -> attrValues inst !! k = Some v)
  /\ (forall k, ~ In k (map fst kwargs) ->
        attrValues inst !! k = attrs rc !! k ≫= Default)
  /\ attrValues inst !! "name" = Some (VString (instance_name inst)).
Proof. apply CallInternal_values. Qed.

(** X15. When an exported rule class is called with keyword arguments
    that are all accepted, and some mandatory attribute of the class is
    not among them, the call fails with
    [<rule>: missing mandatory attribute "<k>"], where [k] is a mandatory
    attribute that was not passed. *)
Theorem CallInternal_missing_mandatory rc kwargs :
  exported rc = true ->
  Forall (accepted rc) kwargs ->
  (exists k a, attrs rc !! k = Some a /\ Mandatory a = true /\ ~ In k (map fst kwargs)) ->
  exists k a,
    attrs rc !! k = Some a /\ Mandatory a = true /\ ~ In k (map fst kwargs)
    /\ CallInternal rc [] kwargs = Err (ErrMissingMandatory (name rc) k).
Proof.
  intros He Hall (k & a & Hk & Hm & Hno).
  rewrite CallInternal_loops, He. cbn [length Nat.ltb Nat.leb negb].
  rewrite (accept_all rc kwargs (∅, ∅) Hall). cbn [fst snd].
  rewrite (right_id_L ∅ (∪)).
  assert (Hex : Exists (fun na : string * AttrDescriptor =>
                          (na.1 ∉ (list_to_set (map fst kwargs) : gset string))
                          /\ Mandatory na.2 = true) (map_to_list (attrs rc))).
  { apply List.Exists_exists. exists (k, a). split; [|split; [|exact Hm]].
    - apply list_elem_of_In, elem_of_map_to_list, Hk.
    - cbn. rewrite elem_of_list_to_set, list_elem_of_In. exact Hno. }
  destruct (apply_default_missing rc _ _ (Provider.insert_all kwargs ∅) Hex)
    as (n & a' & Hin & Hn & Hm' & Hf).
  exists n, a'. rewrite Hf.
  apply list_elem_of_In, elem_of_map_to_list in Hin.
  rewrite elem_of_list_to_set, list_elem_of_In in Hn. auto.
Qed.

(** X16. When the keyword arguments before [k] are accepted, the call of
    an exported rule class fails at [k]: with
    [<rule>: unexpected attribute "<k>"] when the class has no attribute
    [k], and with [<rule>: attribute "<k>": <message>] when the value
    does not pass [validateAttrValue]; the arguments after [k] are not
    looked at. *)
Theorem CallInternal_first_rejected rc pre k v post :
  exported rc = true ->
  Forall (accepted rc) pre ->
  (attrs rc !! k = None ->
   CallInternal rc [] (pre ++ (k, v) :: post) = Err (ErrUnexpectedAttr (name rc) k))
  /\ (forall a msg,
        attrs rc !! k = Some a -> validateAttrValue a v = Some msg ->
        CallInternal rc [] (pre ++ (k, v) :: post) = Err (ErrAttrValue (name rc) k msg)).
Proof.
  intros He Hall.
  assert (Hstep : forall e,
            accept_kwarg rc (Provider.insert_all pre ∅, list_to_set (map fst pre) ∪ ∅) (k, v)
            = Err e ->
            CallInternal rc [] (pre ++ (k, v) :: post) = Err e).
  { intros e Hs. rewrite CallInternal_loops, He. cbn [length Nat.ltb Nat.leb negb].
    rewrite foldM_app, (accept_all rc pre (∅, ∅) Hall). cbn [mbind result_bind foldM fst snd].
    rewrite Hs. reflexivity. }
  split.
  - intros Hk. apply Hstep. unfold accept_kwarg. cbn [fst snd]. rewrite Hk. reflexivity.
  - intros a msg Hk Hv. apply Hstep. unfold accept_kwarg. cbn [fst snd].
    rewrite Hk, Hv. reflexivity.
Qed.

End RuleCallTheorems.

(** The example rule class accepts a string as [name]. *)
Lemma example_rule_accepts_name :
  Forall (RuleClass.accepted RuleClass.example_rule) [("name", VString "t")].
Proof.
  repeat constructor. eexists. split; [vm_compute; reflexivity|reflexivity].
Qed.

(** X14 applied to the example rule class, called with a name only. *)
Lemma CallInternal_attribute_values_witness :
  match RuleClass.CallInternal RuleClass.example_rule [] [("name", VString "t")] with
  | Ok inst =>
      RuleClass.ruleClass inst = RuleClass.example_rule
      /\ RuleClass.attrValues inst !! "name" = Some (VString "t")
      /\ RuleClass.attrValues inst !! "srcs" = Some (VList [])
  | Err _ => False
  end.
Proof.
  destruct (RuleClass.CallInternal RuleClass.example_rule [] [("name", VString "t")])
    as [inst|e] eqn:E; [|vm_compute in E; discriminate].
  destruct (CallInternal_attribute_values RuleClass.example_rule [] [("name", VString "t")] inst E)
    as (Hrc & Hin & Hout & _).
  - apply NoDup_ListNoDup. repeat constructor; simpl; intuition discriminate.
  - split; [exact Hrc|]. split; [apply Hin; simpl; auto|].
    rewrite (Hout "srcs"); [vm_compute; reflexivity|simpl; intuition discriminate].
Defined.

(** X15 applied to the example rule class, called without a name. *)
Lemma CallInternal_missing_mandatory_witness :
  exists k a,
    RuleClass.attrs RuleClass.example_rule !! k = Some a /\ RuleClass.Mandatory a = true
    /\ ~ In k (map fst [("srcs", VList [])])
    /\ RuleClass.CallInternal RuleClass.example_rule [] [("srcs", VList [])]
       = Err (RuleClass.ErrMissingMandatory "my_rule" k).
Proof.
  apply (CallInternal_missing_mandatory RuleClass.example_rule [("srcs", VList [])]).
  - reflexivity.
  - repeat constructor. eexists. split; [vm_compute; reflexivity|reflexivity].
  - exists "name". eexists. split; [vm_compute; reflexivity|].
    split; [reflexivity|simpl; intuition discriminate].
Defined.

(** X16 applied to the example rule class, called with an unknown attribute. *)
Lemma CallInternal_first_rejected_witness :
  RuleClass.CallInternal RuleClass.example_rule [] [("name", VString "t"); ("colour", VInt 1)]
  = Err (RuleClass.ErrUnexpectedAttr "my_rule" "colour").
Proof.
  apply (proj1 (CallInternal_first_rejected RuleClass.example_rule [("name", VString "t")]
                  "colour" (VInt 1) [] eq_refl example_rule_accepts_name)).
  vm_compute. reflexivity.
Defined.

(** ** Rule classes: no target without a name *)

Section NamelessTarget.
Import GoStrings RuleClass.

Lemma accept_fails rc kwargs st :
  ~ Forall (accepted rc) kwargs -> is_ok (foldM (accept_kwarg rc) kwargs st) = false.
Proof.
  intros Hno. destruct (foldM (accept_kwarg rc) kwargs st) as [st'|] eqn:E; [|reflexivity].
  exfalso. apply Hno. apply (accept_ok_inv _ _ _ _ E).
Qed.

(** X29. A rule class whose declared attributes do not include [name] gets
    the implicit, mandatory [name] attribute, so a call that passes no
    [name] keyword never yields a target, whatever else it passes and
    whatever the class declares. *)
Theorem no_target_without_name (className : string)
    (declared : gmap string AttrDescriptor) (executable test : bool)
    (exportedName : string) (args : list Value) (kwargs : list (string * Value)) :
  declared !! "name" = None ->
  ~ In "name" (map fst kwargs) ->
  is_ok (CallInternal
           (SetName (NewRuleClass className declared executable test) exportedName)
           args kwargs) = false.
Proof.
  intros Hd Hno.
  set (rc := SetName (NewRuleClass className declared executable test) exportedName).
  rewrite CallInternal_loops.
  destruct (0 <? length args)%nat; [reflexivity|].
  change (exported rc) with true. cbn [negb].
  destruct (foldM (accept_kwarg rc) kwargs (∅, ∅)) as [[provided P]|] eqn:Hk; [|reflexivity].
  pose proof (accept_ok_inv _ _ _ _ Hk) as Hall.
  rewrite (accept_all rc kwargs (∅, ∅) Hall) in Hk. cbn [fst snd] in Hk.
  rewrite (right_id_L ∅ (∪)) in Hk. injection Hk as <- <-.
  pose proof (implicit_name_mandatory executable test declared Hd) as Hname.
  change (addImplicitAttributes executable test declared) with (attrs rc) in Hname.
  destruct (attrs rc !! "name") as [a|] eqn:Ha; [|discriminate].
  cbn [fmap option_fmap option_map] in Hname. injection Hname as Hm.
  assert (Hex : Exists (fun na : string * AttrDescriptor =>
                          (na.1 ∉ (list_to_set (map fst kwargs) : gset string))
                          /\ Mandatory na.2 = true) (map_to_list (attrs rc))).
  { apply List.Exists_exists. exists ("name", a). split; [|split; [|exact Hm]].
    - apply list_elem_of_In, elem_of_map_to_list, Ha.
    - cbn. rewrite elem_of_list_to_set, list_elem_of_In. exact Hno. }
  destruct (apply_default_missing rc _ _ (Provider.insert_all kwargs ∅) Hex)
    as (n & a' & _ & _ & _ & Hf).
  rewrite Hf. reflexivity.
Qed.

End NamelessTarget.

(** X29 applied to a test rule class that declares [deps], called with
    [deps] only. *)
Lemma no_target_without_name_witness :
  is_ok (RuleClass.CallInternal
           (RuleClass.SetName
              (RuleClass.NewRuleClass ""
                 {["deps" := RuleClass.mkAttr "deps" "label_list" (Some (VList [])) false]}
                 false true) "my_test")
           [] [("deps", VList [])]) = false.
Proof.
  apply (no_target_without_name ""
           {["deps" := RuleClass.mkAttr "deps" "label_list" (Some (VList [])) false]}
           false true "my_test" [] [("deps", VList [])]).
  - reflexivity.
  - simpl. intuition discriminate.
Defined.

(** ** Targets: validation *)

Section ValidateTheorems.
Import GoStrings RuleClass RuleInstance.

Lemma Validate_None (ri : RuleClass.RuleInstance) :
  (forall k a, attrs (ruleClass ri) !! k = Some a -> validate_attr ri (k, a) = None) ->
  Validate ri = None.
Proof.
  intros H. unfold Validate.
  assert (Hl : Forall (fun na => validate_attr ri na = None)
                 (map_to_list (attrs (ruleClass ri)))).
  { apply List.Forall_forall. intros [k a] Hin. apply H.
    apply elem_of_map_to_list, list_elem_of_In, Hin. }
  induction Hl as [|na l Hna _ IH]; [reflexivity|].
  cbn [foldM]. rewrite Hna. cbn [mbind result_bind]. exact IH.
Qed.

Lemma validate_None_optional (a : AttrDescriptor) :
  Mandatory a = false -> validateAttrValue a VNone = None.
Proof. intros Hm. unfold validateAttrValue. rewrite Hm. reflexivity. Qed.

Lemma validate_None_mandatory (a : AttrDescriptor) :
  Mandatory a = true -> validateAttrValue a VNone <> None.
Proof. intros Hm. unfold validateAttrValue. rewrite Hm. discriminate. Qed.

Lemma validate_attr_valid ri k a x :
  attrValues ri !! k = Some x -> validateAttrValue a x = None ->
  validate_attr ri (k, a) = None.
Proof.
  intros Hx Hv. unfold validate_attr. cbn [fst snd]. rewrite Hx.
  destruct (Mandatory a) eqn:Hm.
  - destruct x; cbn [andb]; try (rewrite Hv; reflexivity).
    exfalso. exact (validate_None_mandatory a Hm Hv).
  - cbn [andb]. destruct x; try (rewrite Hv; reflexivity). reflexivity.
Qed.

(** X17. [RuleInstance.Validate] accepts every target that [CallInternal]
    returns for keyword arguments of distinct names, provided that the
    default of every optional attribute of the class is a value that
    [validateAttrValue] accepts for it. *)
Theorem Validate_after_CallInternal rc args kwargs inst :
  CallInternal rc args kwargs = Ok inst ->
  NoDup (map fst kwargs) ->
  (forall k a d,
      attrs rc !! k = Some a -> Mandatory a = false -> Default a = Some d ->
      validateAttrValue a d = None) ->
  Validate inst = None.
Proof.
  intros H Hn Hdef.
  destruct (CallInternal_values rc args kwargs inst H Hn) as (Hrc & Hin & Hout & _).
  apply CallInternal_ok_inv in H as (Hall & _ & _ & Hd).
  apply Validate_None. rewrite Hrc. intros k a Hk.
  destruct (in_dec string_dec k (map fst kwargs)) as [Hyes|Hno].
  - apply in_map_iff in Hyes as ([k' x] & <- & Hkx). cbn [fst] in *.
    rewrite List.Forall_forall in Hall.
    destruct (Hall _ Hkx) as (a' & Ha' & Hv). cbn [fst snd] in Ha', Hv.
    rewrite Hk in Ha'. injection Ha' as <-.
    apply (validate_attr_valid inst k' a x); [apply Hin, Hkx|exact Hv].
  - assert (Hm : Mandatory a = false).
    { apply (apply_default_mandatory rc _ _ _ _ Hd k a).
      - apply list_elem_of_In, elem_of_map_to_list, Hk.
      - rewrite elem_of_list_to_set, list_elem_of_In. exact Hno. }
    specialize (Hout k Hno). rewrite Hk in Hout. cbn in Hout.
    destruct (Default a) as [d|] eqn:Hda.
    + apply (validate_attr_valid inst k a d Hout). apply (Hdef k a d Hk Hm Hda).
    + unfold validate_attr. cbn [fst snd]. rewrite Hout, Hm. reflexivity.
Qed.

End ValidateTheorems.

(** X17 applied to the example rule class, called with a name only. *)
Lemma Validate_after_CallInternal_witness :
  match RuleClass.CallInternal RuleClass.example_rule [] [("name", VString "t")] with
  | Ok inst => RuleInstance.Validate inst = None
  | Err _ => False
  end.
Proof.
  destruct (RuleClass.CallInternal RuleClass.example_rule [] [("name", VString "t")])
    as [inst|e] eqn:E; [|vm_compute in E; discriminate].
  apply (Validate_after_CallInternal RuleClass.example_rule [] [("name", VString "t")] inst E).
  - apply NoDup_ListNoDup. repeat constructor; simpl; intuition discriminate.
  - intros k a d Hk _ Hd.
    assert (Hin : (k, a) ∈ map_to_list (RuleClass.attrs RuleClass.example_rule))
      by (apply elem_of_map_to_list, Hk).
    assert (Hall : Forall (fun na : string * RuleClass.AttrDescriptor =>
                             forall d, RuleClass.Default na.2 = Some d ->
                                       RuleClass.validateAttrValue na.2 d = None)
                     (map_to_list (RuleClass.attrs RuleClass.example_rule))).
    { set (l := map_to_list (RuleClass.attrs RuleClass.example_rule)). vm_compute in l. subst l.
      repeat constructor; cbn [snd RuleClass.Default]; intros d0 [= <-]; reflexivity. }
    rewrite Forall_forall in Hall. apply (Hall (k, a) Hin d Hd).
Defined.

(** ** Packages: looking a target up *)

Section PackageTheorems.
Import RuleClass Eval.

Lemma register_all_package (l : list RuleInstance) : forall p ts,
  exists p',
    package (register_all (mkThread (Some p) ts) l) = Some p'
    /\ forall n,
         GetTarget p' n =
         match GetTarget p n with
         | Some t => Some t
         | None => List.find (fun t => String.eqb (instance_name t) n) l
         end.
Proof.
  induction l as [|t l IH]; intros p ts.
  - exists p. split; [reflexivity|]. intros n. cbn [List.find].
    destruct (GetTarget p n); reflexivity.
  - unfold register_all. cbn [fold_left]. unfold RegisterTarget at 2.
    cbn [package targets]. unfold AddTarget, GetTarget in *.
    destruct (Targets p !! instance_name t) as [t0|] eqn:Ht; cbn [snd].
    + destruct (IH p ts) as (p' & Hp & Hn). exists p'. split; [exact Hp|].
      intros n. rewrite Hn. cbn [List.find].
      destruct (Targets p !! n) as [x|] eqn:Hx; [reflexivity|].
      destruct (String.eqb (instance_name t) n) eqn:E; [|reflexivity].
      apply String.eqb_eq in E. congruence.
    + destruct (IH (mkPackage (Name p) (Root p) (BuildFile p)
                      (<[instance_name t := t]> (Targets p))) ts) as (p' & Hp & Hn).
      exists p'. split; [exact Hp|]. intros n. rewrite Hn. cbn [Targets List.find].
      destruct (String.eqb (instance_name t) n) eqn:E.
      * apply String.eqb_eq in E. subst n. rewrite lookup_insert_eq, Ht. reflexivity.
      * apply String.eqb_neq in E. rewrite lookup_insert_ne by exact E. reflexivity.
Qed.

(** X18. The first registration of a name wins. From a package without
    targets, after any sequence of calls of [RegisterTarget],
    [GetTarget n] is the first target of the sequence whose name is [n],
    and nil when there is none: a later target of the same name is
    refused and changes nothing. *)
Theorem first_registration_wins (p : Package) ts (l : list RuleInstance) :
  Targets p = ∅ ->
  exists p',
    package (register_all (mkThread (Some p) ts) l) = Some p'
    /\ forall n,
         GetTarget p' n = List.find (fun t => String.eqb (instance_name t) n) l.
Proof.
  intros He. destruct (register_all_package l p ts) as (p' & Hp & Hn).
  exists p'. split; [exact Hp|]. intros n. rewrite Hn.
  unfold GetTarget. rewrite He, lookup_empty. reflexivity.
Qed.

End PackageTheorems.

(** X18 applied to two targets of the same name. *)
Lemma first_registration_wins_witness :
  let t1 := RuleClass.mkRuleInstance RuleClass.example_rule "a" ∅ in
  let t2 := RuleClass.mkRuleInstance RuleClass.example_rule "a" {["tags" := VList []]} in
  exists p',
    Eval.package (Eval.register_all
                    (Eval.mkThread (Some (Eval.mkPackage "pkg" "/ws" "/ws/pkg/BUILD" ∅)) None)
                    [t1; t2]) = Some p'
    /\ Eval.GetTarget p' "a" = Some t1.
Proof.
  intros t1 t2.
  destruct (first_registration_wins (Eval.mkPackage "pkg" "/ws" "/ws/pkg/BUILD" ∅) None
              [t1; t2] eq_refl) as (p' & Hp & Hn).
  exists p'. split; [exact Hp|]. rewrite Hn. reflexivity.
Defined.

(** ** The loader: memoization *)

Section LoaderMemo.
Import GoStrings Loader.
Variable Join : list string -> string.
Variable ReadFile : string -> result string string.
Variable ExecFile :
  Thread -> string -> string -> gmap string loadEntry ->
  result string Globals * gmap string loadEntry.

Lemma not_on_stack (label : string) (stack : list string) :
  ~ In label stack -> existsb (fun entry => String.eqb entry label) stack = false.
Proof.
  intros Hno. destruct (existsb _ stack) eqn:E; [|reflexivity].
  apply existsb_exists in E as (x & Hx & Heq). apply String.eqb_eq in Heq.
  subst x. contradiction.
Qed.

Lemma loadFile_keeps (l : BzlFileLoader) (label path : string) (stack : list string)
    (k : string) :
  (forall th p src c, is_Some (c !! k) -> is_Some ((ExecFile th p src c).2 !! k)) ->
  is_Some (cache l !! k) ->
  is_Some ((loadFile ReadFile ExecFile l label path stack).2 !! k).
Proof.
  intros Hkeep Hk. unfold loadFile. destruct (ReadFile path) as [source|msg]; [|exact Hk].
  match goal with
  | |- context [ExecFile ?th ?p ?src ?c] =>
      specialize (Hkeep th p src c Hk); destruct (ExecFile th p src c) as [[g|e] c']
  end; exact Hkeep.
Qed.

(** X19. [Load] memoizes by canonical label, errors included. When a call
    of [Load] that is not part of a cycle has returned, every later call
    for a module that resolves to the same label, from a thread whose
    load stack does not hold the label, returns the same globals or the
    same error and leaves the loader as it is, whatever the file system
    and the interpreter would do: the file is neither read nor executed
    again. The execution of the module is assumed not to remove the
    entry of the label from the cache, which only [ClearCache] does. *)
Theorem Load_memoized (l l' : BzlFileLoader) (th : Thread) (module label path : string)
    (r : result error Globals) :
  (forall th p src c, is_Some (c !! label) -> is_Some ((ExecFile th p src c).2 !! label)) ->
  resolveModule Join l th module = Ok (label, path) ->
  ~ In label (loadStack th) ->
  Load Join ReadFile ExecFile l th module = (Returns r, l') ->
  forall ReadFile' ExecFile' th' module' path',
    resolveModule Join l th' module' = Ok (label, path') ->
    ~ In label (loadStack th') ->
    Load Join ReadFile' ExecFile' l' th' module' = (Returns r, l').
Proof.
  intros Hkeep Hres Hno H ReadFile' ExecFile' th' module' path' Hres' Hno'.
  unfold Load in H. rewrite Hres, (not_on_stack _ _ Hno) in H.
  assert (Hhit : forall entry,
            cache l' !! label = Some entry -> ready entry = true ->
            repoRoot l' = repoRoot l -> repoMapping l' = repoMapping l ->
            Load Join ReadFile' ExecFile' l' th' module'
            = (Returns (entry_result entry), l')).
  { intros entry Hc Hr Hroot Hmap. unfold Load.
    assert (Hsame : resolveModule Join l' th' module' = resolveModule Join l th' module').
    { unfold resolveModule. rewrite Hroot, Hmap. reflexivity. }
    rewrite Hsame, Hres', (not_on_stack _ _ Hno'), Hc, Hr. reflexivity. }
  destruct (cache l !! label) as [entry|] eqn:Hc.
  - destruct (ready entry) eqn:Hr; [|discriminate].
    injection H as <- <-. apply Hhit; auto.
  - set (l1 := with_cache l (<[label := mkEntry None None false]> (cache l))) in *.
    pose proof (loadFile_keeps l1 label path (loadStack th) label Hkeep) as Hk.
    destruct (loadFile ReadFile ExecFile l1 label path (loadStack th)) as [r0 c] eqn:Hlf.
    cbn [snd] in Hk.
    destruct Hk as [e0 He0].
    { unfold l1. cbn [cache with_cache]. rewrite lookup_insert_eq. eauto. }
    injection H as <- <-.
    apply Hhit; [|destruct r0; reflexivity|reflexivity|reflexivity].
    cbn [cache with_cache]. rewrite lookup_alter_eq, He0. reflexivity.
Qed.

End LoaderMemo.

(** X19 applied to [//pkg:a.bzl], loaded a second time as [:a.bzl] from
    package [pkg], with a file system that has lost the file. *)
Lemma Load_memoized_witness :
  let Join := fun parts =>
    GoStrings.Join (List.filter (fun p => negb (String.eqb p "")) parts) "/" in
  let ReadFile := fun _ : string => @Ok string string "x = 1" in
  let ExecFile := fun (_ : Loader.Thread) (_ _ : string)
                      (c : gmap string Loader.loadEntry) =>
                    (@Ok string Loader.Globals {["x" := VInt 1]}, c) in
  let ReadFile' := fun _ : string => @Err string string "gone" in
  let ExecFile' := fun (_ : Loader.Thread) (_ _ : string)
                       (c : gmap string Loader.loadEntry) =>
                     (@Err string Loader.Globals "never run", c) in
  let l := Loader.mkLoader "/ws" ∅ ∅ in
  match Loader.Load Join ReadFile ExecFile l (Loader.mkThread "" "" []) "//pkg:a.bzl" with
  | (Loader.Returns r, l') =>
      Loader.Load Join ReadFile' ExecFile' l'
        (Loader.mkThread "pkg" "" ["//:root.bzl"]) ":a.bzl"
      = (Loader.Returns r, l')
  | _ => False
  end.
Proof.
  intros Join ReadFile ExecFile ReadFile' ExecFile' l.
  destruct (Loader.Load Join ReadFile ExecFile l (Loader.mkThread "" "" []) "//pkg:a.bzl")
    as [[r|lbl] l'] eqn:E; [|vm_compute in E; discriminate].
  apply (Load_memoized Join ReadFile ExecFile l l' (Loader.mkThread "" "" [])
           "//pkg:a.bzl" "//pkg:a.bzl" "/ws/pkg/a.bzl" r)
    with (path' := "/ws/pkg/a.bzl").
  - intros th p src c Hc. exact Hc.
  - vm_compute. reflexivity.
  - simpl. tauto.
  - exact E.
  - vm_compute. reflexivity.
  - simpl. intuition discriminate.
Defined.

(** ** The loader: canonical labels *)

Section LoaderCanonical.
Import GoStrings Loader.
Variable Join : list string -> string.

Lemma resolveModule_halves (l : BzlFileLoader) (th : Thread) (module : string) :
  resolveModule Join l th module
  = '(repo, pkg, file) ← module_parts th module; locate Join l repo pkg file.
Proof.
  unfold resolveModule, module_parts, locate, canonical_label.
  destruct (HasPrefix module "@").
  - destruct (Index module "//"); [|reflexivity].
    destruct (splitPkgTarget _) as [[pkg file]|]; reflexivity.
  - destruct (HasPrefix module "//").
    + destruct (splitPkgTarget _) as [[pkg file]|]; reflexivity.
    + destruct (HasPrefix module ":"); reflexivity.
Qed.

End LoaderCanonical.

Section LoaderCanonicalTheorem.
Import GoStrings Loader.
Variable Join : list string -> string.

Lemma splitPkgTarget_ok (s pkg file : string) :
  splitPkgTarget s = Ok (pkg, file) -> LastIndex file ":" = None.
Proof.
  unfold splitPkgTarget. destruct (LastIndex s ":") as [i|] eqn:Hi; [|discriminate].
  intros [= <- <-]. apply LastIndex_Some_from; [discriminate|exact Hi].
Qed.

Lemma splitPkgTarget_canonical (pkg file : string) :
  LastIndex file ":" = None -> splitPkgTarget (pkg +:+ ":" +:+ file) = Ok (pkg, file).
Proof.
  intros Hf. unfold splitPkgTarget. rewrite (LastIndex_colon_app pkg file Hf), upto_app.
  change (":" +:+ file) with (String ":" file). rewrite from_succ_app. reflexivity.
Qed.

Lemma module_parts_canonical (th : Thread) (repo pkg file : string) :
  LastIndex file ":" = None ->
  (repo = "" -> currentRepo th = "") ->
  (repo <> "" ->
   forall y, Index ("@" +:+ repo +:+ "//" +:+ y) "//" = Some (S (String.length repo))) ->
  module_parts th (canonical_label repo pkg file) = Ok (repo, pkg, file).
Proof.
  intros Hf Hmain Hrepo. unfold module_parts, canonical_label.
  destruct (String.eqb repo "") eqn:Er; cbn [negb].
  - apply String.eqb_eq in Er.
    change (HasPrefix ("//" +:+ pkg +:+ ":" +:+ file) "@") with false.
    change (HasPrefix ("//" +:+ pkg +:+ ":" +:+ file) "//") with true. cbn iota.
    change (from 2 ("//" +:+ pkg +:+ ":" +:+ file)) with (pkg +:+ ":" +:+ file).
    rewrite (splitPkgTarget_canonical pkg file Hf). cbn [mbind result_bind].
    rewrite (Hmain Er), Er. reflexivity.
  - apply String.eqb_neq in Er.
    change (HasPrefix ("@" +:+ repo +:+ "//" +:+ pkg +:+ ":" +:+ file) "@") with true.
    cbn iota. rewrite (Hrepo Er).
    change (slice 1 (S (String.length repo)) ("@" +:+ repo +:+ "//" +:+ pkg +:+ ":" +:+ file))
      with (upto (String.length repo) (repo +:+ "//" +:+ pkg +:+ ":" +:+ file)).
    replace (from (S (String.length repo) + 2)
               ("@" +:+ repo +:+ "//" +:+ pkg +:+ ":" +:+ file))
      with (pkg +:+ ":" +:+ file).
    + rewrite (splitPkgTarget_canonical pkg file Hf), upto_app. reflexivity.
    + rewrite <- (from_from 2 (S (String.length repo))).
      change (from (S (String.length repo)) ("@" +:+ repo +:+ "//" +:+ pkg +:+ ":" +:+ file))
        with (from (String.length repo) (repo +:+ "//" +:+ pkg +:+ ":" +:+ file)).
      rewrite from_app. reflexivity.
Qed.

Lemma module_parts_absolute (th : Thread) (module repo pkg file : string) :
  currentRepo th = "" ->
  HasPrefix module "@" || HasPrefix module "//" = true ->
  module_parts th module = Ok (repo, pkg, file) ->
  LastIndex file ":" = None
  /\ (repo <> "" ->
      forall y, Index ("@" +:+ repo +:+ "//" +:+ y) "//" = Some (S (String.length repo))).
Proof.
  intros Hmain Habs. unfold module_parts.
  destruct (HasPrefix module "@") eqn:Hat.
  - destruct (Index module "//") as [idx|] eqn:Hidx; [|discriminate].
    destruct (splitPkgTarget (from (idx + 2) module)) as [[p f]|] eqn:Hs; [|discriminate].
    cbn [mbind result_bind]. intros [= <- <- <-].
    split; [apply (splitPkgTarget_ok _ _ _ Hs)|]. intros _ y.
    apply HasPrefix_split in Hat. change (String.length "@") with 1 in Hat.
    change ("@" +:+ from 1 module) with (String "@" (from 1 module)) in Hat.
    rewrite Hat in Hidx |- *.
    change (Index (String "@" (from 1 module)) "//")
      with (option_map S (Index (from 1 module) "//")) in Hidx.
    destruct (Index (from 1 module) "//") as [j|] eqn:Hj; [|discriminate].
    injection Hidx as <-.
    change (slice 1 (S j) (String "@" (from 1 module))) with (upto j (from 1 module)).
    apply Index_at_repo, Hj.
  - cbn [orb] in Habs. rewrite Habs.
    destruct (splitPkgTarget (from 2 module)) as [[p f]|] eqn:Hs; [|discriminate].
    cbn [mbind result_bind]. intros [= <- <- <-].
    split; [apply (splitPkgTarget_ok _ _ _ Hs)|]. intros Hne. congruence.
Qed.

Lemma locate_label (l : BzlFileLoader) (repo pkg file label path : string) :
  locate Join l repo pkg file = Ok (label, path) ->
  label = canonical_label repo pkg file.
Proof.
  unfold locate. destruct (negb (HasSuffix file ".bzl") && negb (HasSuffix file ".scl"));
    [discriminate|].
  destruct (if negb (String.eqb repo "") then _ else _) as [root|]; [|discriminate].
  cbn [mbind result_bind]. intros [= <- _]. reflexivity.
Qed.

(** X20. For a thread of the main repository (its current repository is
    empty), the canonical label that [resolveModule] returns for a module
    string that starts with [@] or [//] resolves to itself and to the
    same path. *)
Theorem resolveModule_canonical (l : BzlFileLoader) (th : Thread)
    (module label path : string) :
  currentRepo th = "" ->
  HasPrefix module "@" || HasPrefix module "//" = true ->
  resolveModule Join l th module = Ok (label, path) ->
  resolveModule Join l th label = Ok (label, path).
Proof.
  intros Hmain Habs H. rewrite resolveModule_halves in H |- *.
  destruct (module_parts th module) as [[[repo pkg] file]|] eqn:Hp; [|discriminate].
  cbn [mbind result_bind] in H.
  destruct (module_parts_absolute th module repo pkg file Hmain Habs Hp) as [Hf Hr].
  rewrite (locate_label l repo pkg file label path H).
  rewrite (module_parts_canonical th repo pkg file Hf (fun _ => Hmain) Hr).
  cbn [mbind result_bind]. rewrite H.
  rewrite (locate_label l repo pkg file label path H). reflexivity.
Qed.

End LoaderCanonicalTheorem.

(** X20 applied to a module of a mapped repository. *)
Lemma resolveModule_canonical_witness :
  let Join := fun parts =>
    GoStrings.Join (List.filter (fun p => negb (String.eqb p "")) parts) "/" in
  let l := Loader.mkLoader "/ws" {["rules" := "/ext/rules"]} ∅ in
  Loader.resolveModule Join l (Loader.mkThread "pkg" "" []) "@rules//lib:defs.bzl"
  = Ok ("@rules//lib:defs.bzl", "/ext/rules/lib/defs.bzl").
Proof.
  intros Join l.
  apply (resolveModule_canonical Join l (Loader.mkThread "pkg" "" [])
           "@rules//lib:defs.bzl"); vm_compute; reflexivity.
Defined.

(** ** The loader: the thread of a loaded module *)

Section LoaderChildThread.
Import GoStrings Loader.
Variable Join : list string -> string.
Variable ReadFile : string -> result string string.
Variable ExecFile :
  Thread -> string -> string -> gmap string loadEntry ->
  result string Globals * gmap string loadEntry.

Lemma canonical_label_parts (repo pkg file : string) :
  Contains repo "/" = false -> Contains file ":" = false ->
  let label := canonical_label repo pkg file in
  match Index label "//" with
  | Some idx =>
      let rest := from (idx + 2) label in
      match LastIndex rest ":" with
      | Some colonIdx => upto colonIdx rest
      | None => ""
      end
  | None => ""
  end = pkg
  /\ (if HasPrefix label "@" then
        match Index label "//" with
        | Some idx => slice 1 idx label
        | None => ""
        end
      else "") = repo.
Proof.
  intros Hr Hf. cbv zeta. unfold canonical_label.
  assert (Hfile : LastIndex file ":" = None).
  { apply Index_None_LastIndex. unfold Contains in Hf.
    destruct (Index file ":"); [discriminate|reflexivity]. }
  destruct (String.eqb repo "") eqn:Er; cbn [negb].
  - apply String.eqb_eq in Er. subst repo.
    change (Index ("//" +:+ pkg +:+ ":" +:+ file) "//") with (Some 0).
    cbv beta iota zeta.
    change (from (0 + 2) ("//" +:+ pkg +:+ ":" +:+ file)) with (pkg +:+ ":" +:+ file).
    rewrite (LastIndex_colon_app pkg file Hfile), upto_app. split; reflexivity.
  - change (Index ("@" +:+ repo +:+ "//" +:+ pkg +:+ ":" +:+ file) "//")
      with (option_map S (Index (repo +:+ "//" +:+ pkg +:+ ":" +:+ file) "//")).
    rewrite (Index_no_slash repo _ Hr). cbn [option_map].
    change (HasPrefix ("@" +:+ repo +:+ "//" +:+ pkg +:+ ":" +:+ file) "@") with true.
    cbv beta iota zeta.
    change (slice 1 (S (String.length repo)) ("@" +:+ repo +:+ "//" +:+ pkg +:+ ":" +:+ file))
      with (upto (String.length repo) (repo +:+ "//" +:+ pkg +:+ ":" +:+ file)).
    replace (from (S (String.length repo) + 2)
               ("@" +:+ repo +:+ "//" +:+ pkg +:+ ":" +:+ file))
      with (pkg +:+ ":" +:+ file).
    + rewrite (LastIndex_colon_app pkg file Hfile), !upto_app. split; reflexivity.
    + rewrite <- (from_from 2 (S (String.length repo))).
      change (from (S (String.length repo)) ("@" +:+ repo +:+ "//" +:+ pkg +:+ ":" +:+ file))
        with (from (String.length repo) (repo +:+ "//" +:+ pkg +:+ ":" +:+ file)).
      rewrite from_app. reflexivity.
Qed.

(** X26. [loadFile] executes a module on a thread whose current package
    and repository are those of the module, and whose load stack is the
    stack of the caller with the label of the module appended, when the
    repository name holds no slash and the file name no colon. A relative
    load inside the module is then resolved against the package of the
    module. *)
Theorem loadFile_child_thread (l : BzlFileLoader) (th : Thread)
    (module label path repo pkg file source : string) (parentStack : list string) :
  module_parts th module = Ok (repo, pkg, file) ->
  resolveModule Join l th module = Ok (label, path) ->
  Contains repo "/" = false -> Contains file ":" = false ->
  ReadFile path = Ok source ->
  loadFile ReadFile ExecFile l label path parentStack
  = match ExecFile (mkThread pkg repo (parentStack ++ [label])) path source (cache l) with
    | (Err msg, c) => (Err (ErrExecuting label msg), c)
    | (Ok g, c) => (Ok g, c)
    end.
Proof.
  intros Hp Hres Hr Hf Hread. rewrite resolveModule_halves, Hp in Hres.
  cbn [mbind result_bind] in Hres. apply locate_label in Hres. subst label.
  destruct (canonical_label_parts repo pkg file Hr Hf) as [Hpkg Hrepo].
  cbv zeta in Hpkg, Hrepo. unfold loadFile. rewrite Hread. cbv zeta.
  rewrite Hpkg, Hrepo. reflexivity.
Qed.

End LoaderChildThread.

(** X26 applied to a module of a mapped repository, with an interpreter
    that returns the current package of the thread. *)
Lemma loadFile_child_thread_witness :
  let Join := fun parts =>
    GoStrings.Join (List.filter (fun p => negb (String.eqb p "")) parts) "/" in
  let ReadFile := fun _ : string => @Ok string string "x = 1" in
  let ExecFile := fun (th : Loader.Thread) (_ _ : string)
                      (c : gmap string Loader.loadEntry) =>
                    (@Ok string Loader.Globals
                       {["package" := VString (Loader.currentPkg th)]}, c) in
  let l := Loader.mkLoader "/ws" {["rules" := "/ext/rules"]} ∅ in
  Loader.loadFile ReadFile ExecFile l "@rules//lib:defs.bzl" "/ext/rules/lib/defs.bzl"
    ["//:BUILD"]
  = (Ok {["package" := VString "lib"]}, ∅).
Proof.
  intros Join ReadFile ExecFile l.
  apply (loadFile_child_thread Join ReadFile ExecFile l (Loader.mkThread "" "" [])
           "@rules//lib:defs.bzl" "@rules//lib:defs.bzl" "/ext/rules/lib/defs.bzl"
           "rules" "lib" "defs.bzl" "x = 1" ["//:BUILD"]); vm_compute; reflexivity.
Defined.

(** ** The evaluator: its load function *)

Section EvalMemo.
Import GoStrings Eval.

(** X21. The load function of the [Evaluator] memoizes by module string,
    errors included: when a call with a file loader has returned, every
    later call for the same module returns the same globals and the same
    error and leaves the cache as it is, whatever the file loader and the
    interpreter would do. *)
Theorem makeLoadFunc_memoized
    (load : string -> result string string)
    (ExecFile : string -> string -> gmap string CachedModule ->
                (option (gmap string Value) * option string) * gmap string CachedModule)
    (cache cache' : gmap string CachedModule) (module : string)
    (r : option (gmap string Value) * option string) :
  makeLoadFunc (Some load) ExecFile cache module = (r, cache') ->
  forall fileLoader' ExecFile',
    makeLoadFunc fileLoader' ExecFile' cache' module = (r, cache').
Proof.
  unfold makeLoadFunc. intros H fileLoader' ExecFile'.
  destruct (cache !! module) as [cached|] eqn:Hc.
  - injection H as <- <-. rewrite Hc. reflexivity.
  - destruct (load module) as [source|err].
    + destruct (ExecFile module source cache) as [[globals err] c].
      injection H as <- <-. rewrite lookup_insert_eq. reflexivity.
    + injection H as <- <-. rewrite lookup_insert_eq. reflexivity.
Qed.

End EvalMemo.

(** X21 applied to a module whose file cannot be loaded. *)
Lemma makeLoadFunc_memoized_witness :
  let load := fun _ : string => @Err string string "no such file" in
  let ExecFile := fun (_ _ : string) (c : gmap string Eval.CachedModule) =>
                    ((@None (gmap string Value), @None string), c) in
  Eval.makeLoadFunc None ExecFile
    {["a.bzl" := Eval.mkCached None (Some "no such file")]} "a.bzl"
  = ((None, Some "no such file"),
     {["a.bzl" := Eval.mkCached None (Some "no such file")]}).
Proof.
  intros load ExecFile.
  apply (makeLoadFunc_memoized load ExecFile ∅). vm_compute. reflexivity.
Defined.

(** ** [glob]: includes and excludes *)

Section GlobSets.
Import GoStrings Native.
Variable root : Node.
Variable Match : string -> string -> bool.
Variable Glob : string -> list (list string * Node).

Lemma include_loop (f : string -> list string) (l : list string) : forall m m',
  foldM (fun (matches : gset string) pattern =>
           match validateGlobPattern pattern with
           | Some e => Err e
           | None => Ok (matches ∪ list_to_set (f pattern))
           end) l m = Ok m' ->
  Forall (fun p => validateGlobPattern p = None) l
  /\ forall r, r ∈ m' <-> r ∈ m \/ exists p, In p l /\ In r (f p).
Proof.
  induction l as [|p l IH]; intros m m' H.
  - injection H as <-. split; [constructor|]. intros r. split; [auto|].
    intros [Hr|(p & [] & _)]. exact Hr.
  - cbn [foldM] in H. destruct (validateGlobPattern p) eqn:Hv; [discriminate|].
    cbn [mbind result_bind] in H. destruct (IH _ _ H) as [Hall Hm].
    split; [constructor; assumption|]. intros r. rewrite Hm, elem_of_union.
    rewrite elem_of_list_to_set, list_elem_of_In. split.
    + intros [[Hr|Hr]|(q & Hq & Hr)]; eauto.
      * right. exists p. split; [left; reflexivity|exact Hr].
      * right. exists q. split; [right; exact Hq|exact Hr].
    + intros [Hr|(q & [<-|Hq] & Hr)]; eauto.
Qed.

Lemma exclude_loop (f : string -> list string) (l : list string) : forall m m',
  foldM (fun (matches : gset string) pattern =>
           match validateGlobPattern pattern with
           | Some e => Err e
           | None => Ok (matches ∖ list_to_set (f pattern))
           end) l m = Ok m' ->
  Forall (fun p => validateGlobPattern p = None) l
  /\ forall r, r ∈ m' <-> r ∈ m /\ ~ exists p, In p l /\ In r (f p).
Proof.
  induction l as [|p l IH]; intros m m' H.
  - injection H as <-. split; [constructor|]. intros r. split.
    + intros Hr. split; [exact Hr|]. intros (p & [] & _).
    + intros [Hr _]. exact Hr.
  - cbn [foldM] in H. destruct (validateGlobPattern p) eqn:Hv; [discriminate|].
    cbn [mbind result_bind] in H. destruct (IH _ _ H) as [Hall Hm].
    split; [constructor; assumption|]. intros r. rewrite Hm, elem_of_difference.
    rewrite elem_of_list_to_set, list_elem_of_In. split.
    + intros [[Hr Hp] Hno]. split; [exact Hr|].
      intros (q & [<-|Hq] & Hq'); [exact (Hp Hq')|]. apply Hno. eauto.
    + intros [Hr Hno]. split; [split; [exact Hr|]|].
      * intros Hp. apply Hno. exists p. split; [left; reflexivity|exact Hp].
      * intros (q & Hq & Hq'). apply Hno. exists q. split; [right; exact Hq|exact Hq'].
Qed.

(** X22. When [executeGlob] succeeds, the package directory is set, every
    pattern is valid, and the matches are exactly the paths that some
    include pattern matches and no exclude pattern matches. *)
Theorem executeGlob_includes_minus_excludes (ctx : PackageContext)
    (include exclude : list string) (includeDirs : bool) (matches : gset string) :
  executeGlob root Match Glob ctx include exclude includeDirs = Ok matches ->
  PackageDir ctx <> ""
  /\ Forall (fun p => validateGlobPattern p = None) (include ++ exclude)
  /\ forall r,
       r ∈ matches
       <-> (exists p, In p include
                      /\ In r (matchPattern root Match Glob ctx p includeDirs))
           /\ ~ (exists q, In q exclude
                           /\ In r (matchPattern root Match Glob ctx q includeDirs)).
Proof.
  unfold executeGlob. destruct (String.eqb (PackageDir ctx) "") eqn:Hd; [discriminate|].
  apply String.eqb_neq in Hd.
  destruct (foldM _ include ∅) as [m1|] eqn:Hi; [|discriminate].
  cbn [mbind result_bind]. intros He.
  apply (include_loop (fun p => matchPattern root Match Glob ctx p includeDirs)) in Hi
    as [Hvi Hmi].
  apply (exclude_loop (fun p => matchPattern root Match Glob ctx p includeDirs)) in He
    as [Hve Hme].
  split; [exact Hd|]. split; [apply Forall_app; auto|].
  intros r. rewrite Hme, Hmi. split.
  - intros [[Hr|Hr] Hno]; [set_solver|auto].
  - intros [Hr Hno]. auto.
Qed.

End GlobSets.

(** X22 applied to a package with two sources, one of them excluded. *)
Lemma executeGlob_includes_minus_excludes_witness :
  let pkg := Native.Dir "pkg" [Native.File "BUILD"; Native.File "a.cc"; Native.File "b.cc"] in
  let Glob := fun _ : string => @nil (list string * Native.Node) in
  let ctx := Native.mkContext "pkg" "" "/ws/pkg" None in
  match Native.executeGlob pkg Native.star_match Glob ctx ["**/*.cc"] ["**/b.cc"] false with
  | Ok matches => "a.cc" ∈ matches /\ "b.cc" ∉ matches
  | Err _ => False
  end.
Proof.
  intros pkg Glob ctx.
  destruct (Native.executeGlob pkg Native.star_match Glob ctx ["**/*.cc"] ["**/b.cc"] false)
    as [matches|e] eqn:E; [|vm_compute in E; discriminate].
  destruct (executeGlob_includes_minus_excludes pkg Native.star_match Glob ctx
              ["**/*.cc"] ["**/b.cc"] false matches E) as (_ & _ & Hm).
  split.
  - apply Hm. split.
    + exists "**/*.cc". split; [left; reflexivity|]. vm_compute. auto.
    + intros (q & [<-|[]] & Hq). vm_compute in Hq. intuition discriminate.
  - intros Hb. apply Hm in Hb as [_ Hno]. apply Hno.
    exists "**/b.cc". split; [left; reflexivity|]. vm_compute. auto.
Defined.

(** ** [glob]: the list that it returns *)

Section GlobArguments.
Import GoStrings Native.

Lemma listToStrings_strings (l : list Value) : forall context i strs,
  listToStrings l context i = Ok strs -> l = map VString strs.
Proof.
  induction l as [|v l IH]; intros context i strs H.
  - injection H as <-. reflexivity.
  - cbn [listToStrings] in H. destruct v; try discriminate.
    destruct (listToStrings l context (S i)) as [rest|] eqn:Hr; [|discriminate].
    cbn [mbind result_bind] in H. injection H as <-. cbn [map]. f_equal.
    apply (IH _ _ _ Hr).
Qed.

End GlobArguments.

Section GlobResult.
Import GoStrings Native.
Variable root : Node.
Variable Match : string -> string -> bool.
Variable Glob : string -> list (list string * Node).

(** X27. The list that [glob] returns is a rearrangement of the matches of
    [executeGlob] for the strings of the two argument lists, every match
    that begins with [@] with a colon in front; directories are included
    exactly when [exclude_directories] is 0; and with [allow_empty] set to
    [False] the list is not empty. *)
Theorem glob_returns_the_matches (ctx : PackageContext) (include exclude : list Value)
    (excludeDirs : Z) (allowEmpty : Value) (l : list string) :
  glob root Match Glob (Some ctx) include exclude excludeDirs allowEmpty = Ok l ->
  exists includePatterns excludePatterns matches,
    include = map VString includePatterns
    /\ exclude = map VString excludePatterns
    /\ executeGlob root Match Glob ctx includePatterns excludePatterns
         (excludeDirs =? 0)%Z = Ok matches
    /\ l ≡ₚ map (fun m => if HasPrefix m "@" then ":" +:+ m else m) (elements matches)
    /\ (allowEmpty = VBool false -> l <> []).
Proof.
  unfold glob. intros Hg.
  destruct (listToStrings include "glob include" 0) as [inc|] eqn:Hi; [|discriminate].
  destruct (listToStrings exclude "glob exclude" 0) as [exc|] eqn:He; [|discriminate].
  cbn [mbind result_bind] in Hg.
  destruct (negb _); [discriminate|].
  destruct (match allowEmpty with VNone => _ | _ => _ end) as [allow|] eqn:Ha;
    [|discriminate].
  cbn [mbind result_bind] in Hg.
  destruct (executeGlob _ _ _ _ _ _ _) as [matches|] eqn:Hm; [|discriminate].
  cbn [mbind result_bind] in Hg.
  destruct (negb allow && bool_decide (elements matches = [])) eqn:Hempty; [discriminate|].
  injection Hg as <-.
  exists inc, exc, matches.
  split; [apply (listToStrings_strings _ _ _ _ Hi)|].
  split; [apply (listToStrings_strings _ _ _ _ He)|].
  split; [exact Hm|]. split.
  - apply Permutation_map', merge_sort_Permutation.
  - intros ->. injection Ha as <-. cbn [negb andb] in Hempty.
    apply bool_decide_eq_false in Hempty. intros Hnil. apply Hempty.
    apply map_eq_nil in Hnil.
    apply Permutation_nil_r. rewrite <- Hnil. symmetry. apply merge_sort_Permutation.
Qed.

End GlobResult.

(** X27 applied to a package with one source. *)
Lemma glob_returns_the_matches_witness :
  let pkg := Native.Dir "pkg" [Native.File "BUILD"; Native.File "a.cc"] in
  let Glob := fun _ : string => @nil (list string * Native.Node) in
  let ctx := Native.mkContext "pkg" "" "/ws/pkg" None in
  exists includePatterns excludePatterns matches,
    [VString "**/*.cc"] = map VString includePatterns
    /\ [] = map VString excludePatterns
    /\ Native.executeGlob pkg Native.star_match Glob ctx includePatterns excludePatterns
         (1 =? 0)%Z = Ok matches
    /\ ["a.cc"] ≡ₚ map (fun m => if GoStrings.HasPrefix m "@" then ":" +:+ m else m)
                     (elements matches)
    /\ (VBool false = VBool false -> ["a.cc"] <> []).
Proof.
  intros pkg Glob ctx.
  apply (glob_returns_the_matches pkg Native.star_match Glob ctx
           [VString "**/*.cc"] [] 1 (VBool false) ["a.cc"]).
  vm_compute. reflexivity.
Defined.

(** ** [glob]: what a recursive pattern matches *)

Section WalkComplete.
Import GoStrings Native.
Variable root : Node.
Variable Match : string -> string -> bool.
Variable Glob : string -> list (list string * Node).
Variable hasBuildFile : Node -> bool.
Variable includeDirs : bool.
Variable suffix : string.

Lemma walkFn_accepts elements isStart n :
  rel_path elements <> "." ->
  (IsDir n = true -> includeDirs = true /\ (isStart = true \/ hasBuildFile n = false)) ->
  (suffix <> "" -> Match suffix (node_name n) = true) ->
  walkFn Match hasBuildFile includeDirs suffix elements isStart n
  = ([rel_path elements], Continue).
Proof.
  intros Hdot Hdir Hsuf. unfold walkFn.
  apply String.eqb_neq in Hdot. rewrite Hdot.
  destruct (IsDir n) eqn:Hd.
  - destruct (Hdir eq_refl) as [-> Hs]. cbn [andb negb].
    assert (Hb : hasBuildFile n && negb isStart = false).
    { destruct Hs as [-> | ->]; [apply Bool.andb_false_r|reflexivity]. }
    rewrite Hb. destruct (String.eqb suffix "") eqn:Es; [reflexivity|].
    apply String.eqb_neq in Es. rewrite (Hsuf Es). reflexivity.
  - cbn [andb]. destruct (String.eqb suffix "") eqn:Es; [reflexivity|].
    apply String.eqb_neq in Es. rewrite (Hsuf Es). reflexivity.
Qed.

Lemma walkFn_continues elements isStart n :
  isStart = true \/ hasBuildFile n = false ->
  (walkFn Match hasBuildFile includeDirs suffix elements isStart n).2 = Continue.
Proof.
  intros Hs. unfold walkFn.
  destruct (String.eqb (rel_path elements) "."); [reflexivity|].
  assert (Hb : IsDir n && hasBuildFile n && negb isStart = false).
  { destruct Hs as [-> | ->];
      [apply Bool.andb_false_r|rewrite Bool.andb_false_r; reflexivity]. }
  rewrite Hb. destruct (IsDir n && negb includeDirs); [reflexivity|].
  destruct (negb (String.eqb suffix "") && negb (Match suffix (node_name n)));
    reflexivity.
Qed.

(** Every node that is reached without entering a directory with a BUILD
    file, and that passes the tests of the walk function, is returned. *)
Lemma Walk_complete (n : Node) (isStart : bool) (path : list string) (m : Node) :
  reached hasBuildFile n isStart path m ->
  forall elements,
    rel_path (elements ++ path) <> "." ->
    (IsDir m = true ->
     includeDirs = true /\ ((isStart = true /\ path = []) \/ hasBuildFile m = false)) ->
    (suffix <> "" -> Match suffix (node_name m) = true) ->
    In (rel_path (elements ++ path))
       (Walk Match hasBuildFile includeDirs suffix elements isStart n).
Proof.
  induction 1 as [n isStart|name entries isStart c path m Henter Hc Hreach IH];
    intros elements Hdot Hdir Hsuf; rewrite Walk_unfold.
  - rewrite app_nil_r in *.
    rewrite walkFn_accepts; [|exact Hdot| |exact Hsuf].
    + destruct n; [left; reflexivity|apply in_or_app; left; left; reflexivity].
    + intros Hd. destruct (Hdir Hd) as [Hi [[Hs _]|Hb]]; auto.
  - pose proof (walkFn_continues elements isStart (Dir name entries) Henter) as Hact.
    destruct (walkFn _ _ _ _ _ _ (Dir name entries)) as [found act]. cbn [snd] in Hact.
    subst act. apply in_or_app. right. apply in_flat_map. exists c. split; [exact Hc|].
    replace (elements ++ node_name c :: path) with ((elements ++ [node_name c]) ++ path)
      in * by (rewrite <- app_assoc; reflexivity).
    apply IH; [exact Hdot| |exact Hsuf].
    intros Hd. destruct (Hdir Hd) as [Hi [[_ Hp]|Hb]]; [discriminate|auto].
Qed.

(** X23. A pattern with [**] matches exactly the paths, other than the
    package directory itself, of the nodes that are reached from the
    directory of the prefix without entering a directory with a BUILD
    file, whose name matches the suffix when there is one, and that are
    files, or directories when directories are included and the directory
    has no BUILD file or is the start directory. No entry of a directory
    is named with a single dot. *)
Theorem matchRecursivePattern_exact (ctx : PackageContext) (pattern r : string) :
  names_ok root = true ->
  suffix = TrimPrefix (split_recursive pattern).2 "/" ->
  let prefix := TrimSuffix (split_recursive pattern).1 "/" in
  let start := if String.eqb prefix "" then [] else clean_elements prefix in
  In r (matchRecursivePattern root Match ctx pattern includeDirs hasBuildFile)
  <-> exists n path m,
        find_node root start = Some n
        /\ reached hasBuildFile n true path m
        /\ r = rel_path (start ++ path) /\ r <> "."
        /\ (IsDir m = true ->
            includeDirs = true /\ (path = [] \/ hasBuildFile m = false))
        /\ (suffix <> "" -> Match suffix (node_name m) = true).
Proof.
  intros Hok Hsuf prefix start. split.
  - intros Hin. apply (matchRecursivePattern_sound root Match hasBuildFile includeDirs
                         suffix ctx pattern r Hok Hsuf Hin).
  - intros (n & path & m & Hfind & Hreach & -> & Hdot & Hdir & Hm).
    unfold matchRecursivePattern.
    destruct (split_recursive pattern) as [pre suf] eqn:Hsplit.
    cbn [fst snd] in Hsuf, prefix. fold prefix. fold start. rewrite Hfind, <- Hsuf.
    apply (Walk_complete n true path m Hreach start Hdot); [|exact Hm].
    intros Hd. destruct (Hdir Hd) as [Hi [Hp|Hb]]; auto.
Qed.

End WalkComplete.

(** X23 applied to a source in a directory without BUILD file. *)
Lemma matchRecursivePattern_exact_witness :
  let pkg := Native.Dir "pkg" [Native.File "BUILD"; Native.File "a.cc";
                               Native.Dir "sub" [Native.File "b.cc"]] in
  let ctx := Native.mkContext "pkg" "" "/ws/pkg" None in
  In "sub/b.cc"
     (Native.matchRecursivePattern pkg Native.star_match ctx "**/*.cc" false
        Native.DefaultHasBuildFile).
Proof.
  intros pkg ctx.
  apply (matchRecursivePattern_exact pkg Native.star_match Native.DefaultHasBuildFile
           false "*.cc" ctx "**/*.cc" "sub/b.cc"); [reflexivity|reflexivity|].
  exists pkg, ["sub"; "b.cc"], (Native.File "b.cc").
  split; [reflexivity|]. split.
  - apply (Native.reached_below _ "pkg" _ true (Native.Dir "sub" [Native.File "b.cc"]));
      [left; reflexivity|simpl; auto|].
    apply (Native.reached_below _ "sub" _ false (Native.File "b.cc"));
      [right; reflexivity|simpl; auto|apply Native.reached_here].
  - split; [reflexivity|]. split; [discriminate|].
    split; [discriminate|]. intros _. reflexivity.
Defined.

(** ** [subpackages]: the recursive patterns *)

Section Subpackages.
Import GoStrings Native.
Variable hasBuildFile : Node -> bool.

Lemma subpackageWalk_unfold elements isPackageDir n :
  subpackageWalk hasBuildFile elements isPackageDir n
  = match n with
    | File _ => []
    | Dir _ entries =>
        (if isPackageDir then []
         else if hasBuildFile n then [rel_path elements] else [])
        ++ flat_map
             (fun c => subpackageWalk hasBuildFile (elements ++ [node_name c]) false c)
             entries
    end.
Proof. destruct n; reflexivity. Qed.

Lemma reached_any_start n isStart path m isStart' :
  reached (fun _ => false) n isStart path m ->
  reached (fun _ => false) n isStart' path m.
Proof.
  intros Hr. destruct Hr as [n isStart|name entries isStart c path m Henter Hc Hr].
  - apply reached_here.
  - apply reached_below; [right; reflexivity|exact Hc|exact Hr].
Qed.

Lemma subpackageWalk_sound (n : Node) :
  forall elements isPackageDir r,
    In r (subpackageWalk hasBuildFile elements isPackageDir n) ->
    exists path m,
      reached (fun _ => false) n true path m
      /\ (isPackageDir = true -> path <> [])
      /\ IsDir m = true /\ hasBuildFile m = true
      /\ r = rel_path (elements ++ path).
Proof.
  induction n as [name|name entries IH] using Node_nested_ind;
    intros elements isPackageDir r Hin; rewrite subpackageWalk_unfold in Hin;
    [destruct Hin|].
  apply in_app_or in Hin as [Hin|Hin].
  - destruct isPackageDir; [destruct Hin|].
    destruct (hasBuildFile (Dir name entries)) eqn:Hb; [|destruct Hin].
    destruct Hin as [<-|[]]. exists [], (Dir name entries). rewrite app_nil_r.
    split; [apply reached_here|]. split; [discriminate|]. auto.
  - apply in_flat_map in Hin as (c & Hc & Hin).
    rewrite List.Forall_forall in IH.
    destruct (IH c Hc _ _ _ Hin) as (path & m & Hreach & _ & Hd & Hb & ->).
    exists (node_name c :: path), m.
    split; [apply reached_below; [left; reflexivity|exact Hc|]|].
    + apply reached_any_start with (isStart := true). exact Hreach.
    + split; [discriminate|]. rewrite <- app_assoc. auto.
Qed.

End Subpackages.

Section SubpackagesExact.
Import GoStrings Native.
Variable root : Node.
Variable Glob : string -> list (list string * Node).
Variable hasBuildFile : Node -> bool.

Lemma subpackageWalk_complete (n : Node) (isStart : bool) (path : list string) (m : Node) :
  reached (fun _ => false) n isStart path m ->
  forall elements isPackageDir,
    (isPackageDir = true -> path <> []) ->
    IsDir m = true -> hasBuildFile m = true ->
    In (rel_path (elements ++ path))
       (subpackageWalk hasBuildFile elements isPackageDir n).
Proof.
  induction 1 as [n isStart|name entries isStart c path m Henter Hc Hreach IH];
    intros elements isPackageDir Hp Hd Hb; rewrite subpackageWalk_unfold.
  - destruct n as [|name entries]; [discriminate|]. apply in_or_app. left.
    destruct isPackageDir; [exfalso; apply (Hp eq_refl); reflexivity|].
    rewrite Hb, app_nil_r. left. reflexivity.
  - apply in_or_app. right. apply in_flat_map. exists c. split; [exact Hc|].
    replace (elements ++ node_name c :: path) with ((elements ++ [node_name c]) ++ path)
      by (rewrite <- app_assoc; reflexivity).
    apply IH; [discriminate|exact Hd|exact Hb].
Qed.

(** X24. For a pattern with [**], [matchSubpackagePattern] returns exactly
    the paths of the directories below the package directory, at any
    depth, that have a BUILD file: a subpackage inside another subpackage
    is returned too, and the rest of the pattern plays no part. *)
Theorem subpackages_recursive_exact (ctx : PackageContext) (pattern r : string) :
  Contains pattern "**" = true ->
  In r (matchSubpackagePattern root Glob ctx pattern hasBuildFile)
  <-> exists path m,
        path <> []
        /\ reached (fun _ => false) root true path m
        /\ IsDir m = true /\ hasBuildFile m = true
        /\ r = rel_path path.
Proof.
  intros Hrec. unfold matchSubpackagePattern. rewrite Hrec. split.
  - intros Hin. apply subpackageWalk_sound in Hin as (path & m & Hr & Hp & Hd & Hb & ->).
    exists path, m. auto.
  - intros (path & m & Hp & Hr & Hd & Hb & ->).
    apply (subpackageWalk_complete root true path m Hr [] true); auto.
Qed.

End SubpackagesExact.

(** X24 applied to a subpackage inside a subpackage. *)
Lemma subpackages_recursive_exact_witness :
  let inner := Native.Dir "inner" [Native.File "BUILD"] in
  let sub := Native.Dir "sub" [Native.File "BUILD"; inner] in
  let pkg := Native.Dir "pkg" [Native.File "BUILD"; sub] in
  let Glob := fun _ : string => @nil (list string * Native.Node) in
  let ctx := Native.mkContext "pkg" "" "/ws/pkg" None in
  In "sub/inner"
     (Native.matchSubpackagePattern pkg Glob ctx "**" Native.DefaultHasBuildFile).
Proof.
  intros inner sub pkg Glob ctx.
  apply (subpackages_recursive_exact pkg Glob Native.DefaultHasBuildFile ctx "**");
    [reflexivity|].
  exists ["sub"; "inner"], inner. split; [discriminate|]. split.
  - apply (Native.reached_below _ "pkg" _ true sub); [left; reflexivity|simpl; auto|].
    apply (Native.reached_below _ "sub" _ false inner);
      [right; reflexivity|simpl; auto|apply Native.reached_here].
  - repeat split; reflexivity.
Defined.

(** ** Output groups: merging *)

Section OutputGroups.
Import Depset OutputGroupInfo.
Context {V : Type} `{HV : HostValue V}.
Hypothesis Equal_eq : forall x y : V, Equal x y = true <-> x = y.

Lemma copy_groups (l : list (string * Depset V)) :
  forall m : gmap string (Depset V),
  NoDup (map fst l) ->
  forall k,
    fold_left (fun m (kv : string * Depset V) => <[kv.1 := kv.2]> m) l m !! k
    = match List.find (fun kv : string * Depset V => String.eqb kv.1 k) l with
      | Some kv => Some kv.2
      | None => m !! k
      end.
Proof.
  induction l as [|[k0 d0] l IH]; intros m Hn k; [reflexivity|].
  cbn [map fst] in Hn. apply NoDup_cons in Hn as [Hk0 Hn].
  cbn [fold_left List.find fst snd]. rewrite (IH _ Hn).
  destruct (String.eqb k0 k) eqn:E.
  - apply String.eqb_eq in E. subst k.
    destruct (List.find _ l) as [[k' d']|] eqn:Hf.
    + apply find_some in Hf as [Hin Heq]. apply String.eqb_eq in Heq. cbn in Heq. subst k'.
      exfalso. apply Hk0, list_elem_of_In, in_map_iff. exists (k0, d'). auto.
    + apply lookup_insert_eq.
  - apply String.eqb_neq in E. destruct (List.find _ l); [reflexivity|].
    apply lookup_insert_ne. exact E.
Qed.

Lemma NewOutputGroupInfoWithGroups_groups (gs : gmap string (Depset V)) :
  groups (NewOutputGroupInfoWithGroups gs) = gs.
Proof.
  apply map_eq. intros k. unfold NewOutputGroupInfoWithGroups. cbn [groups].
  rewrite copy_groups by apply NoDup_fst_map_to_list.
  destruct (List.find _ (map_to_list gs)) as [[k' d]|] eqn:Hf.
  - apply find_some in Hf as [Hin Heq]. apply String.eqb_eq in Heq. cbn in Heq. subst k'.
    apply list_elem_of_In, elem_of_map_to_list in Hin. rewrite Hin. reflexivity.
  - rewrite lookup_empty. destruct (gs !! k) as [d|] eqn:Hk; [|reflexivity].
    apply elem_of_map_to_list, list_elem_of_In in Hk.
    apply (find_none _ _ Hf) in Hk. cbn in Hk. rewrite String.eqb_refl in Hk. discriminate.
Qed.

Lemma merge_group_holds builders seen gf builders' :
  holds builders seen ->
  merge_group builders gf = Ok builders' ->
  holds builders' (seen ++ [gf]).
Proof.
  intros Hh Hm g. destruct gf as [g0 f]. unfold merge_group in Hm. cbn [fst snd] in Hm.
  destruct (Hh g) as [Hdom Hel].
  assert (Hseen : forall P : Depset V -> Prop,
            (exists d, In (g, d) (seen ++ [(g0, f)]) /\ P d)
            <-> (exists d, In (g, d) seen /\ P d) \/ (g = g0 /\ P f)).
  { intros P. split.
    - intros (d & Hin & Hp). apply in_app_iff in Hin as [Hin|[[= <- <-]|[]]]; eauto.
    - intros [(d & Hin & Hp)|[-> Hp]].
      + exists d. split; [apply in_app_iff; left; exact Hin|exact Hp].
      + exists f. split; [apply in_app_iff; right; left; reflexivity|exact Hp]. }
  assert (Hseen' : (exists d, In (g, d) (seen ++ [(g0, f)]))
                   <-> (exists d, In (g, d) seen) \/ g = g0).
  { specialize (Hseen (fun _ => True)). split.
    - intros (d & Hin). destruct (proj1 Hseen) as [(d' & Hd' & _)|[Hg _]]; eauto.
    - intros [(d & Hin)|Hg].
      + destruct (proj2 Hseen) as (d' & Hd' & _); eauto.
      + destruct (proj2 Hseen) as (d' & Hd' & _); eauto. }
  destruct (builders !! g0) as [existing|] eqn:Hb.
  - destruct (NewDepset OrderDefault [] [existing; f]) as [merged|] eqn:Hn; [|discriminate].
    cbn [mbind result_bind] in Hm. injection Hm as <-.
    pose proof (NewDepset_pair_members Equal_eq _ existing f merged Hn) as Hmerged.
    destruct (decide (g = g0)) as [->|Hne].
    + rewrite lookup_insert_eq. split.
      * rewrite Hseen'. split; [auto|eauto].
      * intros x. rewrite (Hseen (fun d => In x (ToList d))), <- Hel. split.
        -- intros (d & [= <-] & Hx). apply Hmerged in Hx as [Hx|Hx]; eauto.
        -- intros [(d & Hd & Hx)|[_ Hx]]; exists merged; (split; [reflexivity|]);
             apply Hmerged; [left|right; exact Hx].
           rewrite Hb in Hd. injection Hd as <-. exact Hx.
    + rewrite lookup_insert_ne by congruence. split.
      * rewrite Hseen', Hdom. split; [auto|]. intros [Hd|Hg]; [exact Hd|contradiction].
      * intros x. rewrite (Hseen (fun d => In x (ToList d))), Hel. split; [auto|].
        intros [Hd|[Hg _]]; [exact Hd|contradiction].
  - injection Hm as <-. destruct (decide (g = g0)) as [->|Hne].
    + rewrite lookup_insert_eq. split.
      * rewrite Hseen'. split; [auto|eauto].
      * intros x. rewrite (Hseen (fun d => In x (ToList d))). split.
        -- intros (d & [= <-] & Hx). auto.
        -- intros [Hd|[_ Hx]]; [|eauto].
           apply Hel in Hd as (d & Hd & _). rewrite Hb in Hd. discriminate.
    + rewrite lookup_insert_ne by congruence. split.
      * rewrite Hseen', Hdom. split; [auto|]. intros [Hd|Hg]; [exact Hd|contradiction].
      * intros x. rewrite (Hseen (fun d => In x (ToList d))), Hel. split; [auto|].
        intros [Hd|[Hg _]]; [exact Hd|contradiction].
Qed.

Lemma merge_groups_hold (pairs : list (string * Depset V)) :
  forall builders seen builders',
    holds builders seen ->
    foldM merge_group pairs builders = Ok builders' ->
    holds builders' (seen ++ pairs).
Proof.
  induction pairs as [|gf pairs IH]; intros builders seen builders' Hh Hf.
  - injection Hf as <-. rewrite app_nil_r. exact Hh.
  - cbn [foldM] in Hf. destruct (merge_group builders gf) as [b1|] eqn:Hm; [|discriminate].
    cbn [mbind result_bind] in Hf.
    replace (seen ++ gf :: pairs) with ((seen ++ [gf]) ++ pairs)
      by (rewrite <- app_assoc; reflexivity).
    apply (IH b1 _ _ (merge_group_holds _ _ _ _ Hh Hm) Hf).
Qed.

Lemma merge_providers_hold (ps : list (OutputGroupInfo V)) :
  forall builders seen builders',
    holds builders seen ->
    foldM (fun builders provider =>
             foldM merge_group (map_to_list (groups provider)) builders)
      ps builders = Ok builders' ->
    holds builders' (seen ++ flat_map (fun p => map_to_list (groups p)) ps).
Proof.
  induction ps as [|p ps IH]; intros builders seen builders' Hh Hf.
  - injection Hf as <-. rewrite app_nil_r. exact Hh.
  - cbn [foldM] in Hf.
    destruct (foldM merge_group (map_to_list (groups p)) builders) as [b1|] eqn:Hm;
      [|discriminate].
    cbn [mbind result_bind] in Hf. cbn [flat_map]. rewrite app_assoc.
    apply (IH b1 _ _ (merge_groups_hold _ _ _ _ Hh Hm) Hf).
Qed.

Lemma holds_empty : holds ∅ [].
Proof.
  intros g. split.
  - rewrite lookup_empty. split; [intros [? [=]]|intros [? []]].
  - intros x. rewrite lookup_empty. split; [intros (? & [=] & _)|intros (? & [] & _)].
Qed.

Lemma In_provider_groups (ps : list (OutputGroupInfo V)) g d :
  In (g, d) (flat_map (fun p => map_to_list (groups p)) ps)
  <-> exists p, In p ps /\ groups p !! g = Some d.
Proof.
  rewrite in_flat_map. split; intros (p & Hp & Hin); exists p; (split; [exact Hp|]).
  - apply list_elem_of_In, elem_of_map_to_list in Hin. exact Hin.
  - apply list_elem_of_In, elem_of_map_to_list. exact Hin.
Qed.

Lemma holds_own (m : gmap string (Depset V)) : holds m (map_to_list m).
Proof.
  intros g. split.
  - split.
    + intros [d Hd]. exists d. apply list_elem_of_In, elem_of_map_to_list, Hd.
    + intros [d Hd]. exists d. apply list_elem_of_In, elem_of_map_to_list in Hd. exact Hd.
  - intros x. split; intros (d & Hd & Hx); exists d; (split; [|exact Hx]).
    + apply list_elem_of_In, elem_of_map_to_list, Hd.
    + apply list_elem_of_In, elem_of_map_to_list in Hd. exact Hd.
Qed.

Lemma ContainsKey_is_Some (o : OutputGroupInfo V) (g : string) :
  ContainsKey o g = true <-> is_Some (groups o !! g).
Proof.
  unfold ContainsKey. destruct (groups o !! g); split; eauto; try discriminate.
  intros [? [=]].
Qed.

(** X25. When [starlark.Equal] is the equality of the values and
    [MergeOutputGroupInfo] returns an [OutputGroupInfo], it has a group
    exactly when one of the providers has a group of that name, and the
    values of the group are those of the groups of that name of the
    providers: groups of the same name are merged, not refused. *)
Theorem MergeOutputGroupInfo_groups (ps : list (OutputGroupInfo V))
    (merged : OutputGroupInfo V) :
  MergeOutputGroupInfo ps = Ok (Some merged) ->
  forall g,
    (ContainsKey merged g = true <-> exists p, In p ps /\ ContainsKey p g = true)
    /\ forall x,
         (exists d, groups merged !! g = Some d /\ In x (ToList d))
         <-> exists p d, In p ps /\ groups p !! g = Some d /\ In x (ToList d).
Proof.
  intros Hm g.
  assert (Hh : holds (groups merged) (flat_map (fun p => map_to_list (groups p)) ps)).
  { destruct ps as [|p [|q ps]]; [discriminate| |].
    - injection Hm as <-. cbn [flat_map]. rewrite app_nil_r. apply holds_own.
    - unfold MergeOutputGroupInfo in Hm.
      destruct (foldM _ (p :: q :: ps) ∅) as [builders|] eqn:Hf; [|discriminate].
      cbn [mbind result_bind] in Hm. injection Hm as <-.
      rewrite NewOutputGroupInfoWithGroups_groups.
      apply (merge_providers_hold (p :: q :: ps) ∅ [] builders holds_empty Hf). }
  destruct (Hh g) as [Hdom Hel]. split.
  - rewrite ContainsKey_is_Some, Hdom. split.
    + intros (d & Hd). apply In_provider_groups in Hd as (p & Hp & Hd).
      exists p. split; [exact Hp|]. apply ContainsKey_is_Some. eauto.
    + intros (p & Hp & Hc). apply ContainsKey_is_Some in Hc as [d Hd].
      exists d. apply In_provider_groups. eauto.
  - intros x. rewrite Hel. split.
    + intros (d & Hd & Hx). apply In_provider_groups in Hd as (p & Hp & Hd). eauto.
    + intros (p & d & Hp & Hd & Hx). exists d. split; [|exact Hx].
      apply In_provider_groups. eauto.
Qed.

End OutputGroups.

(** X25 applied to two providers that both have the group [default]. *)
Lemma MergeOutputGroupInfo_groups_witness :
  let HV := Int_host (fun _ => "") in
  let a := OutputGroupInfo.mkInfo
             {["default" := Depset.mkDepset Depset.OrderDefault [1]%Z [] "int"]} false in
  let b := OutputGroupInfo.mkInfo
             {["default" := Depset.mkDepset Depset.OrderDefault [2]%Z [] "int"]} false in
  match @OutputGroupInfo.MergeOutputGroupInfo Z HV [a; b] with
  | Ok (Some merged) =>
      exists d, OutputGroupInfo.groups merged !! "default" = Some d
                /\ In 2%Z (@Depset.ToList Z HV d)
  | _ => False
  end.
Proof.
  intros HV a b.
  destruct (@OutputGroupInfo.MergeOutputGroupInfo Z HV [a; b]) as [[merged|]|e] eqn:E;
    [|vm_compute in E; discriminate|vm_compute in E; discriminate].
  apply (proj2 (@MergeOutputGroupInfo_groups Z HV Z.eqb_eq [a; b] merged E "default") 2%Z).
  exists b. eexists. split; [simpl; auto|]. split; [reflexivity|]. vm_compute. auto.
Defined.
